(** * Cost analytics of claude_monitor: [analyzers/tokens.py]

    A shallow embedding of the token analyzer (pricing table, [CostBreakdown],
    [TokenSummary], [TokenAnalyzer]) together with the few pieces of the Python
    run time it relies on: binary64 floats, true division of integers, ordered
    dictionaries, the built-ins [sorted] and [sum], and fixed-point
    formatting. *)

From Stdlib Require Import ZArith List String Ascii Bool Lia Floats.
From Stdlib Require Import DecimalString DecimalPos DecimalZ Permutation Sorted.
From Stdlib Require Import Reals Lra.
Import ListNotations.

Set Warnings "-inexact-float".

(** ** The Python run time *)

Module Py.

(** Exceptions the analyzer's arithmetic can raise. *)
Inductive exn : Set :=
| ZeroDivisionError
| OverflowError.

Inductive result (A : Type) : Type :=
| Ok (a : A)
| Raise (e : exn).
Arguments Ok {A} a.
Arguments Raise {A} e.

Definition bind {A B} (r : result A) (k : A -> result B) : result B :=
  match r with
  | Ok a => k a
  | Raise e => Raise e
  end.

Definition is_ok {A} (r : result A) : bool :=
  match r with Ok _ => true | Raise _ => false end.

Fixpoint mapM {A B} (f : A -> result B) (l : list A) : result (list B) :=
  match l with
  | [] => Ok []
  | a :: l' =>
      bind (f a) (fun b => bind (mapM f l') (fun bs => Ok (b :: bs)))
  end.

(** *** [int / int]

    CPython's [long_true_divide]: when both operands have at most 53 bits
    they are converted (exactly) to doubles and divided in hardware;
    otherwise the exact quotient is rounded once, to nearest even, and the
    division raises [OverflowError] when that rounded quotient is beyond the
    largest double. A zero divisor raises [ZeroDivisionError]. *)

Definition float_of_small_int (z : Z) : float :=
  match z with
  | Z0 => PrimFloat.zero
  | Zpos _ => PrimFloat.of_uint63 (Uint63.of_Z z)
  | Zneg p => PrimFloat.opp (PrimFloat.of_uint63 (Uint63.of_Z (Zpos p)))
  end.

Definition int_as_mantissa (z : Z) : spec_float :=
  match z with
  | Z0 => S754_zero false
  | Zpos p => S754_finite false p 0
  | Zneg p => S754_finite true p 0
  end.

Definition is_small_int (z : Z) : bool := (Z.abs z <? 2 ^ 53)%Z.

Definition int_truediv (a b : Z) : result float :=
  if (b =? 0)%Z then Raise ZeroDivisionError
  else if is_small_int a && is_small_int b
       then Ok (PrimFloat.div (float_of_small_int a) (float_of_small_int b))
       else match SFdiv prec emax (int_as_mantissa a) (int_as_mantissa b) with
            | S754_infinity _ => Raise OverflowError
            | q => Ok (SF2Prim q)
            end.

(** *** [str(int)] *)

Definition str_int (z : Z) : string := NilZero.string_of_int (Z.to_int z).

(** *** [f"{x:.<d>f}"]

    Fixed-point formatting of a double with [d] fractional digits: the exact
    binary value is rounded once, to nearest with ties to even, to a
    multiple of [10^-d]. *)

Fixpoint zeros (n : nat) : string :=
  match n with
  | O => EmptyString
  | S n' => String "0" (zeros n')
  end.

Definition round_half_even_div (num den : Z) : Z :=
  let q := (num / den)%Z in
  let r := (num mod den)%Z in
  match (2 * r ?= den)%Z with
  | Lt => q
  | Gt => (q + 1)%Z
  | Eq => if Z.even q then q else (q + 1)%Z
  end.

(** [scaled_round d m e] is the integer nearest to [m * 2^e * 10^d]. *)
Definition scaled_round (d : nat) (m : positive) (e : Z) : Z :=
  match e with
  | Zneg p => round_half_even_div (Zpos m * 10 ^ Z.of_nat d) (2 ^ Zpos p)
  | _ => (Zpos m * 2 ^ e * 10 ^ Z.of_nat d)%Z
  end.

(** The digits of [n] with the decimal point [d] places from the right. *)
Definition render_fixed (d : nat) (n : Z) : string :=
  let digits := NilZero.string_of_uint (N.to_uint (Z.to_N n)) in
  let padded := (zeros (S d - String.length digits) ++ digits)%string in
  let k := (String.length padded - d)%nat in
  match d with
  | O => padded
  | _ => (substring 0 k padded ++ "." ++ substring k d padded)%string
  end.

Definition sign_prefix (s : bool) : string :=
  if s then "-"%string else EmptyString.

Definition format_fixed (d : nat) (x : float) : string :=
  match Prim2SF x with
  | S754_nan => "nan"%string
  | S754_infinity s => (sign_prefix s ++ "inf")%string
  | S754_zero s => (sign_prefix s ++ render_fixed d 0)%string
  | S754_finite s m e => (sign_prefix s ++ render_fixed d (scaled_round d m e))%string
  end.

(** *** Dictionaries

    A [dict] keeps its items in insertion order; assigning to a key that is
    already present replaces the value in place. *)

Section Dict.
Context {V : Type}.

Definition dict := list (string * V).

Fixpoint dict_get (d : dict) (k : string) : option V :=
  match d with
  | [] => None
  | (k', v) :: d' => if String.eqb k' k then Some v else dict_get d' k
  end.

Fixpoint dict_set (d : dict) (k : string) (v : V) : dict :=
  match d with
  | [] => [(k, v)]
  | (k', v') :: d' =>
      if String.eqb k' k then (k, v) :: d' else (k', v') :: dict_set d' k v
  end.

(** [dict(items)] *)
Definition dict_of_items (items : list (string * V)) : dict :=
  fold_left (fun d kv => dict_set d (fst kv) (snd kv)) items [].

Definition keys (d : dict) : list string := map fst d.
Definition values (d : dict) : list V := map snd d.

(** What every dictionary satisfies: no key occurs twice. *)
Definition well_formed (d : dict) : Prop := NoDup (keys d).
End Dict.
Arguments dict V : clear implicits.

(** *** [sorted(xs, key=..., reverse=True)]

    The built-in sort is stable and compares keys with [<] only; with
    [reverse=True] equal keys still keep their original order. The model is
    the stable insertion sort: an element moves past the strictly greater
    ones and stops in front of the first that is not. On keys that [<]
    orders totally, as the costs are, a stable descending order is unique
    ([sorted_reverse_unique] below), so the sorting algorithm does not
    matter. *)

Section Sorted.
Context {A : Type} (key : A -> float).

Fixpoint insert_desc (x : A) (l : list A) : list A :=
  match l with
  | [] => [x]
  | y :: l' =>
      if PrimFloat.ltb (key x) (key y) then y :: insert_desc x l'
      else x :: y :: l'
  end.

Definition sorted_reverse (l : list A) : list A :=
  fold_right insert_desc [] l.
End Sorted.

(** *** [sum(xs)] over floats

    The running total starts from the integer 0, so the first item [x] enters
    as [0 + x]. Up to CPython 3.11 the further items are added to the total
    from left to right. From CPython 3.12 on the additions also feed
    Neumaier's compensation term, which is added to the total at the end
    unless it is zero, infinite or NaN. *)

Inductive version : Set :=
| CPython_3_11
| CPython_3_12.

Definition sum_in_order (xs : list float) : float :=
  fold_left PrimFloat.add xs PrimFloat.zero.

(** One turn of the compensated loop on the pair [(f_result, c)]. *)
Definition compensated_add (total : float * float) (x : float) : float * float :=
  let (f_result, c) := total in
  let t := (f_result + x)%float in
  if (PrimFloat.abs x <=? PrimFloat.abs f_result)%float
  then (t, (c + ((f_result - t) + x))%float)
  else (t, (c + ((x - t) + f_result))%float).

(** The sum of no item is the integer 0, here as a float. *)
Definition sum_compensated (xs : list float) : float :=
  match xs with
  | [] => PrimFloat.zero
  | x :: rest =>
      let (f_result, c) :=
        fold_left compensated_add rest ((0 + x)%float, 0%float) in
      if PrimFloat.is_zero c || negb (PrimFloat.is_finite c) then f_result
      else (f_result + c)%float
  end.

Definition sum (py : version) (xs : list float) : float :=
  match py with
  | CPython_3_11 => sum_in_order xs
  | CPython_3_12 => sum_compensated xs
  end.

End Py.

Import Py.

Notation "x <- r ;; k" := (bind r (fun x => k))
  (at level 61, r at next level, right associativity).

(** ** Data model *)

(** The types of [parsers/sessions.py] that the analyzer reads. *)
Module Sessions.

(** Modelled from the spec: [TokenUsage] holds four non-negative integer
    counters. *)
Record TokenUsage := {
  input_tokens : N;
  output_tokens : N;
  cache_creation_input_tokens : N;
  cache_read_input_tokens : N
}.

(** Modelled from the spec: the aggregate returned by the session parser, of
    which the analyzer reads the per-model usage and the merged total. *)
Record SessionStats := {
  model_usage : dict TokenUsage;
  total_tokens : TokenUsage
}.

End Sessions.

Import Sessions (TokenUsage, SessionStats, Build_TokenUsage, Build_SessionStats).
Import Sessions (input_tokens, output_tokens, cache_creation_input_tokens).
Import Sessions (cache_read_input_tokens, model_usage).

(** One entry of the pricing table: dollars per million tokens. *)
Record Pricing := {
  input_per_mtok : float;
  output_per_mtok : float;
  cache_write_per_mtok : float;
  cache_read_per_mtok : float
}.

Definition MODEL_PRICING : dict Pricing :=
  [ ("claude-sonnet-4-5-20250929"%string,
     {| input_per_mtok := 3.00; output_per_mtok := 15.00;
        cache_write_per_mtok := 3.75; cache_read_per_mtok := 0.30 |});
    ("claude-haiku-4-5-20251001"%string,
     {| input_per_mtok := 1.00; output_per_mtok := 5.00;
        cache_write_per_mtok := 1.25; cache_read_per_mtok := 0.10 |});
    ("claude-opus-4-20250514"%string,
     {| input_per_mtok := 15.00; output_per_mtok := 75.00;
        cache_write_per_mtok := 18.75; cache_read_per_mtok := 1.50 |}) ].

(** [MODEL_PRICING['claude-sonnet-4-5-20250929']]; the key is in the table, so
    the second branch is never taken. *)
Definition DEFAULT_PRICING : Pricing :=
  match dict_get MODEL_PRICING "claude-sonnet-4-5-20250929" with
  | Some p => p
  | None => Build_Pricing 0 0 0 0
  end.

Record CostBreakdown := {
  input_cost : float;
  output_cost : float;
  cache_write_cost : float;
  cache_read_cost : float
}.

(** The properties of [CostBreakdown]. *)
Module CostBreakdown.

Definition total_cost (c : CostBreakdown) : float :=
  (input_cost c + output_cost c + cache_write_cost c + cache_read_cost c)%float.

Definition cache_savings (c : CostBreakdown) : float :=
  let regular_cost :=
    (cache_read_cost c / cache_read_per_mtok DEFAULT_PRICING
     * input_per_mtok DEFAULT_PRICING)%float in
  (regular_cost - cache_read_cost c)%float.

End CostBreakdown.

Record TokenSummary := {
  total_tokens : TokenUsage;
  cost_breakdown : CostBreakdown;
  cache_efficiency_pct : float
}.

(** The properties and the method of [TokenSummary]. *)
Module TokenSummary.

Definition total_cost (s : TokenSummary) : float :=
  CostBreakdown.total_cost (cost_breakdown s).

Definition net_cost (s : TokenSummary) : float :=
  CostBreakdown.total_cost (cost_breakdown s).

Definition cache_savings (s : TokenSummary) : float :=
  CostBreakdown.cache_savings (cost_breakdown s).

Definition format_cost (cost : float) : string :=
  ("$" ++ format_fixed 2 cost)%string.

End TokenSummary.

(** ** The analyzer *)

Module TokenAnalyzer.

(** [MODEL_PRICING.get(model, DEFAULT_PRICING)]; [None] is never a key. *)
Definition pricing_of (model : option string) : Pricing :=
  match model with
  | Some m =>
      match dict_get MODEL_PRICING m with
      | Some p => p
      | None => DEFAULT_PRICING
      end
  | None => DEFAULT_PRICING
  end.

Definition calculate_cost (tokens : TokenUsage) (model : option string)
  : result CostBreakdown :=
  let pricing := pricing_of model in
  i <- int_truediv (Z.of_N (input_tokens tokens)) 1000000 ;;
  let input_cost := (i * input_per_mtok pricing)%float in
  o <- int_truediv (Z.of_N (output_tokens tokens)) 1000000 ;;
  let output_cost := (o * output_per_mtok pricing)%float in
  w <- int_truediv (Z.of_N (cache_creation_input_tokens tokens)) 1000000 ;;
  let cache_write_cost := (w * cache_write_per_mtok pricing)%float in
  r <- int_truediv (Z.of_N (cache_read_input_tokens tokens)) 1000000 ;;
  let cache_read_cost := (r * cache_read_per_mtok pricing)%float in
  Ok {| input_cost := input_cost; output_cost := output_cost;
        cache_write_cost := cache_write_cost;
        cache_read_cost := cache_read_cost |}.

(** One turn of the loop of [get_summary]: the four [+=] on the running total. *)
Definition accumulate (total model_cost : CostBreakdown) : CostBreakdown :=
  {| input_cost := (input_cost total + input_cost model_cost)%float;
     output_cost := (output_cost total + output_cost model_cost)%float;
     cache_write_cost := (cache_write_cost total + cache_write_cost model_cost)%float;
     cache_read_cost := (cache_read_cost total + cache_read_cost model_cost)%float |}.

Fixpoint summary_loop (items : list (string * TokenUsage)) (total : CostBreakdown)
  : result CostBreakdown :=
  match items with
  | [] => Ok total
  | (model, tokens) :: rest =>
      model_cost <- calculate_cost tokens (Some model) ;;
      summary_loop rest (accumulate total model_cost)
  end.

(** The loop shared by the two model breakdowns:
    [breakdown[model] = (tokens, cost.total_cost)]. *)
Fixpoint breakdown_loop (items : list (string * TokenUsage))
  (breakdown : dict (TokenUsage * float)) : result (dict (TokenUsage * float)) :=
  match items with
  | [] => Ok breakdown
  | (model, tokens) :: rest =>
      cost <- calculate_cost tokens (Some model) ;;
      breakdown_loop rest
        (dict_set breakdown model (tokens, CostBreakdown.total_cost cost))
  end.

(** [key=lambda x: x[1][1]] *)
Definition entry_cost (x : string * (TokenUsage * float)) : float := snd (snd x).

(** [key=lambda x: sum(c for _, c in x[1].values())], under the interpreter
    [py]. *)
Definition project_cost (py : Py.version)
  (x : string * dict (TokenUsage * float)) : float :=
  Py.sum py (map snd (values (snd x))).

(** [stats] is [session_parser.get_stats(time_filter=self.time_filter)]. *)
Definition get_model_breakdown (stats : SessionStats)
  : result (dict (TokenUsage * float)) :=
  breakdown <- breakdown_loop (model_usage stats) [] ;;
  Ok (dict_of_items (sorted_reverse entry_cost breakdown)).

Fixpoint by_project_loop (items : list (string * SessionStats))
  (acc : dict (dict (TokenUsage * float)))
  : result (dict (dict (TokenUsage * float))) :=
  match items with
  | [] => Ok acc
  | (project, stats) :: rest =>
      project_models <- breakdown_loop (model_usage stats) [] ;;
      match project_models with
      | [] => by_project_loop rest acc
      | _ :: _ =>
          by_project_loop rest
            (dict_set acc project
               (dict_of_items (sorted_reverse entry_cost project_models)))
      end
  end.

(** [project_stats] is
    [session_parser.get_project_stats(time_filter=self.time_filter)]. *)
Definition get_model_by_project_breakdown (py : Py.version)
  (project_stats : dict SessionStats)
  : result (dict (dict (TokenUsage * float))) :=
  result <- by_project_loop project_stats [] ;;
  Ok (dict_of_items (sorted_reverse (project_cost py) result)).

(** [count >= 1_000_000], then [count >= 1_000], then [str(count)]. *)
Definition format_token_count (count : Z) : result string :=
  if (1000000 <=? count)%Z then
    x <- int_truediv count 1000000 ;; Ok (format_fixed 1 x ++ "M")%string
  else if (1000 <=? count)%Z then
    x <- int_truediv count 1000 ;; Ok (format_fixed 0 x ++ "K")%string
  else Ok (str_int count).

Definition zero_cost : CostBreakdown :=
  {| input_cost := 0; output_cost := 0; cache_write_cost := 0; cache_read_cost := 0 |}.

Section WithParser.

(** Modelled from the spec: [TokenUsage.cache_efficiency_percentage], a
    property declared with [TokenUsage] in [parsers/sessions.py]. *)
Variable cache_efficiency_percentage : TokenUsage -> float.

Definition get_summary (stats : SessionStats) : result TokenSummary :=
  total_cost <- summary_loop (model_usage stats) zero_cost ;;
  Ok {| total_tokens := Sessions.total_tokens stats;
        cost_breakdown := total_cost;
        cache_efficiency_pct :=
          cache_efficiency_percentage (Sessions.total_tokens stats) |}.

Fixpoint project_loop (items : list (string * SessionStats))
  (breakdown : dict TokenSummary) : result (dict TokenSummary) :=
  match items with
  | [] => Ok breakdown
  | (project, stats) :: rest =>
      cost <- calculate_cost (Sessions.total_tokens stats) None ;;
      project_loop rest
        (dict_set breakdown project
           {| total_tokens := Sessions.total_tokens stats;
              cost_breakdown := cost;
              cache_efficiency_pct :=
                cache_efficiency_percentage (Sessions.total_tokens stats) |})
  end.

Definition get_project_breakdown (project_stats : dict SessionStats)
  : result (dict TokenSummary) :=
  project_loop project_stats [].

End WithParser.

End TokenAnalyzer.
Import TokenAnalyzer.

(** ** Reference definitions

    What the specification says in its own words, to be compared with the
    analyzer above. *)

Module Spec.

(** The cost of every [(model, TokenUsage)] pair, each at its own rates. *)
Definition model_costs (items : list (string * TokenUsage))
  : result (list CostBreakdown) :=
  mapM (fun kv => calculate_cost (snd kv) (Some (fst kv))) items.

(** The four cost fields summed field-wise, in the order of the list. *)
Definition sum_costs (costs : list CostBreakdown) : CostBreakdown :=
  {| input_cost := Py.sum_in_order (map input_cost costs);
     output_cost := Py.sum_in_order (map output_cost costs);
     cache_write_cost := Py.sum_in_order (map cache_write_cost costs);
     cache_read_cost := Py.sum_in_order (map cache_read_cost costs) |}.

Definition summary (cache_efficiency_percentage : TokenUsage -> float)
  (stats : SessionStats) : result TokenSummary :=
  costs <- model_costs (model_usage stats) ;;
  Ok {| total_tokens := Sessions.total_tokens stats;
        cost_breakdown := sum_costs costs;
        cache_efficiency_pct :=
          cache_efficiency_percentage (Sessions.total_tokens stats) |}.

(** One breakdown entry per model: its usage and its total cost. *)
Definition priced_entry (kv : string * TokenUsage)
  : result (string * (TokenUsage * float)) :=
  cost <- calculate_cost (snd kv) (Some (fst kv)) ;;
  Ok (fst kv, (snd kv, CostBreakdown.total_cost cost)).

Definition priced (items : list (string * TokenUsage))
  : result (list (string * (TokenUsage * float))) :=
  mapM priced_entry items.

(** One summary per project: the merged total at the default rates. *)
Definition project_summary (cache_efficiency_percentage : TokenUsage -> float)
  (kv : string * SessionStats) : result (string * TokenSummary) :=
  cost <- calculate_cost (Sessions.total_tokens (snd kv)) None ;;
  Ok (fst kv,
      {| total_tokens := Sessions.total_tokens (snd kv);
         cost_breakdown := cost;
         cache_efficiency_pct :=
           cache_efficiency_percentage (Sessions.total_tokens (snd kv)) |}).

(** Decimal digits, as [format_token_count] prints them. *)
Definition is_digit (c : ascii) : bool :=
  (48 <=? nat_of_ascii c)%nat && (nat_of_ascii c <=? 57)%nat.

Fixpoint is_digits (s : string) : bool :=
  match s with
  | EmptyString => true
  | String c s' => is_digit c && is_digits s'
  end.

(** A non-empty run of decimal digits. *)
Definition is_numeral (s : string) : Prop :=
  is_digits s = true /\ s <> EmptyString.

(** Sorted by [key], greatest first. *)
Definition descending {A} (key : A -> float) (l : list A) : Prop :=
  StronglySorted (fun a b => (key b <=? key a)%float = true) l.

Definition strictly_descending {A} (key : A -> float) (l : list A) : Prop :=
  StronglySorted (fun a b => (key b <? key a)%float = true) l.


(** The largest finite double, [(2^53 - 1) * 2^971], as an integer. *)
Definition DBL_MAX : Z := (2 ^ 53 - 1) * 2 ^ 971.

(** The counts whose quotient by [divisor] is at most [DBL_MAX]. *)
Definition divides_in_range (count divisor : Z) : bool :=
  (count <=? DBL_MAX * divisor)%Z.

Definition in_range (t : TokenUsage) : bool :=
  divides_in_range (Z.of_N (input_tokens t)) 1000000
  && divides_in_range (Z.of_N (output_tokens t)) 1000000
  && divides_in_range (Z.of_N (cache_creation_input_tokens t)) 1000000
  && divides_in_range (Z.of_N (cache_read_input_tokens t)) 1000000.

(** Modelled from the spec: [total_tokens] is the sum over [model_usage]. *)
Definition add_usage (a b : TokenUsage) : TokenUsage :=
  {| input_tokens := input_tokens a + input_tokens b;
     output_tokens := output_tokens a + output_tokens b;
     cache_creation_input_tokens :=
       cache_creation_input_tokens a + cache_creation_input_tokens b;
     cache_read_input_tokens :=
       cache_read_input_tokens a + cache_read_input_tokens b |}.

Definition zero_usage : TokenUsage := Build_TokenUsage 0 0 0 0.

Definition consistent (stats : SessionStats) : Prop :=
  Sessions.total_tokens stats
  = fold_left add_usage (values (model_usage stats)) zero_usage.

End Spec.

(** ** Concrete inputs *)

Module Examples.

Definition sonnet : string := "claude-sonnet-4-5-20250929".
Definition haiku : string := "claude-haiku-4-5-20251001".
Definition opus : string := "claude-opus-4-20250514".

Definition usage (i o w r : N) : TokenUsage :=
  {| input_tokens := i; output_tokens := o;
     cache_creation_input_tokens := w; cache_read_input_tokens := r |}.

Definition no_cache_efficiency (_ : TokenUsage) : float := 0%float.

(** One million input tokens on a $3 model and one million on a $15 model. *)
Definition mixed_models : SessionStats :=
  {| model_usage := [(sonnet, usage 1000000 0 0 0); (opus, usage 1000000 0 0 0)];
     Sessions.total_tokens := usage 2000000 0 0 0 |}.


Definition single_model (model : string) (t : TokenUsage) : SessionStats :=
  {| model_usage := [(model, t)]; Sessions.total_tokens := t |}.

(** The cheaper project is reported first. *)
Definition two_projects : dict SessionStats :=
  [("alpha"%string, single_model sonnet (usage 1000000 0 0 0));
   ("beta"%string, single_model sonnet (usage 5000000 0 0 0))].

(** A project whose sessions used no model at all. *)
Definition idle_project : SessionStats :=
  {| model_usage := []; Sessions.total_tokens := usage 0 0 0 0 |}.

Definition projects_with_idle : dict SessionStats :=
  [("alpha"%string, single_model sonnet (usage 1000000 0 0 0));
   ("idle"%string, idle_project);
   ("beta"%string,
    {| model_usage := [(haiku, usage 1000000 0 0 0); (opus, usage 2000000 0 0 0)];
       Sessions.total_tokens := usage 3000000 0 0 0 |})].

(** A count whose quotient by one million is [2^1024], beyond every double. *)
Definition astronomical : N := 2 ^ 1024 * 1000000.

Definition infinite_cache_read : CostBreakdown :=
  {| input_cost := 0; output_cost := 0; cache_write_cost := 0;
     cache_read_cost := infinity |}.

(** Cache reads whose count divides within the doubles ([1.5e308] millions)
    but whose cost at the Opus rate, 1.50, does not. *)
Definition huge_cache_reads : TokenUsage := usage 0 0 0 (15 * 10 ^ 313).

Definition cached_summary : TokenSummary :=
  {| total_tokens := usage 0 0 0 1000000;
     cost_breakdown :=
       {| input_cost := 0; output_cost := 0; cache_write_cost := 0;
          cache_read_cost := 0.30 |};
     cache_efficiency_pct := 100 |}.

End Examples.

(** ** Binary64

    The vocabulary in which the rounding of [SpecFloat] is described: the real
    value of a mantissa and an exponent, floats in canonical form, and the
    slots between two consecutive multiples of a power of two. *)

Module Binary64.

Abbreviation fexp := (SpecFloat.fexp prec emax).

Definition bpow (e : Z) : R := powerRZ 2 e.

Definition F2R (m e : Z) : R := (IZR m * bpow e)%R.

Definition canonical (m e : Z) : Prop :=
  (0 < m)%Z /\ fexp (Zdigits2 m + e) = e.

(** A slot [[m * 2^e, (m+1) * 2^e)] whose lower end is a float in canonical
    form, or zero at the least exponent. *)
Definition tight (m e : Z) : Prop :=
  canonical m e \/ (m = 0%Z /\ e = (-1074)%Z).

Definition exact_loc (mrs : shr_record) : bool :=
  negb (shr_r mrs) && negb (shr_s mrs).

(** [v] lies in the slot of [mrs] at exponent [e], and the two extra bits say
    whether it sits exactly on the lower end. *)
Definition Inv (mrs : shr_record) (e : Z) (v : R) : Prop :=
  (0 <= shr_m mrs)%Z
  /\ (F2R (shr_m mrs) e <= v < F2R (shr_m mrs + 1) e)%R
  /\ (exact_loc mrs = true <-> v = F2R (shr_m mrs) e).

(** What [binary_round_aux] returns for the mantissa and exponent it ends on. *)
Definition pack (s : bool) (m e : Z) : spec_float :=
  match m with
  | Z0 => S754_zero s
  | Zpos p => if (e <=? emax - prec)%Z then S754_finite s p e else S754_infinity s
  | Zneg _ => S754_nan
  end.

(** [m * 2^e] is a rounding of [v]: a float in canonical form (or zero) with no
    float strictly between it and [v]. *)
Definition rounds_to (v : R) (m e : Z) : Prop :=
  (0 <= m)%Z
  /\ ((0 < m)%Z -> canonical m e)
  /\ (forall mF eF, canonical mF eF -> (F2R mF eF <= v)%R -> (F2R mF eF <= F2R m e)%R)
  /\ (forall mF eF, canonical mF eF -> (v <= F2R mF eF)%R -> (F2R m e <= F2R mF eF)%R).

(** Zero of either sign, a positive finite float or [+inf]. *)
Definition nonneg_sf (x : spec_float) : bool :=
  match x with
  | S754_zero _ => true
  | S754_finite false _ _ => true
  | S754_infinity false => true
  | _ => false
  end.

Definition nonneg (x : float) : bool := nonneg_sf (Prim2SF x).

(** Positive zero or a positive finite float. *)
Definition finite_nonneg (x : float) : bool :=
  match Prim2SF x with
  | S754_zero false => true
  | S754_finite false _ _ => true
  | _ => false
  end.

(** A positive finite float. *)
Definition positive_finite (x : float) : bool :=
  match Prim2SF x with
  | S754_finite false _ _ => true
  | _ => false
  end.

Definition rates_positive (p : Pricing) : bool :=
  positive_finite (input_per_mtok p) && positive_finite (output_per_mtok p)
  && positive_finite (cache_write_per_mtok p) && positive_finite (cache_read_per_mtok p).

Definition costs_nonneg (c : CostBreakdown) : bool :=
  nonneg (input_cost c) && nonneg (output_cost c)
  && nonneg (cache_write_cost c) && nonneg (cache_read_cost c).

(** Anything but NaN: the floats that [<] orders totally. *)
Definition ordered_sf (x : spec_float) : bool :=
  match x with
  | S754_nan => false
  | _ => true
  end.

Definition ordered (x : float) : bool := ordered_sf (Prim2SF x).

(** A zero or a finite float of either sign. *)
Definition finite_sf (x : spec_float) : bool :=
  match x with
  | S754_zero _ | S754_finite _ _ _ => true
  | _ => false
  end.

(** Every key of [l] is comparable and not negative. *)
Definition keys_nonneg {A} (key : A -> float) (l : list A) : Prop :=
  Forall (fun a => nonneg (key a) = true) l.

(** Every key of [l] is comparable. *)
Definition keys_ordered {A} (key : A -> float) (l : list A) : Prop :=
  Forall (fun a => ordered (key a) = true) l.

End Binary64.
Import Binary64.

(** ** Ranges of values *)

Module Ranges.

(** A rate between [2^-4] and [2^7], as every rate of the pricing table is. *)
Definition moderate (x : float) : Prop :=
  exists m e, Prim2SF x = S754_finite false m e /\ (-56 <= e <= -46)%Z.

(** A zero, or a positive double of at most [2^52 * 2^eB]. *)
Definition at_most (eB : Z) (x : float) : Prop :=
  (exists s, Prim2SF x = S754_zero s)
  \/ exists p e,
       Prim2SF x = S754_finite false p e
       /\ canonical (Zpos p) e /\ (F2R (Zpos p) e <= F2R (2 ^ 52) eB)%R.

(** Counters that fit a signed 64-bit integer. *)
Definition fits_int64 (t : TokenUsage) : Prop :=
  (Z.of_N (input_tokens t) < 2 ^ 63)%Z
  /\ (Z.of_N (output_tokens t) < 2 ^ 63)%Z
  /\ (Z.of_N (cache_creation_input_tokens t) < 2 ^ 63)%Z
  /\ (Z.of_N (cache_read_input_tokens t) < 2 ^ 63)%Z.

End Ranges.
Import Ranges.

(** ** More concrete inputs *)

Module Inputs.


End Inputs.

(** ** Decimal notation *)

Module Notation.

(** The decimal numeral of a non-negative integer, as [render_fixed] takes
    it. *)
Definition numeral (t : Z) : string :=
  NilZero.string_of_uint (N.to_uint (Z.to_N t)).

(** The digits that [render_fixed] cuts in two: the numeral, with zeros in
    front until it has more than [d] digits. *)
Definition padded (d : nat) (t : Z) : string :=
  (zeros (S d - String.length (numeral t)) ++ numeral t)%string.

(** The last [d] decimal digits of [r], leading zeros included. *)
Fixpoint fraction (d : nat) (r : Z) : string :=
  match d with
  | O => EmptyString
  | S d' => (fraction d' (r / 10) ++ str_int (r mod 10))%string
  end.

(** [t / 10^d] written with [d] decimals: the numeral of the whole part, a
    point, and the [d] digits of the rest. *)
Definition fixed_point (d : nat) (t : Z) : string :=
  (str_int (t / 10 ^ Z.of_nat d) ++ "." ++ fraction d (t mod 10 ^ Z.of_nat d))%string.

End Notation.
Import Notation.

(** ** Real values *)

Module Values.

(** The real number that a finite double stands for; [0] for the others. *)
Definition B2R (x : float) : R :=
  match Prim2SF x with
  | S754_finite s m e => F2R (cond_Zopp s (Zpos m)) e
  | _ => 0%R
  end.

(** The exact price of [n] tokens at [rate] dollars per million. *)
Definition exact_cost (n : N) (rate : float) : R :=
  (IZR (Z.of_N n) / 1000000 * B2R rate)%R.

End Values.
Import Values.

(** ** Rounding to nearest

    What [Binary64.rounds_to] leaves open: which of the two ends of its slot a
    value is rounded to. *)

Module Nearest.

(** The middle of the slot [[m * 2^e, (m+1) * 2^e)]. *)
Definition middle (m e : Z) : R := F2R (2 * m + 1) (e - 1).

(** [v] lies in the slot of [mrs] at exponent [e], where the round and
    sticky bits say: on the lower end, below the middle, on it, or above. *)
Definition Loc (mrs : shr_record) (e : Z) (v : R) : Prop :=
  (0 <= shr_m mrs)%Z
  /\ match shr_r mrs, shr_s mrs with
     | false, false => v = F2R (shr_m mrs) e
     | false, true => (F2R (shr_m mrs) e < v < middle (shr_m mrs) e)%R
     | true, false => v = middle (shr_m mrs) e
     | true, true => (middle (shr_m mrs) e < v < F2R (shr_m mrs + 1) e)%R
     end.

(** [r] is the end of the slot [[ms * 2^es, (ms+1) * 2^es)] nearest to [v],
    the one with the even mantissa when [v] is the middle. *)
Definition picks (v : R) (ms es : Z) (r : R) : Prop :=
  ((v < middle ms es)%R -> r = F2R ms es)
  /\ ((middle ms es < v)%R -> r = F2R (ms + 1) es)
  /\ (v = middle ms es -> r = F2R (if Z.even ms then ms else ms + 1) es).

(** [m * 2^e] is [v] rounded to nearest, ties to even. *)
Definition rounds_nearest (v : R) (m e : Z) : Prop :=
  rounds_to v m e
  /\ exists ms es,
       tight ms es
       /\ (F2R ms es <= v < F2R (ms + 1) es)%R
       /\ picks v ms es (F2R m e).

(** [+0], a positive double or [+inf]: what the costs and their sums are. *)
Definition unsigned_sf (x : spec_float) : Prop :=
  match x with
  | S754_zero false => True
  | S754_infinity false => True
  | S754_finite false m e => canonical (Zpos m) e /\ (e <= emax - prec)%Z
  | _ => False
  end.

Definition unsigned (x : float) : Prop := unsigned_sf (Prim2SF x).

Definition value_sf (x : spec_float) : R :=
  match x with
  | S754_finite _ m e => F2R (Zpos m) e
  | _ => 0%R
  end.

End Nearest.
Import Nearest.

(** ** The progress bar

    [DisplayFormatter.create_progress_bar] of [display/formatter.py], which
    draws [TokenSummary.cache_efficiency_pct]. *)

Module Display.

(** Exceptions of the conversions between [int] and [float] and of the
    construction of strings. *)
Inductive exn : Set :=
| ValueError
| OverflowError
| MemoryError.

Inductive outcome (A : Type) : Type :=
| Returns (a : A)
| Raises (e : exn).
Arguments Returns {A} a.
Arguments Raises {A} e.

Definition and_then {A B} (r : outcome A) (k : A -> outcome B) : outcome B :=
  match r with
  | Returns a => k a
  | Raises e => Raises e
  end.

(** The [int] operand of a float operator, converted as [PyLong_AsDouble]
    does: to the nearest double, ties to even, with [OverflowError] beyond the
    largest double. *)
Definition float_of_int (z : Z) : outcome float :=
  match binary_normalize prec emax z 0 false with
  | S754_infinity _ => Raises OverflowError
  | x => Returns (SF2Prim x)
  end.

(** [int(x)]: the integer part, towards zero; [ValueError] on NaN and
    [OverflowError] on an infinity. *)
Definition int_of_float (x : float) : outcome Z :=
  match Prim2SF x with
  | S754_nan => Raises ValueError
  | S754_infinity _ => Raises OverflowError
  | S754_zero _ => Returns 0%Z
  | S754_finite s m e =>
      Returns (cond_Zopp s
                 match e with
                 | Zneg k => (Zpos m / 2 ^ Zpos k)%Z
                 | _ => (Zpos m * 2 ^ e)%Z
                 end)
  end.

(** *** Strings

    A string is held in UTF-8; its length is the number of its characters,
    the bytes that do not continue one. *)

Definition is_continuation (c : ascii) : bool :=
  match c with
  | Ascii _ _ _ _ _ _ false true => true
  | _ => false
  end.

Fixpoint str_len (s : string) : Z :=
  match s with
  | EmptyString => 0%Z
  | String c s' => ((if is_continuation c then 0 else 1) + str_len s')%Z
  end.

Fixpoint repeat_string (s : string) (n : nat) : string :=
  match n with
  | O => EmptyString
  | S n' => (s ++ repeat_string s n')%string
  end.

(** [n] copies of [s], none when [n <= 0]. *)
Definition cells (s : string) (n : Z) : string := repeat_string s (Z.to_nat n).

(** The limits of a 64-bit build: [sys.maxsize], and the most characters of
    two bytes that [PyUnicode_New] takes, which leaves room for the header of
    the string object: 72 bytes up to CPython 3.11, 56 from 3.12 on. Below
    these limits the allocation itself is taken to succeed. *)
Definition PY_SSIZE_T_MAX : Z := (2 ^ 63 - 1)%Z.

Definition header_size (py : Py.version) : Z :=
  match py with
  | CPython_3_11 => 72%Z
  | CPython_3_12 => 56%Z
  end.

Definition max_str_len (py : Py.version) : Z :=
  ((PY_SSIZE_T_MAX - header_size py) / 2 - 1)%Z.

(** [s * n] on a string of characters of two bytes: the count must fit an
    index ([OverflowError]), a count below one gives the empty string, and
    the result must fit a string object ([OverflowError] when the length
    passes [sys.maxsize], [MemoryError] when [PyUnicode_New] refuses it). *)
Definition str_mul (py : Py.version) (s : string) (n : Z) : outcome string :=
  if ((n <? - 2 ^ 63) || (PY_SSIZE_T_MAX <? n))%Z then Raises OverflowError
  else if (n <? 1)%Z then Returns EmptyString
  else if (PY_SSIZE_T_MAX / n <? str_len s)%Z then Raises OverflowError
  else if (max_str_len py <? n * str_len s)%Z then Raises MemoryError
  else Returns (cells s n).

(** [a + b] on such strings: an empty operand gives the other one back;
    otherwise the length of the result is checked as for [s * n]. *)
Definition str_add (py : Py.version) (a b : string) : outcome string :=
  match a, b with
  | EmptyString, _ => Returns b
  | _, EmptyString => Returns a
  | _, _ =>
      if (PY_SSIZE_T_MAX - str_len b <? str_len a)%Z then Raises OverflowError
      else if (max_str_len py <? str_len a + str_len b)%Z then Raises MemoryError
      else Returns (a ++ b)%string
  end.

Definition create_progress_bar (py : Py.version) (percentage : float) (width : Z)
  : outcome string :=
  let ratio := (percentage / 100)%float in
  and_then (float_of_int width) (fun w =>
  and_then (int_of_float (ratio * w)) (fun filled =>
  let empty := (width - filled)%Z in
  and_then (str_mul py "█" filled) (fun full =>
  and_then (str_mul py "░" empty) (fun light =>
  str_add py full light)))).

End Display.

(** ** Facts about rounding *)

Module Binary64Facts.

Local Open Scope Z_scope.

(** *** Powers of two and real values *)

Lemma bpow_pos e : (0 < bpow e)%R.
Proof. apply powerRZ_lt; lra. Qed.

Lemma bpow_add a b : bpow (a + b) = (bpow a * bpow b)%R.
Proof. apply powerRZ_add; lra. Qed.

Lemma bpow_IZR n : 0 <= n -> bpow n = IZR (2 ^ n).
Proof.
  intros Hn. unfold bpow.
  destruct n as [|p|p]; [reflexivity| |lia].
  rewrite <- Zpower_pos_powerRZ. reflexivity.
Qed.

Lemma F2R_shift m e k : 0 <= k -> F2R m (e + k) = F2R (m * 2 ^ k) e.
Proof.
  intros Hk. unfold F2R. rewrite bpow_add, (bpow_IZR k Hk), mult_IZR. ring.
Qed.

Lemma F2R_le m1 m2 e : (F2R m1 e <= F2R m2 e)%R <-> m1 <= m2.
Proof.
  unfold F2R. pose proof (bpow_pos e) as Hp. split; intros H.
  - apply le_IZR. apply Rmult_le_reg_r with (bpow e); assumption.
  - apply Rmult_le_compat_r; [lra | now apply IZR_le].
Qed.

Lemma F2R_lt m1 m2 e : (F2R m1 e < F2R m2 e)%R <-> m1 < m2.
Proof.
  unfold F2R. pose proof (bpow_pos e) as Hp. split; intros H.
  - apply lt_IZR. apply Rmult_lt_reg_r with (bpow e); assumption.
  - apply Rmult_lt_compat_r; [lra | now apply IZR_lt].
Qed.

Lemma F2R_eq m1 m2 e : F2R m1 e = F2R m2 e <-> m1 = m2.
Proof.
  split; intros H; [|now subst].
  apply Z.le_antisymm; apply (F2R_le _ _ e); rewrite H; apply Rle_refl.
Qed.

Lemma bpow_le a b : a <= b -> (bpow a <= bpow b)%R.
Proof.
  intros H. replace b with (a + (b - a)) by lia.
  rewrite bpow_add, (bpow_IZR (b - a)) by lia.
  pose proof (bpow_pos a). assert (H1 : 0 < 2 ^ (b - a)) by (apply Z.pow_pos_nonneg; lia).
  assert (H2 : 1 <= 2 ^ (b - a)) by lia.
  apply IZR_le in H2. nra.
Qed.

(** *** The number of binary digits *)

Lemma digits2_pos_bounds p :
  2 ^ (Zpos (digits2_pos p) - 1) <= Zpos p < 2 ^ Zpos (digits2_pos p).
Proof.
  induction p as [p IH|p IH|]; cbn [digits2_pos].
  - rewrite Pos2Z.inj_succ. replace (Z.succ (Zpos (digits2_pos p)) - 1) with (Z.succ (Zpos (digits2_pos p) - 1)) by lia.
    rewrite !Z.pow_succ_r by lia. lia.
  - rewrite Pos2Z.inj_succ. replace (Z.succ (Zpos (digits2_pos p)) - 1) with (Z.succ (Zpos (digits2_pos p) - 1)) by lia.
    rewrite !Z.pow_succ_r by lia. lia.
  - cbn. lia.
Qed.

Lemma Zdigits2_bounds m : 0 < m -> 2 ^ (Zdigits2 m - 1) <= m < 2 ^ Zdigits2 m.
Proof. destruct m as [|p|p]; try lia. intros _. apply digits2_pos_bounds. Qed.

Lemma Zdigits2_pos m : 0 < m -> 0 < Zdigits2 m.
Proof. destruct m; simpl; lia. Qed.

Lemma Zdigits2_unique m k : 0 < k -> 2 ^ (k - 1) <= m < 2 ^ k -> Zdigits2 m = k.
Proof.
  intros Hk [Hl Hu].
  assert (Hm : 0 < m) by (pose proof (Z.pow_pos_nonneg 2 (k - 1)); lia).
  pose proof (Zdigits2_bounds m Hm) as [Hl' Hu'].
  pose proof (Zdigits2_pos m Hm) as Hd.
  destruct (Z.lt_trichotomy (Zdigits2 m) k) as [H|[H|H]]; [|assumption|].
  - assert (2 ^ Zdigits2 m <= 2 ^ (k - 1)) by (apply Z.pow_le_mono_r; lia). lia.
  - assert (2 ^ k <= 2 ^ (Zdigits2 m - 1)) by (apply Z.pow_le_mono_r; lia). lia.
Qed.

Lemma Zdigits2_ge m k : 0 <= k -> 2 ^ k <= m -> k < Zdigits2 m.
Proof.
  intros Hk H.
  assert (Hm : 0 < m) by (pose proof (Z.pow_pos_nonneg 2 k); lia).
  pose proof (Zdigits2_bounds m Hm) as [_ Hu].
  destruct (Z_lt_le_dec k (Zdigits2 m)); [assumption|].
  assert (2 ^ Zdigits2 m <= 2 ^ k) by (apply Z.pow_le_mono_r; lia). lia.
Qed.

Lemma Zdigits2_le m k : 0 <= k -> 0 <= m < 2 ^ k -> Zdigits2 m <= k.
Proof.
  intros Hk [H0 H].
  destruct (Z.eq_dec m 0) as [->|Hm]; [simpl; lia|].
  pose proof (Zdigits2_bounds m ltac:(lia)) as [Hl _].
  pose proof (Zdigits2_pos m ltac:(lia)).
  destruct (Z_le_gt_dec (Zdigits2 m) k); [assumption|].
  assert (2 ^ k <= 2 ^ (Zdigits2 m - 1)) by (apply Z.pow_le_mono_r; lia). lia.
Qed.

(** *** Right shifts with a round and a sticky bit *)

Lemma fexp_eq k : fexp k = Z.max (k - 53) (-1074).
Proof. reflexivity. Qed.

Lemma shr_1_spec mrs :
  0 <= shr_m mrs ->
  shr_m mrs = 2 * shr_m (shr_1 mrs) + Z.b2z (shr_r (shr_1 mrs))
  /\ 0 <= shr_m (shr_1 mrs)
  /\ shr_s (shr_1 mrs) = shr_r mrs || shr_s mrs.
Proof.
  destruct mrs as [m r s]. cbn [shr_m shr_r shr_s].
  destruct m as [|[p|p|]|p]; cbn; intros H; try lia; repeat split; lia.
Qed.

Lemma shr_m_shr_1 mrs : 0 <= shr_m mrs -> shr_m (shr_1 mrs) = shr_m mrs / 2.
Proof.
  intros H. destruct (shr_1_spec mrs H) as (E & H0 & _).
  apply Z.div_unique with (Z.b2z (shr_r (shr_1 mrs))); [|exact E].
  left. destruct (shr_r (shr_1 mrs)); cbn; lia.
Qed.

Lemma shr_m_iter p : forall mrs,
  0 <= shr_m mrs ->
  shr_m (SpecFloat.iter_pos shr_1 p mrs) = shr_m mrs / 2 ^ Zpos p.
Proof.
  induction p as [p IH|p IH|]; intros mrs H; cbn [SpecFloat.iter_pos].
  - assert (H1 : 0 <= shr_m (shr_1 mrs)) by (apply shr_1_spec; assumption).
    assert (H2 : 0 <= shr_m (SpecFloat.iter_pos shr_1 p (shr_1 mrs))).
    { rewrite IH by assumption. apply Z.div_pos; [assumption|]. apply Z.pow_pos_nonneg; lia. }
    rewrite IH, IH, shr_m_shr_1 by assumption.
    rewrite !Z.div_div by (try apply Z.pow_pos_nonneg; lia).
    f_equal. rewrite Pos2Z.inj_xI, <- Z.pow_add_r, <- Z.pow_succ_r by lia.
    f_equal. lia.
  - assert (H2 : 0 <= shr_m (SpecFloat.iter_pos shr_1 p mrs)).
    { rewrite IH by assumption. apply Z.div_pos; [assumption|]. apply Z.pow_pos_nonneg; lia. }
    rewrite IH, IH by assumption.
    rewrite !Z.div_div by (try apply Z.pow_pos_nonneg; lia).
    f_equal. rewrite Pos2Z.inj_xO, <- Z.pow_add_r by lia. f_equal. lia.
  - rewrite shr_m_shr_1 by assumption. reflexivity.
Qed.

Lemma Inv_shr_1 mrs e v : Inv mrs e v -> Inv (shr_1 mrs) (e + 1) v.
Proof.
  intros (H0 & [Hl Hu] & Hx).
  destruct (shr_1_spec mrs H0) as (E & H0' & Es).
  remember (shr_m (shr_1 mrs)) as m' eqn:Em'.
  assert (Hb : 0 <= Z.b2z (shr_r (shr_1 mrs)) <= 1) by (destruct (shr_r (shr_1 mrs)); cbn; lia).
  assert (Hl' : (F2R m' (e + 1) <= v)%R).
  { rewrite F2R_shift, Z.pow_1_r by lia. eapply Rle_trans; [|exact Hl]. apply F2R_le. lia. }
  assert (Hu' : (v < F2R (m' + 1) (e + 1))%R).
  { rewrite F2R_shift, Z.pow_1_r by lia. eapply Rlt_le_trans; [exact Hu|]. apply F2R_le. lia. }
  unfold Inv. rewrite <- Em'.
  split; [assumption|]. split; [split; assumption|].
  unfold exact_loc. rewrite Es. split.
  - intros Hex. apply andb_true_iff in Hex as [Hr Hs].
    apply negb_true_iff in Hr, Hs. apply orb_false_iff in Hs as [Hr0 Hs0].
    assert (Hv : v = F2R (shr_m mrs) e).
    { apply Hx. unfold exact_loc. now rewrite Hr0, Hs0. }
    rewrite Hv, F2R_shift, Z.pow_1_r by lia. apply F2R_eq. rewrite E.
    rewrite Hr. cbn [Z.b2z]. lia.
  - intros Hv. rewrite F2R_shift, Z.pow_1_r in Hv by lia.
    assert (Hm : shr_m mrs = m' * 2).
    { apply Z.le_antisymm; [|lia]. apply (F2R_le _ _ e). now rewrite <- Hv. }
    assert (Hr : shr_r (shr_1 mrs) = false).
    { destruct (shr_r (shr_1 mrs)); [cbn [Z.b2z] in E; lia|reflexivity]. }
    assert (Hex : exact_loc mrs = true) by (apply Hx; rewrite Hv, Hm; reflexivity).
    unfold exact_loc in Hex. apply andb_true_iff in Hex as [Hr0 Hs0].
    apply negb_true_iff in Hr0, Hs0. now rewrite Hr, Hr0, Hs0.
Qed.

Lemma Inv_iter p : forall mrs e v,
  Inv mrs e v -> Inv (SpecFloat.iter_pos shr_1 p mrs) (e + Zpos p) v.
Proof.
  induction p as [p IH|p IH|]; intros mrs e v H; cbn [SpecFloat.iter_pos].
  - replace (e + Zpos p~1) with (e + 1 + Zpos p + Zpos p) by lia.
    apply IH, IH, Inv_shr_1, H.
  - replace (e + Zpos p~0) with (e + Zpos p + Zpos p) by lia.
    apply IH, IH, H.
  - apply Inv_shr_1, H.
Qed.

Lemma shr_spec mrs e n v :
  Inv mrs e v ->
  Inv (fst (shr mrs e n)) (snd (shr mrs e n)) v
  /\ snd (shr mrs e n) = e + Z.max 0 n
  /\ shr_m (fst (shr mrs e n)) = shr_m mrs / 2 ^ Z.max 0 n.
Proof.
  intros H. destruct n as [|p|p]; cbn [shr fst snd].
  - rewrite Z.add_0_r, Z.div_1_r. auto.
  - replace (Z.max 0 (Zpos p)) with (Zpos p) by lia.
    split; [apply Inv_iter, H|]. split; [reflexivity|].
    apply shr_m_iter, H.
  - replace (Z.max 0 (Zneg p)) with 0 by lia.
    rewrite Z.add_0_r, Z.div_1_r. auto.
Qed.

Lemma shr_m_record_of_loc m l : shr_m (shr_record_of_loc m l) = m.
Proof. destruct l as [|[]]; reflexivity. Qed.

Lemma exact_record_of_loc m l :
  exact_loc (shr_record_of_loc m l) = true <-> l = loc_Exact.
Proof. destruct l as [|[]]; cbn; split; congruence. Qed.

Lemma loc_of_shr_record_exact mrs :
  loc_of_shr_record mrs = loc_Exact <-> exact_loc mrs = true.
Proof. destruct mrs as [m [] []]; cbn; split; congruence. Qed.

Lemma round_nearest_even_bounds m l :
  m <= round_nearest_even m l <= m + 1
  /\ (l = loc_Exact -> round_nearest_even m l = m).
Proof.
  destruct l as [|[]]; cbn [round_nearest_even]; try destruct (Z.even m); split; (lia || congruence || auto).
Qed.

(** *** Floats in canonical form and slots *)

Lemma canonical_mantissa_range m e : canonical m e -> 0 < m < 2 ^ 53 /\ -1074 <= e.
Proof.
  intros [Hm He]. rewrite fexp_eq in He.
  assert (Hd : Zdigits2 m <= 53) by lia.
  pose proof (Zdigits2_bounds m Hm) as [_ Hu].
  pose proof (Zdigits2_pos m Hm).
  assert (2 ^ Zdigits2 m <= 2 ^ 53) by (apply Z.pow_le_mono_r; lia).
  lia.
Qed.

Lemma canonical_normal m e : canonical m e -> -1074 < e -> 2 ^ 52 <= m.
Proof.
  intros [Hm He] Hlt. rewrite fexp_eq in He.
  assert (Hd : Zdigits2 m = 53) by lia.
  pose proof (Zdigits2_bounds m Hm) as [Hl _]. now rewrite Hd in Hl.
Qed.

Lemma F2R_le_exp m1 e1 m2 e2 :
  e1 <= e2 -> m1 <= m2 * 2 ^ (e2 - e1) -> (F2R m1 e1 <= F2R m2 e2)%R.
Proof.
  intros He H. replace e2 with (e1 + (e2 - e1)) by lia.
  rewrite F2R_shift by lia. now apply F2R_le.
Qed.

Lemma no_float_inside m e mF eF :
  tight m e -> canonical mF eF ->
  (F2R mF eF <= F2R m e)%R \/ (F2R (m + 1) e <= F2R mF eF)%R.
Proof.
  intros Ht HF.
  destruct (Z_le_gt_dec e eF) as [Hle|Hgt].
  - replace eF with (e + (eF - e)) by lia. rewrite F2R_shift by lia.
    destruct (Z_le_gt_dec (mF * 2 ^ (eF - e)) m) as [H|H].
    + left. now apply F2R_le.
    + right. apply F2R_le. lia.
  - left. destruct (canonical_mantissa_range _ _ HF) as [HmF HeF].
    destruct Ht as [Hc|[_ He]]; [|lia].
    pose proof (canonical_normal _ _ Hc ltac:(lia)) as Hm.
    apply F2R_le_exp; [lia|].
    assert (2 ^ 1 <= 2 ^ (e - eF)) by (apply Z.pow_le_mono_r; lia).
    rewrite Z.pow_1_r in *. nia.
Qed.

Lemma Zdigits2_div_pow2 m t :
  0 <= t -> 0 < m / 2 ^ t -> Zdigits2 (m / 2 ^ t) = Zdigits2 m - t.
Proof.
  intros Ht Hq.
  assert (Hp : 0 < 2 ^ t) by (apply Z.pow_pos_nonneg; lia).
  assert (Hm : 0 < m).
  { destruct (Z_lt_le_dec 0 m); [assumption|].
    assert (m / 2 ^ t <= 0) by (apply Z.div_le_upper_bound; lia). lia. }
  pose proof (Zdigits2_bounds m Hm) as [Hl Hu].
  assert (Hmt : 2 ^ t <= m).
  { destruct (Z_le_gt_dec (2 ^ t) m); [assumption|].
    rewrite Z.div_small in Hq by lia. lia. }
  assert (Hdt : t < Zdigits2 m) by (apply Zdigits2_ge; assumption).
  apply Zdigits2_unique; [lia|]. split.
  - apply Z.div_le_lower_bound; [assumption|].
    rewrite <- Z.pow_add_r by lia. replace (t + (Zdigits2 m - t - 1)) with (Zdigits2 m - 1) by lia.
    assumption.
  - apply Z.div_lt_upper_bound; [assumption|].
    rewrite <- Z.pow_add_r by lia. replace (t + (Zdigits2 m - t)) with (Zdigits2 m) by lia.
    assumption.
Qed.

(** The first shift of [binary_round_aux] lands on a tight slot. *)
Lemma shr_fexp_spec m e l v :
  0 <= m -> e <= fexp (Zdigits2 m + e) ->
  Inv (shr_record_of_loc m l) e v ->
  let mrs' := fst (shr_fexp prec emax m e l) in
  let e' := snd (shr_fexp prec emax m e l) in
  Inv mrs' e' v /\ tight (shr_m mrs') e'.
Proof.
  intros Hm HP HI. unfold shr_fexp.
  set (t := fexp (Zdigits2 m + e) - e).
  destruct (shr_spec _ e t v HI) as (HI' & He' & Hm').
  rewrite shr_m_record_of_loc in Hm'.
  cbv zeta. split; [exact HI'|].
  rewrite He', Hm'. replace (Z.max 0 t) with t by lia.
  assert (Hq : 0 <= m / 2 ^ t) by (apply Z.div_pos; [lia|apply Z.pow_pos_nonneg; lia]).
  replace (e + t) with (fexp (Zdigits2 m + e)) by (unfold t; lia).
  destruct (Z.eq_dec (m / 2 ^ t) 0) as [Hz|Hnz].
  - right. split; [assumption|].
    destruct (Z.eq_dec m 0) as [->|Hm0].
    + cbn [Zdigits2] in *. rewrite fexp_eq in *. lia.
    + assert (Hlt : m < 2 ^ t).
      { destruct (Z_lt_le_dec m (2 ^ t)); [assumption|].
        assert (1 <= m / 2 ^ t); [|lia].
        apply Z.div_le_lower_bound; [apply Z.pow_pos_nonneg; lia|lia]. }
      assert (Hd : Zdigits2 m <= t) by (apply Zdigits2_le; lia).
      unfold t in Hd. rewrite fexp_eq in *. lia.
  - left. split; [lia|].
    rewrite Zdigits2_div_pow2 by lia.
    unfold t. rewrite !fexp_eq. lia.
Qed.

(** Rounding the mantissa of a tight slot and renormalising it is exact. *)
Lemma renormalise_spec m' e' m1 :
  tight m' e' -> 0 <= m' -> m' <= m1 <= m' + 1 ->
  let mrs := fst (shr_fexp prec emax m1 e' loc_Exact) in
  let e2 := snd (shr_fexp prec emax m1 e' loc_Exact) in
  0 <= shr_m mrs
  /\ F2R (shr_m mrs) e2 = F2R m1 e'
  /\ (0 < shr_m mrs -> canonical (shr_m mrs) e2).
Proof.
  intros Ht Hm' Hm1. unfold shr_fexp.
  set (t := fexp (Zdigits2 m1 + e') - e').
  assert (HI : Inv (shr_record_of_loc m1 loc_Exact) e' (F2R m1 e')).
  { cbn. unfold Inv, exact_loc. cbn. split; [lia|]. split; [|tauto].
    split; [apply Rle_refl|]. apply F2R_lt. lia. }
  destruct (shr_spec _ e' t _ HI) as (HI' & He2 & Hm2).
  rewrite shr_m_record_of_loc in Hm2.
  cbv zeta. rewrite He2, Hm2. clear HI' He2 Hm2 HI.
  assert (Hcases : (t <= 0 /\ (0 < m1 -> fexp (Zdigits2 m1 + e') = e'))
                   \/ (t = 1 /\ exists k, 0 <= k /\ m1 = 2 ^ (k + 1) /\ fexp (k + 1 + e' + 1) = e' + 1)).
  { destruct Ht as [[Hpos Hc]|[Hz He]].
    - pose proof (Zdigits2_bounds m' Hpos) as [Hl Hu].
      pose proof (Zdigits2_pos m' Hpos) as Hd.
      destruct (Z.eq_dec m1 m') as [->|Hne].
      + left. unfold t. lia.
      + assert (m1 = m' + 1) by lia. subst m1.
        destruct (Z.eq_dec (m' + 1) (2 ^ Zdigits2 m')) as [Hpow|Hnp].
        * assert (Hd1 : Zdigits2 (m' + 1) = Zdigits2 m' + 1).
          { apply Zdigits2_unique; [lia|].
            replace (Zdigits2 m' + 1 - 1) with (Zdigits2 m') by lia.
            rewrite Z.pow_add_r, Z.pow_1_r by lia. lia. }
          unfold t. rewrite Hd1. rewrite fexp_eq in *.
          destruct (Z_le_gt_dec (Zdigits2 m' + 1 + e' - 53) (-1074)).
          -- left. lia.
          -- right. split; [lia|]. exists (Zdigits2 m' - 1).
             replace (Zdigits2 m' - 1 + 1) with (Zdigits2 m') by lia.
             split; [lia|]. split; [assumption|]. rewrite fexp_eq. lia.
        * assert (Hd1 : Zdigits2 (m' + 1) = Zdigits2 m').
          { apply Zdigits2_unique; lia. }
          left. unfold t. rewrite Hd1. lia.
    - subst m' e'. left. unfold t.
      assert (m1 = 0 \/ m1 = 1) as [->| ->] by lia; cbn; lia. }
  destruct Hcases as [[Ht0 Hc]|(Ht1 & k & Hk & Hm1k & Hc)].
  - replace (Z.max 0 t) with 0 by lia. rewrite Z.pow_0_r, Z.div_1_r, Z.add_0_r.
    split; [lia|]. split; [reflexivity|]. intros Hp. split; auto.
  - rewrite Ht1. replace (Z.max 0 1) with 1 by lia. rewrite Z.pow_1_r.
    assert (Hdiv : m1 / 2 = 2 ^ k).
    { rewrite Hm1k, Z.pow_add_r, Z.pow_1_r by lia. apply Z.div_mul. lia. }
    assert (Hpk : 0 < 2 ^ k) by (apply Z.pow_pos_nonneg; lia).
    rewrite Hdiv. split; [lia|]. split.
    + rewrite F2R_shift, Z.pow_1_r by lia. apply F2R_eq.
      rewrite Hm1k, Z.pow_add_r, Z.pow_1_r by lia. reflexivity.
    + intros _. split; [assumption|].
      assert (Hd : Zdigits2 (2 ^ k) = k + 1).
      { apply Zdigits2_unique; [lia|]. replace (k + 1 - 1) with k by lia.
        rewrite Z.pow_add_r, Z.pow_1_r by lia. lia. }
      rewrite Hd. replace (k + 1 + (e' + 1)) with (k + 1 + e' + 1) by lia. exact Hc.
Qed.

(** *** [binary_round_aux] *)

Lemma binary_round_aux_spec s m e l v :
  0 <= m -> e <= fexp (Zdigits2 m + e) ->
  Inv (shr_record_of_loc m l) e v ->
  exists m2 e2,
    binary_round_aux prec emax s m e l = pack s m2 e2 /\ rounds_to v m2 e2.
Proof.
  intros Hm HP HI.
  pose proof (shr_fexp_spec m e l v Hm HP HI) as H1. cbv zeta in H1.
  unfold binary_round_aux.
  destruct (shr_fexp prec emax m e l) as [mrs' e'] eqn:E1. cbn [fst snd] in H1.
  destruct H1 as [HI' Ht].
  destruct HI' as (Hm' & [Hl Hu] & Hx).
  set (m' := shr_m mrs') in *.
  set (m1 := round_nearest_even m' (loc_of_shr_record mrs')).
  destruct (round_nearest_even_bounds m' (loc_of_shr_record mrs')) as [Hm1 Hex].
  fold m1 in Hm1, Hex.
  pose proof (renormalise_spec m' e' m1 Ht Hm' Hm1) as H2. cbv zeta in H2.
  destruct (shr_fexp prec emax m1 e' loc_Exact) as [mrs'' e''] eqn:E2. cbn [fst snd] in H2.
  destruct H2 as (Hm2 & Hv2 & Hc2).
  exists (shr_m mrs''), e''. split; [reflexivity|].
  split; [assumption|]. split; [assumption|]. split.
  - intros mF eF HF Hle. rewrite Hv2.
    apply Rle_trans with (F2R m' e'); [|apply F2R_le; lia].
    destruct (no_float_inside m' e' mF eF Ht HF) as [H|H]; [assumption|lra].
  - intros mF eF HF Hle. rewrite Hv2.
    destruct (exact_loc mrs') eqn:Hloc.
    + assert (Hv : v = F2R m' e') by (apply Hx; reflexivity).
      rewrite Hex by (apply loc_of_shr_record_exact; assumption).
      lra.
    + assert (Hv : v <> F2R m' e').
      { intros Hv. apply Hx in Hv. congruence. }
      apply Rle_trans with (F2R (m' + 1) e'); [apply F2R_le; lia|].
      destruct (no_float_inside m' e' mF eF Ht HF) as [H|H]; [lra|assumption].
Qed.

(** The shape of a rounded result, whatever the alignment of the input. *)
Lemma binary_round_aux_sign s m e l :
  0 <= m ->
  exists m2 e2, 0 <= m2 /\ binary_round_aux prec emax s m e l = pack s m2 e2.
Proof.
  intros Hm. unfold binary_round_aux, shr_fexp.
  assert (Hshr : forall mrs e n, 0 <= shr_m mrs -> 0 <= shr_m (fst (shr mrs e n))).
  { intros mrs e0 n H. destruct n as [|p|p]; cbn [shr fst]; try assumption.
    rewrite shr_m_iter by assumption.
    apply Z.div_pos; [assumption|apply Z.pow_pos_nonneg; lia]. }
  set (t := fexp (Zdigits2 m + e) - e).
  pose proof (Hshr (shr_record_of_loc m l) e t) as H1.
  rewrite shr_m_record_of_loc in H1. specialize (H1 Hm).
  destruct (shr (shr_record_of_loc m l) e t) as [mrs' e'] eqn:E1. cbn [fst] in H1.
  set (m1 := round_nearest_even (shr_m mrs') (loc_of_shr_record mrs')).
  assert (Hm1 : 0 <= m1).
  { pose proof (round_nearest_even_bounds (shr_m mrs') (loc_of_shr_record mrs')) as [? _].
    fold m1 in H. lia. }
  set (t2 := fexp (Zdigits2 m1 + e') - e').
  pose proof (Hshr (shr_record_of_loc m1 loc_Exact) e' t2) as H2.
  rewrite shr_m_record_of_loc in H2. specialize (H2 Hm1).
  destruct (shr (shr_record_of_loc m1 loc_Exact) e' t2) as [mrs'' e''] eqn:E2. cbn [fst] in H2.
  exists (shr_m mrs''), e''. split; [assumption|reflexivity].
Qed.

(** *** Multiplication and division *)

Lemma Inv_exact m e : 0 <= m -> Inv (shr_record_of_loc m loc_Exact) e (F2R m e).
Proof.
  intros Hm. unfold Inv, exact_loc. cbn. split; [assumption|]. split; [|tauto].
  split; [apply Rle_refl|]. apply F2R_lt. lia.
Qed.

Lemma F2R_mul m1 e1 m2 e2 : F2R (m1 * m2) (e1 + e2) = (F2R m1 e1 * F2R m2 e2)%R.
Proof. unfold F2R. rewrite mult_IZR, bpow_add. ring. Qed.

Lemma F2R_pos m e : 0 < m -> (0 < F2R m e)%R.
Proof.
  intros H. unfold F2R. apply Rmult_lt_0_compat; [now apply IZR_lt|apply bpow_pos].
Qed.

Lemma F2R_0 e : F2R 0 e = 0%R.
Proof. unfold F2R. ring. Qed.

Lemma Zdigits2_mul m1 m2 :
  0 < m1 -> 0 < m2 -> Zdigits2 m1 + Zdigits2 m2 - 1 <= Zdigits2 (m1 * m2).
Proof.
  intros H1 H2.
  pose proof (Zdigits2_bounds m1 H1) as [L1 _].
  pose proof (Zdigits2_bounds m2 H2) as [L2 _].
  pose proof (Zdigits2_pos m1 H1). pose proof (Zdigits2_pos m2 H2).
  assert (H3 : 2 ^ (Zdigits2 m1 + Zdigits2 m2 - 2) <= m1 * m2).
  { replace (Zdigits2 m1 + Zdigits2 m2 - 2) with ((Zdigits2 m1 - 1) + (Zdigits2 m2 - 1)) by lia.
    rewrite Z.pow_add_r by lia.
    assert (0 < 2 ^ (Zdigits2 m1 - 1)) by (apply Z.pow_pos_nonneg; lia).
    assert (0 < 2 ^ (Zdigits2 m2 - 1)) by (apply Z.pow_pos_nonneg; lia).
    nia. }
  apply Zdigits2_ge in H3; lia.
Qed.

Lemma mul_aligned mx ex my ey :
  canonical mx ex -> canonical my ey ->
  ex + ey <= fexp (Zdigits2 (mx * my) + (ex + ey)).
Proof.
  intros [Hx Cx] [Hy Cy].
  pose proof (Zdigits2_mul mx my Hx Hy).
  pose proof (Zdigits2_pos mx Hx). pose proof (Zdigits2_pos my Hy).
  rewrite fexp_eq in *. lia.
Qed.

Lemma SFmul_finite_spec sx mx ex sy my ey :
  canonical (Zpos mx) ex -> canonical (Zpos my) ey ->
  exists m2 e2,
    SFmul prec emax (S754_finite sx mx ex) (S754_finite sy my ey) = pack (xorb sx sy) m2 e2
    /\ rounds_to (F2R (Zpos mx) ex * F2R (Zpos my) ey) m2 e2.
Proof.
  intros Hx Hy. cbn [SFmul]. rewrite <- F2R_mul.
  apply binary_round_aux_spec.
  - lia.
  - rewrite Pos2Z.inj_mul. now apply mul_aligned.
  - rewrite Pos2Z.inj_mul. apply Inv_exact. lia.
Qed.

Lemma new_location_exact n k : new_location n k = loc_Exact <-> k = 0.
Proof.
  unfold new_location, new_location_even, new_location_odd.
  destruct (Z.even n); destruct (Z.eqb_spec k 0); split; congruence.
Qed.

Lemma SFdiv_core_spec m1 e1 m2 e2 :
  0 < m1 -> 0 < m2 ->
  let '(q, e', l) := SFdiv_core_binary prec emax m1 e1 m2 e2 in
  0 <= q
  /\ e' <= fexp (Zdigits2 q + e')
  /\ Inv (shr_record_of_loc q l) e' (F2R m1 e1 / F2R m2 e2).
Proof.
  intros H1 H2. unfold SFdiv_core_binary.
  set (e' := Z.min (fexp (Zdigits2 m1 + e1 - (Zdigits2 m2 + e2))) (e1 - e2)).
  set (s := e1 - e2 - e').
  assert (Hs : 0 <= s) by (unfold s, e'; lia).
  set (m' := match s with Z.pos _ => Z.shiftl m1 s | 0 => m1 | Z.neg _ => 0 end).
  assert (Hm' : m' = m1 * 2 ^ s).
  { unfold m'. destruct s as [|p|p]; [rewrite Z.pow_0_r; lia| |lia].
    apply Z.shiftl_mul_pow2. lia. }
  pose proof (Z_div_mod m' m2 ltac:(lia)) as Hdm.
  destruct (Z.div_eucl m' m2) as [q r]. destruct Hdm as [Hq Hr].
  assert (Hp : 0 < 2 ^ s) by (apply Z.pow_pos_nonneg; lia).
  assert (Hq0 : 0 <= q) by nia.
  split; [assumption|]. split.
  - (* alignment *)
    destruct (Z_le_gt_dec e' (-1074)) as [Hle|Hgt]; [rewrite fexp_eq; lia|].
    pose proof (Zdigits2_bounds m1 H1) as [L1 U1].
    pose proof (Zdigits2_bounds m2 H2) as [L2 U2].
    pose proof (Zdigits2_pos m1 H1) as D1. pose proof (Zdigits2_pos m2 H2) as D2.
    set (d1 := Zdigits2 m1) in *. set (d2 := Zdigits2 m2) in *.
    assert (Hk : 1 <= d1 + s - d2).
    { unfold d1, d2, s in *. unfold e' in *. rewrite fexp_eq in *. lia. }
    assert (Hq2 : 2 ^ (d1 + s - d2 - 1) <= q).
    { assert (Hlow : 2 ^ (d1 + s - d2 - 1) * 2 ^ d2 <= m').
      { rewrite <- Z.pow_add_r by lia. rewrite Hm'.
        replace (d1 + s - d2 - 1 + d2) with ((d1 - 1) + s) by lia.
        rewrite Z.pow_add_r by lia. nia. }
      assert (Hpk : 0 < 2 ^ (d1 + s - d2 - 1)) by (apply Z.pow_pos_nonneg; lia).
      nia. }
    apply Zdigits2_ge in Hq2; [|lia].
    unfold d1, d2, s in *. unfold e' in *. rewrite !fexp_eq in *. lia.
  - (* the slot *)
    assert (Hv : (F2R m1 e1 / F2R m2 e2 = (IZR q + IZR r / IZR m2) * bpow e')%R).
    { replace e1 with ((e2 + e') + s) by (unfold s; lia).
      rewrite F2R_shift by lia. rewrite <- Hm', Hq. unfold F2R.
      rewrite bpow_add, plus_IZR, mult_IZR.
      pose proof (bpow_pos e2). pose proof (bpow_pos e').
      assert (0 < IZR m2)%R by (apply IZR_lt; lia).
      field. split; lra. }
    rewrite Hv.
    assert (HM2 : (0 < IZR m2)%R) by (apply IZR_lt; lia).
    assert (Hr0 : (0 <= IZR r / IZR m2)%R).
    { apply Rmult_le_pos; [apply IZR_le; lia|]. left. now apply Rinv_0_lt_compat. }
    assert (Hr1 : (IZR r / IZR m2 < 1)%R).
    { apply Rmult_lt_reg_r with (IZR m2); [assumption|].
      unfold Rdiv. rewrite Rmult_assoc, Rinv_l, Rmult_1_r, Rmult_1_l by lra.
      apply IZR_lt. lia. }
    pose proof (bpow_pos e') as HB.
    unfold Inv. rewrite shr_m_record_of_loc. split; [assumption|].
    unfold F2R. rewrite plus_IZR. split; [split; nra|].
    rewrite exact_record_of_loc, new_location_exact. split.
    + intros ->. unfold Rdiv. rewrite Rmult_0_l, Rplus_0_r. reflexivity.
    + intros E. assert (E0 : (IZR r / IZR m2 = 0)%R) by nra.
      apply eq_IZR. unfold Rdiv in E0.
      apply Rmult_integral in E0 as [E0|E0]; [assumption|].
      pose proof (Rinv_0_lt_compat _ HM2). lra.
Qed.

Lemma SFdiv_finite_spec sx mx ex sy my ey :
  exists m2 e2,
    SFdiv prec emax (S754_finite sx mx ex) (S754_finite sy my ey) = pack (xorb sx sy) m2 e2
    /\ rounds_to (F2R (Zpos mx) ex / F2R (Zpos my) ey) m2 e2.
Proof.
  cbn [SFdiv].
  pose proof (SFdiv_core_spec (Zpos mx) ex (Zpos my) ey ltac:(lia) ltac:(lia)) as H.
  destruct (SFdiv_core_binary prec emax (Zpos mx) ex (Zpos my) ey) as [[q e'] l].
  destruct H as (Hq & HP & HI).
  now apply binary_round_aux_spec.
Qed.

(** *** Signs *)

Lemma pack_nonneg m e : 0 <= m -> nonneg_sf (pack false m e) = true.
Proof.
  intros H. destruct m as [|p|p]; cbn; [reflexivity| |lia].
  destruct (e <=? 971); reflexivity.
Qed.

Lemma binary_round_aux_nonneg m e l :
  0 <= m -> nonneg_sf (binary_round_aux prec emax false m e l) = true.
Proof.
  intros H. destruct (binary_round_aux_sign false m e l H) as (m2 & e2 & H2 & ->).
  now apply pack_nonneg.
Qed.

Lemma binary_normalize_nonneg m e :
  0 <= m -> nonneg_sf (binary_normalize prec emax m e false) = true.
Proof.
  intros H. destruct m as [|p|p]; cbn [binary_normalize]; [reflexivity| |lia].
  unfold binary_round. destruct (shl_align _ _ _) as [mz ez].
  apply binary_round_aux_nonneg. lia.
Qed.

Lemma pack_ordered s m e : 0 <= m -> ordered_sf (pack s m e) = true.
Proof.
  intros H. destruct m as [|p|p]; cbn [pack]; [reflexivity| |lia].
  now destruct (e <=? emax - prec).
Qed.

Lemma binary_normalize_ordered m e sz :
  ordered_sf (binary_normalize prec emax m e sz) = true.
Proof.
  destruct m as [|p|p]; cbn [binary_normalize]; [reflexivity| |];
  unfold binary_round; destruct (shl_align _ _ _) as [mz ez];
  match goal with
  | |- context [binary_round_aux _ _ ?s _ _ _] =>
      destruct (binary_round_aux_sign s (Zpos mz) ez loc_Exact ltac:(lia))
        as (m2 & e2 & H2 & ->)
  end; now apply pack_ordered.
Qed.

(** Adding a finite float to anything but NaN does not give NaN. *)
Lemma SFadd_ordered x y :
  ordered_sf x = true -> finite_sf y = true ->
  ordered_sf (SFadd prec emax x y) = true.
Proof.
  destruct x as [sx|sx| |sx mx ex]; try discriminate;
  destruct y as [sy|sy| |sy my ey]; try discriminate; intros _ _;
  try reflexivity.
  - now destruct sx, sy.
  - cbn [SFadd]. apply binary_normalize_ordered.
Qed.

Lemma shl_align_value mx ex ez :
  ez <= ex -> Zpos (fst (shl_align mx ex ez)) = Zpos mx * 2 ^ (ex - ez).
Proof.
  intros H. unfold shl_align.
  destruct (ez - ex) as [|d|d] eqn:E; try lia; cbn [fst].
  - replace (ex - ez) with 0 by lia. lia.
  - replace (ex - ez) with (Zpos d) by lia.
    change (Pos.iter xO mx d) with (shift_pos d mx).
    rewrite shift_pos_correct, Z.pow_pos_fold. lia.
Qed.

Lemma SFadd_nonneg x y :
  nonneg_sf x = true -> nonneg_sf y = true -> nonneg_sf (SFadd prec emax x y) = true.
Proof.
  destruct x as [sx|[]| |[] mx ex]; try discriminate;
  destruct y as [sy|[]| |[] my ey]; try discriminate; intros _ _; try reflexivity.
  - destruct sx, sy; reflexivity.
  - cbn [SFadd cond_Zopp]. apply binary_normalize_nonneg. lia.
Qed.

Lemma SFmul_nonneg x my ey :
  nonneg_sf x = true ->
  nonneg_sf (SFmul prec emax x (S754_finite false my ey)) = true.
Proof.
  destruct x as [sx|[]| |[] mx ex]; try discriminate; intros _; try reflexivity.
  cbn [SFmul xorb]. apply binary_round_aux_nonneg. lia.
Qed.

Lemma SFdiv_nonneg x my ey :
  nonneg_sf x = true ->
  nonneg_sf (SFdiv prec emax x (S754_finite false my ey)) = true.
Proof.
  destruct x as [sx|[]| |[] mx ex]; try discriminate; intros _; try reflexivity.
  destruct (SFdiv_finite_spec false mx ex false my ey) as (m2 & e2 & -> & H & _).
  now apply pack_nonneg.
Qed.

Lemma SFsub_nonneg mx ex my ey :
  (F2R (Zpos my) ey <= F2R (Zpos mx) ex)%R ->
  nonneg_sf (SFsub prec emax (S754_finite false mx ex) (S754_finite false my ey)) = true.
Proof.
  intros H. cbn [SFsub cond_Zopp]. apply binary_normalize_nonneg.
  set (ez := Z.min ex ey).
  rewrite !shl_align_value by (unfold ez; lia).
  replace ex with (ez + (ex - ez)) in H at 1 by lia.
  replace ey with (ez + (ey - ez)) in H at 1 by lia.
  rewrite !F2R_shift in H by (unfold ez; lia).
  apply F2R_le in H. lia.
Qed.

(** *** The order of floats *)

Ltac order_cases :=
  repeat match goal with
  | |- context [Z.compare ?a ?b] => destruct (Z.compare_spec a b); subst
  | |- context [Pos.compare_cont Eq ?a ?b] =>
      change (Pos.compare_cont Eq a b) with (Pos.compare a b);
      destruct (Pos.compare_spec a b); subst
  | H : context [Z.compare ?a ?b] |- _ => destruct (Z.compare_spec a b); subst
  | H : context [Pos.compare_cont Eq ?a ?b] |- _ =>
      change (Pos.compare_cont Eq a b) with (Pos.compare a b) in H;
      destruct (Pos.compare_spec a b); subst
  end; cbn [CompOpp] in *; try reflexivity; try discriminate; try lia.

Lemma nonneg_ordered_sf x : nonneg_sf x = true -> ordered_sf x = true.
Proof. destruct x as [sx|[]| |[] mx ex]; easy. Qed.

Lemma SFltb_leb x y : SFltb x y = true -> SFleb x y = true.
Proof.
  unfold SFltb, SFleb. destruct (SFcompare x y) as [[]|]; congruence.
Qed.

Lemma SFltb_false_leb x y :
  ordered_sf x = true -> ordered_sf y = true ->
  SFltb x y = false -> SFleb y x = true.
Proof.
  destruct x as [sx|[]| |[] mx ex]; try discriminate;
  destruct y as [sy|[]| |[] my ey]; try discriminate; intros _ _;
  unfold SFltb, SFleb; cbn [SFcompare]; try reflexivity; try discriminate;
  order_cases.
Qed.

Lemma SFleb_trans x y z :
  ordered_sf x = true -> ordered_sf y = true -> ordered_sf z = true ->
  SFleb x y = true -> SFleb y z = true -> SFleb x z = true.
Proof.
  destruct x as [sx|[]| |[] mx ex]; try discriminate;
  destruct y as [sy|[]| |[] my ey]; try discriminate;
  destruct z as [sz|[]| |[] mz ez]; try discriminate; intros _ _ _;
  unfold SFleb; cbn [SFcompare]; try reflexivity; try discriminate;
  order_cases.
Qed.


(** *** Primitive floats *)

Lemma Prim2SF_canonical x s m e :
  Prim2SF x = S754_finite s m e -> canonical (Zpos m) e /\ e <= 971.
Proof.
  intros H. pose proof (Prim2SF_valid x) as V. rewrite H in V.
  unfold SpecFloat.valid_binary, bounded, canonical_mantissa in V.
  apply andb_true_iff in V as [V1 V2].
  apply Z.eqb_eq in V1. apply Z.leb_le in V2.
  split; [split; [lia|exact V1]|exact V2].
Qed.

Lemma leb_zero_nonneg x : (0 <=? x)%float = nonneg x.
Proof.
  rewrite leb_spec. change (Prim2SF 0) with (S754_zero false). unfold nonneg.
  destruct (Prim2SF x) as [s|[]| |[] m e]; reflexivity.
Qed.

Lemma is_finite_not_infinity x s : is_finite x = true -> Prim2SF x <> S754_infinity s.
Proof.
  unfold is_finite, is_infinity. intros H E.
  rewrite eqb_spec, abs_spec, E in H.
  change (Prim2SF infinity) with (S754_infinity false) in H.
  cbn in H. rewrite orb_true_r in H. discriminate.
Qed.

Lemma rounds_to_pos v m e mF eF :
  rounds_to v m e -> canonical mF eF -> (F2R mF eF <= v)%R ->
  exists p, m = Zpos p /\ canonical (Zpos p) e /\ (F2R mF eF <= F2R (Zpos p) e)%R.
Proof.
  intros (H0 & Hc & Hl & _) HF Hv.
  specialize (Hl mF eF HF Hv).
  destruct m as [|p|p]; [|eauto|lia].
  - rewrite F2R_0 in Hl. pose proof (F2R_pos mF eF (proj1 HF)). lra.
  - exists p. split; [reflexivity|]. split; [apply Hc; lia|assumption].
Qed.

(** [(x / 0.30) * 3.00 - x] on a non-negative finite [x]. *)
Lemma savings_nonneg_sf x :
  SpecFloat.valid_binary prec emax x = true ->
  nonneg_sf x = true -> x <> S754_infinity false ->
  nonneg_sf
    (SFsub prec emax
       (SFmul prec emax
          (SFdiv prec emax x (S754_finite false 5404319552844595 (-54)))
          (S754_finite false 6755399441055744 (-51)))
       x) = true.
Proof.
  intros V N I.
  destruct x as [sx|[]| |[] mx ex]; try discriminate; try congruence.
  - destruct sx; reflexivity.
  - assert (Hx : canonical (Zpos mx) ex).
    { unfold SpecFloat.valid_binary, bounded, canonical_mantissa in V.
      apply andb_true_iff in V as [V1 _]. apply Z.eqb_eq in V1. split; [lia|exact V1]. }
    pose proof (F2R_pos (Zpos mx) ex ltac:(lia)) as Hxpos.
    set (c := F2R (Zpos 5404319552844595) (-54)).
    set (t := F2R (Zpos 6755399441055744) (-51)).
    assert (Hc : (0 < c <= 1)%R).
    { split; [apply F2R_pos; lia|].
      replace 1%R with (F2R 1 0) by (unfold F2R, bpow; cbn; lra).
      apply F2R_le_exp; [lia|]. vm_compute. discriminate. }
    assert (Ht : (1 <= t)%R).
    { replace 1%R with (F2R 1 0) by (unfold F2R, bpow; cbn; lra).
      unfold t. replace 0 with (-51 + 51) by lia. rewrite F2R_shift by lia.
      apply F2R_le. vm_compute. discriminate. }
    destruct (SFdiv_finite_spec false mx ex false 5404319552844595 (-54))
      as (m2 & e2 & -> & Hr2).
    fold c in Hr2.
    assert (Hv2 : (F2R (Zpos mx) ex <= F2R (Zpos mx) ex / c)%R).
    { assert (E : (F2R (Zpos mx) ex / c * c = F2R (Zpos mx) ex)%R) by (field; lra).
      assert (0 <= F2R (Zpos mx) ex / c)%R by (apply Rmult_le_pos; [lra|]; left; apply Rinv_0_lt_compat; lra).
      nra. }
    destruct (rounds_to_pos _ _ _ _ _ Hr2 Hx Hv2) as (p2 & -> & Hc2 & Hle2).
    cbn [pack xorb]. destruct (e2 <=? emax - prec); [|reflexivity].
    destruct (SFmul_finite_spec false p2 e2 false 6755399441055744 (-51) Hc2)
      as (m3 & e3 & -> & Hr3).
    { split; [lia|reflexivity]. }
    fold t in Hr3.
    assert (Hv3 : (F2R (Zpos mx) ex <= F2R (Zpos p2) e2 * t)%R).
    { pose proof (F2R_pos (Zpos p2) e2 ltac:(lia)). nra. }
    destruct (rounds_to_pos _ _ _ _ _ Hr3 Hx Hv3) as (p3 & -> & Hc3 & Hle3).
    cbn [pack xorb]. destruct (e3 <=? emax - prec); [|reflexivity].
    now apply SFsub_nonneg.
Qed.

Lemma SFeqb_refl x : ordered_sf x = true -> SFeqb x x = true.
Proof.
  destruct x as [sx|[]| |[] mx ex]; try discriminate; intros _;
  unfold SFeqb; cbn [SFcompare]; try reflexivity;
  rewrite Z.compare_refl; change (Pos.compare_cont Eq mx mx) with (Pos.compare mx mx);
  now rewrite Pos.compare_refl.
Qed.


(** *** [binary_round] and finiteness *)

Lemma Zdigits2_mul_pow2 m d :
  (0 < m)%Z -> (0 <= d)%Z -> Zdigits2 (m * 2 ^ d) = Zdigits2 m + d.
Proof.
  intros Hm Hd. pose proof (Zdigits2_bounds m Hm) as [L U].
  pose proof (Zdigits2_pos m Hm) as D.
  assert (Hp : 0 < 2 ^ d) by (apply Z.pow_pos_nonneg; lia).
  apply Zdigits2_unique; [lia|].
  replace (Zdigits2 m + d - 1) with ((Zdigits2 m - 1) + d) by lia.
  rewrite !Z.pow_add_r by lia. nia.
Qed.

Lemma binary_round_spec s m e :
  exists m2 e2,
    binary_round prec emax s m e = pack s m2 e2
    /\ rounds_to (F2R (Zpos m) e) m2 e2.
Proof.
  unfold binary_round.
  set (e' := fexp (Z.pos (digits2_pos m) + e)).
  destruct (Z_le_gt_dec e e') as [Hle|Hgt].
  - assert (E : shl_align m e e' = (m, e)).
    { unfold shl_align. destruct (e' - e) eqn:E; try reflexivity. lia. }
    rewrite E. apply binary_round_aux_spec; [lia|exact Hle|apply Inv_exact; lia].
  - pose proof (shl_align_value m e e' ltac:(lia)) as Hv.
    assert (Hs : snd (shl_align m e e') = e').
    { unfold shl_align. destruct (e' - e) eqn:E; try lia. reflexivity. }
    destruct (shl_align m e e') as [mz ez]. cbn [fst snd] in *. subst ez.
    assert (Hval : F2R (Z.pos m) e = F2R (Z.pos mz) e').
    { replace e with (e' + (e - e')) by lia. rewrite F2R_shift by lia. now rewrite Hv. }
    rewrite Hval. apply binary_round_aux_spec; [lia| |apply Inv_exact; lia].
    rewrite Hv, Zdigits2_mul_pow2 by lia.
    replace (Zdigits2 (Z.pos m) + (e - e') + e') with (Z.pos (digits2_pos m) + e)
      by (cbn [Zdigits2]; lia).
    fold e'. lia.
Qed.

(** A rounding of a value that is at most some finite float is finite. *)
Lemma rounds_to_finite s v m2 e2 mF eF :
  rounds_to v m2 e2 -> canonical mF eF -> eF <= 971 -> (v <= F2R mF eF)%R ->
  pack s m2 e2 = S754_zero s
  \/ exists p, m2 = Zpos p /\ pack s m2 e2 = S754_finite s p e2
               /\ canonical (Zpos p) e2 /\ e2 <= 971.
Proof.
  intros (H0 & Hc & _ & Hu) HF HeF Hv.
  destruct m2 as [|p|p]; [now left| |lia]. right.
  specialize (Hc ltac:(lia)). specialize (Hu _ _ HF Hv).
  assert (Hmax : (F2R mF eF <= F2R (2 ^ 53 - 1) 971)%R).
  { destruct (canonical_mantissa_range _ _ HF) as [HmF _].
    apply F2R_le_exp; [lia|].
    assert (1 <= 2 ^ (971 - eF)).
    { pose proof (Z.pow_pos_nonneg 2 (971 - eF)). lia. }
    nia. }
  assert (He2 : e2 <= 971).
  { destruct (Z_le_gt_dec e2 971) as [|Hgt]; [assumption|exfalso].
    pose proof (canonical_normal _ _ Hc ltac:(lia)) as Hm.
    assert (H : (F2R (2 ^ 53) 971 <= F2R (Zpos p) e2)%R).
    { apply F2R_le_exp; [lia|].
      assert (2 ^ 1 <= 2 ^ (e2 - 971)) by (apply Z.pow_le_mono_r; lia).
      rewrite Z.pow_1_r in *. change (2 ^ 53) with (2 ^ 52 * 2). nia. }
    assert (H' : (F2R (2 ^ 53 - 1) 971 < F2R (2 ^ 53) 971)%R) by (apply F2R_lt; lia).
    lra. }
  exists p. split; [reflexivity|]. split; [|split; assumption].
  cbn [pack]. change (emax - prec) with 971.
  destruct (Z.leb_spec e2 971); [reflexivity|lia].
Qed.

End Binary64Facts.
Import Binary64Facts.

(** ** Facts about the run time *)

Module PyFacts.

Lemma bind_ok {A B} (r : result A) (k : A -> result B) (b : B) :
  bind r k = Ok b -> exists a, r = Ok a /\ k a = Ok b.
Proof. destruct r as [a|e]; cbn; [eauto|discriminate]. Qed.

Lemma mapM_ok_length {A B} (f : A -> result B) l bs :
  mapM f l = Ok bs -> List.length bs = List.length l.
Proof.
  revert bs. induction l as [|a l IH]; cbn; intros bs H.
  - now inversion H.
  - apply bind_ok in H as (b & _ & H). apply bind_ok in H as (bs' & H1 & H2).
    inversion H2; subst. cbn. f_equal. now apply IH.
Qed.

Lemma mapM_ok_Forall2 {A B} (f : A -> result B) l bs :
  mapM f l = Ok bs <-> Forall2 (fun a b => f a = Ok b) l bs.
Proof.
  revert bs. induction l as [|a l IH]; cbn; intros bs; split; intros H.
  - inversion H. constructor.
  - inversion H. reflexivity.
  - apply bind_ok in H as (b & Hb & H). apply bind_ok in H as (bs' & H1 & H2).
    inversion H2; subst. constructor; [assumption|]. now apply IH.
  - inversion H as [|? b ? bs' Hb Hbs]; subst. rewrite Hb. cbn.
    apply IH in Hbs. rewrite Hbs. reflexivity.
Qed.

(** *** Dictionaries *)

Section DictFacts.
Context {V : Type}.
Implicit Types (d : dict V) (k : string) (v : V).

Lemma dict_set_fresh d k v : ~ In k (keys d) -> dict_set d k v = d ++ [(k, v)].
Proof.
  induction d as [|[k' v'] d IH]; cbn; intros H; [reflexivity|].
  destruct (String.eqb_spec k' k) as [->|Hne]; [tauto|].
  f_equal. apply IH. tauto.
Qed.

Lemma dict_set_keys_present d k v : In k (keys d) -> keys (dict_set d k v) = keys d.
Proof.
  induction d as [|[k' v'] d IH]; cbn; intros H; [contradiction|].
  destruct (String.eqb_spec k' k) as [->|Hne]; [reflexivity|].
  cbn. f_equal. apply IH. destruct H; [contradiction|assumption].
Qed.

Lemma dict_set_well_formed d k v : well_formed d -> well_formed (dict_set d k v).
Proof.
  unfold well_formed. intros H.
  destruct (in_dec string_dec k (keys d)) as [Hin|Hn].
  - now rewrite dict_set_keys_present.
  - rewrite dict_set_fresh by assumption. unfold keys. rewrite map_app.
    apply NoDup_app; [assumption|repeat constructor; cbn; tauto|].
    intros x Hx [<-|[]]. contradiction.
Qed.

Lemma dict_of_items_from d l :
  NoDup (keys d ++ map fst l) ->
  fold_left (fun d kv => dict_set d (fst kv) (snd kv)) l d = d ++ l.
Proof.
  revert d. induction l as [|[k v] l IH]; intros d H; cbn.
  - now rewrite app_nil_r.
  - assert (Hk : ~ In k (keys d)).
    { intros Hin. apply NoDup_remove_2 in H. apply H.
      apply in_or_app. now left. }
    rewrite dict_set_fresh by assumption.
    rewrite IH.
    + now rewrite <- app_assoc.
    + unfold keys. rewrite map_app, <- app_assoc. exact H.
Qed.

Lemma dict_of_items_well_formed (l : list (string * V)) :
  NoDup (map fst l) -> dict_of_items l = l.
Proof. intros H. unfold dict_of_items. now rewrite dict_of_items_from. Qed.

Lemma dict_get_In d k v : dict_get d k = Some v -> In (k, v) d.
Proof.
  induction d as [|[k' v'] d IH]; cbn; [discriminate|].
  destruct (String.eqb_spec k' k) as [->|Hne]; intros H.
  - inversion H. now left.
  - right. now apply IH.
Qed.

Lemma In_dict_get d k v : well_formed d -> In (k, v) d -> dict_get d k = Some v.
Proof.
  unfold well_formed. induction d as [|[k' v'] d IH]; cbn; intros Hnd Hin; [contradiction|].
  inversion Hnd as [|? ? Hk Hd]; subst.
  destruct Hin as [E|Hin].
  - inversion E; subst. now rewrite String.eqb_refl.
  - destruct (String.eqb_spec k' k) as [->|Hne].
    + exfalso. apply Hk. change k with (fst (k, v)). now apply in_map.
    + now apply IH.
Qed.

End DictFacts.

(** *** The order of floats *)

Lemma ltb_leb x y : (x <? y)%float = true -> (x <=? y)%float = true.
Proof. rewrite ltb_spec, leb_spec. apply SFltb_leb. Qed.

Lemma ltb_false_leb x y :
  ordered x = true -> ordered y = true ->
  (x <? y)%float = false -> (y <=? x)%float = true.
Proof. rewrite ltb_spec, leb_spec. apply SFltb_false_leb. Qed.

Lemma leb_trans x y z :
  ordered x = true -> ordered y = true -> ordered z = true ->
  (x <=? y)%float = true -> (y <=? z)%float = true -> (x <=? z)%float = true.
Proof. rewrite !leb_spec. apply SFleb_trans. Qed.


Lemma eqb_refl x : ordered x = true -> (x =? x)%float = true.
Proof. rewrite eqb_spec. apply SFeqb_refl. Qed.


Lemma nonneg_ordered x : nonneg x = true -> ordered x = true.
Proof. apply nonneg_ordered_sf. Qed.

Lemma keys_nonneg_ordered {A} (key : A -> float) l :
  keys_nonneg key l -> keys_ordered key l.
Proof. apply Forall_impl. intros a. apply nonneg_ordered. Qed.

(** *** [sorted] *)

Section SortedFacts.
Context {A : Type} (key : A -> float).

Lemma insert_desc_perm x l : Permutation (insert_desc key x l) (x :: l).
Proof.
  induction l as [|y l IH]; cbn; [reflexivity|].
  destruct (key x <? key y)%float; [|reflexivity].
  rewrite IH. apply perm_swap.
Qed.

Lemma sorted_reverse_perm l : Permutation (sorted_reverse key l) l.
Proof.
  induction l as [|x l IH]; cbn; [reflexivity|].
  rewrite insert_desc_perm. now constructor.
Qed.

Lemma insert_desc_descending x l :
  ordered (key x) = true -> keys_ordered key l ->
  Spec.descending key l -> Spec.descending key (insert_desc key x l).
Proof.
  unfold Spec.descending, keys_ordered. intros Hx.
  induction l as [|y l IH]; cbn; intros Hn Hs.
  - repeat constructor.
  - inversion Hn as [|? ? Hy Hl]; subst.
    apply StronglySorted_inv in Hs as [Hs Hall].
    destruct (key x <? key y)%float eqn:E.
    + constructor; [now apply IH|].
      apply (Permutation_Forall (Permutation_sym (insert_desc_perm x l))).
      constructor; [now apply ltb_leb|assumption].
    + assert (Hyx : (key y <=? key x)%float = true) by now apply ltb_false_leb.
      constructor; [constructor; assumption|].
      constructor; [assumption|].
      rewrite Forall_forall in *. intros b Hb.
      apply leb_trans with (key y); auto.
Qed.

Lemma sorted_reverse_descending l :
  keys_ordered key l -> Spec.descending key (sorted_reverse key l).
Proof.
  unfold keys_ordered. induction l as [|x l IH]; cbn; intros Hn.
  - constructor.
  - inversion Hn; subst. apply insert_desc_descending; auto.
    apply (Permutation_Forall (Permutation_sym (sorted_reverse_perm l))). assumption.
Qed.





End SortedFacts.

(** *** Strings *)

Lemma length_append s1 s2 :
  String.length (s1 ++ s2) = (String.length s1 + String.length s2)%nat.
Proof. induction s1 as [|c s1 IH]; cbn; [reflexivity|now rewrite IH]. Qed.

Lemma length_zeros n : String.length (zeros n) = n.
Proof. induction n as [|n IH]; cbn; [reflexivity|now rewrite IH]. Qed.

Lemma length_substring s : forall n m,
  (n + m <= String.length s)%nat -> String.length (substring n m s) = m.
Proof.
  induction s as [|c s IH]; intros n m H; cbn in H.
  - assert (n = 0%nat) by lia. assert (m = 0%nat) by lia. subst. reflexivity.
  - destruct n as [|n]; cbn [substring].
    + destruct m as [|m]; [reflexivity|]. cbn. f_equal. apply IH. lia.
    + apply IH. lia.
Qed.

Lemma is_digits_append s1 s2 :
  Spec.is_digits (s1 ++ s2) = Spec.is_digits s1 && Spec.is_digits s2.
Proof.
  induction s1 as [|c s1 IH]; cbn; [reflexivity|]. now rewrite IH, andb_assoc.
Qed.

Lemma is_digits_zeros n : Spec.is_digits (zeros n) = true.
Proof. induction n as [|n IH]; cbn; [reflexivity|exact IH]. Qed.

Lemma is_digits_substring s : forall n m,
  Spec.is_digits s = true -> Spec.is_digits (substring n m s) = true.
Proof.
  induction s as [|c s IH]; intros n m H.
  - destruct n, m; reflexivity.
  - cbn in H. apply andb_true_iff in H as [Hc Hs].
    destruct n as [|n]; cbn [substring].
    + destruct m as [|m]; [reflexivity|]. cbn. rewrite Hc. now apply IH.
    + now apply IH.
Qed.

Lemma is_digits_string_of_uint u :
  Spec.is_digits (NilEmpty.string_of_uint u) = true.
Proof. induction u; cbn; assumption || reflexivity. Qed.

Lemma numeral_string_of_uint u : Spec.is_numeral (NilZero.string_of_uint u).
Proof.
  split.
  - destruct u; try reflexivity; cbn [NilZero.string_of_uint];
      apply is_digits_string_of_uint.
  - destruct u; discriminate.
Qed.

Lemma numeral_length s : Spec.is_numeral s -> (1 <= String.length s)%nat.
Proof. intros [_ H]. destruct s; [contradiction|cbn; lia]. Qed.

(** [f"{x:.0f}"] of a non-negative value is a numeral. *)
Lemma render_fixed_0 n : Spec.is_numeral (render_fixed 0 n).
Proof.
  unfold render_fixed.
  set (digits := NilZero.string_of_uint (N.to_uint (Z.to_N n))).
  pose proof (numeral_string_of_uint (N.to_uint (Z.to_N n))) as Hd. fold digits in Hd.
  pose proof (numeral_length _ Hd) as Hl.
  replace (1 - String.length digits)%nat with 0%nat by lia. exact Hd.
Qed.

(** [f"{x:.1f}"] of a non-negative value is a numeral, a point and one digit. *)
Lemma render_fixed_1 n :
  exists whole frac,
    render_fixed 1 n = (whole ++ "." ++ frac)%string
    /\ Spec.is_numeral whole
    /\ Spec.is_digits frac = true /\ String.length frac = 1%nat.
Proof.
  unfold render_fixed.
  set (digits := NilZero.string_of_uint (N.to_uint (Z.to_N n))).
  pose proof (numeral_string_of_uint (N.to_uint (Z.to_N n))) as Hd. fold digits in Hd.
  pose proof (numeral_length _ Hd) as Hl.
  set (padded := (zeros (2 - String.length digits) ++ digits)%string).
  assert (Hp : Spec.is_digits padded = true).
  { unfold padded. rewrite is_digits_append, is_digits_zeros. apply Hd. }
  assert (Hlen : (2 <= String.length padded)%nat).
  { unfold padded. rewrite length_append, length_zeros. lia. }
  exists (substring 0 (String.length padded - 1) padded),
         (substring (String.length padded - 1) 1 padded).
  split; [reflexivity|]. split; [split|split].
  - now apply is_digits_substring.
  - intros E. apply (f_equal String.length) in E.
    rewrite length_substring in E by lia.
    change (String.length EmptyString) with 0%nat in E. lia.
  - now apply is_digits_substring.
  - apply length_substring. lia.
Qed.

Lemma format_fixed_finite d x :
  finite_nonneg x = true -> exists n, format_fixed d x = render_fixed d n.
Proof.
  unfold finite_nonneg, format_fixed.
  destruct (Prim2SF x) as [[]|[]| |[] m e]; try discriminate; intros _; cbn; eauto.
Qed.

(** [str(n)] reads back as [n]. *)
Lemma str_int_reads_back n :
  option_map Z.of_int (NilZero.int_of_string (str_int n)) = Some n.
Proof.
  unfold str_int. rewrite NilZero.isi.
  - cbn. now rewrite DecimalZ.of_to.
  - destruct n as [|p|p]; cbn; try discriminate.
    intros E. inversion E as [E']. now apply DecimalPos.Unsigned.to_uint_nonnil in E'.
  - destruct n as [|p|p]; cbn; try discriminate.
    intros E. inversion E as [E']. now apply DecimalPos.Unsigned.to_uint_nonnil in E'.
Qed.

End PyFacts.
Import PyFacts.

(** ** Facts about the analyzer *)

Module AnalyzerFacts.

(** *** [int / int] *)

Lemma nonneg_mul x y :
  nonneg x = true -> positive_finite y = true -> nonneg (x * y)%float = true.
Proof.
  unfold nonneg, positive_finite. rewrite mul_spec. intros Hx Hy.
  destruct (Prim2SF y) as [|[]| |[] my ey]; try discriminate.
  now apply SFmul_nonneg.
Qed.

Lemma nonneg_div x y :
  nonneg x = true -> positive_finite y = true -> nonneg (x / y)%float = true.
Proof.
  unfold nonneg, positive_finite. rewrite div_spec. intros Hx Hy.
  destruct (Prim2SF y) as [|[]| |[] my ey]; try discriminate.
  now apply SFdiv_nonneg.
Qed.

Lemma nonneg_add x y :
  nonneg x = true -> nonneg y = true -> nonneg (x + y)%float = true.
Proof. unfold nonneg. rewrite add_spec. apply SFadd_nonneg. Qed.

Lemma nonneg_fold_add xs : forall acc,
  nonneg acc = true -> Forall (fun x => nonneg x = true) xs ->
  nonneg (fold_left PrimFloat.add xs acc) = true.
Proof.
  induction xs as [|x xs IH]; cbn; intros acc Hacc H; [assumption|].
  inversion H; subst. apply IH; [now apply nonneg_add|assumption].
Qed.

Lemma nonneg_sum_in_order xs :
  Forall (fun x => nonneg x = true) xs -> nonneg (Py.sum_in_order xs) = true.
Proof. apply nonneg_fold_add. reflexivity. Qed.

(** The compensated loop keeps the running total of the plain one. *)
Lemma fst_fold_compensated_add xs : forall f c,
  fst (fold_left compensated_add xs (f, c)) = fold_left PrimFloat.add xs f.
Proof.
  induction xs as [|x xs IH]; intros f c; [reflexivity|].
  cbn [fold_left]. unfold compensated_add at 2.
  destruct (PrimFloat.abs x <=? PrimFloat.abs f)%float; apply IH.
Qed.

Lemma is_finite_sf x : is_finite x = true -> finite_sf (Prim2SF x) = true.
Proof.
  unfold is_finite, is_nan, is_infinity. rewrite !eqb_spec, abs_spec.
  change (Prim2SF infinity) with (S754_infinity false).
  destruct (Prim2SF x) as [s|s| |s m e]; try reflexivity.
  - cbn. rewrite orb_true_r. discriminate.
  - cbn. discriminate.
Qed.

Lemma ordered_add_finite x c :
  ordered x = true -> is_finite c = true -> ordered (x + c)%float = true.
Proof.
  unfold ordered. rewrite add_spec. intros Hx Hc.
  apply SFadd_ordered; [assumption|now apply is_finite_sf].
Qed.

Lemma ordered_sum_compensated xs :
  Forall (fun x => nonneg x = true) xs -> ordered (Py.sum_compensated xs) = true.
Proof.
  intros H. destruct xs as [|x rest]; [reflexivity|].
  inversion H as [|? ? Hx Hrest]; subst. unfold sum_compensated.
  pose proof (fst_fold_compensated_add rest (0 + x)%float 0%float) as Hf.
  destruct (fold_left compensated_add rest ((0 + x)%float, 0%float)) as [f c].
  cbn [fst] in Hf.
  assert (Hn : nonneg f = true).
  { rewrite Hf. apply nonneg_fold_add; [|assumption]. now apply nonneg_add. }
  destruct (is_zero c); cbn [orb]; [now apply nonneg_ordered|].
  destruct (is_finite c) eqn:Ec; cbn [negb]; [|now apply nonneg_ordered].
  apply ordered_add_finite; [now apply nonneg_ordered|assumption].
Qed.

(** Whatever the interpreter, the sum of costs is not NaN. *)
Lemma ordered_sum py xs :
  Forall (fun x => nonneg x = true) xs -> ordered (Py.sum py xs) = true.
Proof.
  intros H. destruct py; cbn [Py.sum].
  - now apply nonneg_ordered, nonneg_sum_in_order.
  - now apply ordered_sum_compensated.
Qed.

Lemma float_of_small_int_nonneg a :
  (0 <= a)%Z -> nonneg (float_of_small_int a) = true.
Proof.
  destruct a as [|p|p]; intros H; [reflexivity| |lia].
  unfold nonneg, float_of_small_int. rewrite of_uint63_spec.
  apply binary_normalize_nonneg. apply Uint63.to_Z_bounded.
Qed.

Lemma DBL_MAX_canonical : canonical (2 ^ 53 - 1) 971.
Proof. split; [reflexivity|reflexivity]. Qed.

Lemma F2R_DBL_MAX : F2R (2 ^ 53 - 1) 971 = IZR Spec.DBL_MAX.
Proof.
  change 971%Z with (0 + 971)%Z. rewrite F2R_shift by lia.
  unfold F2R, bpow. cbn [powerRZ]. rewrite Rmult_1_r. reflexivity.
Qed.

(** A float in canonical form that is at most [DBL_MAX] does not overflow. *)
Lemma canonical_le_DBL_MAX m e :
  canonical m e -> (F2R m e <= F2R (2 ^ 53 - 1) 971)%R -> (e <= 971)%Z.
Proof.
  intros Hc Hle. destruct (Z_le_gt_dec e 971) as [|Hgt]; [assumption|exfalso].
  pose proof (canonical_normal m e Hc ltac:(lia)) as Hm.
  assert (H : (F2R (2 ^ 53) 971 <= F2R m e)%R).
  { apply F2R_le_exp; [lia|].
    assert (2 ^ 1 <= 2 ^ (e - 971))%Z by (apply Z.pow_le_mono_r; lia).
    rewrite Z.pow_1_r in *. change (2 ^ 53)%Z with (2 ^ 52 * 2)%Z. nia. }
  assert (H' : (F2R (2 ^ 53 - 1) 971 < F2R (2 ^ 53) 971)%R) by (apply F2R_lt; lia).
  lra.
Qed.

Lemma int_truediv_spec a b mb eb :
  (0 <= a)%Z -> (0 < b)%Z ->
  Prim2SF (float_of_small_int b) = S754_finite false mb eb ->
  (forall x, int_truediv a b = Ok x -> nonneg x = true)
  /\ (Spec.divides_in_range a b = true -> exists x, int_truediv a b = Ok x).
Proof.
  intros Ha Hb Eb. unfold int_truediv.
  destruct (Z.eqb_spec b 0) as [|_]; [lia|].
  destruct (is_small_int a && is_small_int b).
  - split; [|eauto]. intros x E. inversion E; subst.
    apply nonneg_div; [now apply float_of_small_int_nonneg|].
    unfold positive_finite. now rewrite Eb.
  - destruct b as [|pb|pb]; try lia. destruct a as [|pa|pa]; try lia.
    + cbn. split; [|eauto]. intros x E. inversion E. reflexivity.
    + cbn [int_as_mantissa].
      destruct (SFdiv_finite_spec false pa 0 false pb 0) as (m2 & e2 & -> & Hr).
      destruct Hr as (H0 & Hc & _ & Hu).
      destruct m2 as [|p2|p2]; [| |lia]; cbn [pack xorb].
      * split; [|eauto]. intros x E. inversion E. reflexivity.
      * specialize (Hc ltac:(lia)).
        destruct (Z.leb_spec e2 (emax - prec)) as [Hle|Hgt].
        -- assert (V : Prim2SF (SF2Prim (S754_finite false p2 e2)) = S754_finite false p2 e2).
           { apply Prim2SF_SF2Prim. unfold SpecFloat.valid_binary, SpecFloat.bounded, SpecFloat.canonical_mantissa.
             destruct Hc as [_ Hc]. cbn [Zdigits2] in Hc.
             rewrite Hc, Z.eqb_refl. cbn [andb]. now apply Z.leb_le. }
           split; [|eauto]. intros x E.
           assert (Ex : x = SF2Prim (S754_finite false p2 e2)) by congruence.
           unfold nonneg. now rewrite Ex, V.
        -- split; [discriminate|]. intros Hrange. exfalso.
           unfold Spec.divides_in_range in Hrange. apply Z.leb_le in Hrange.
           assert (Hv : (F2R (Z.pos pa) 0 / F2R (Z.pos pb) 0 <= F2R (2 ^ 53 - 1) 971)%R).
           { rewrite F2R_DBL_MAX. unfold F2R, bpow. cbn [powerRZ]. rewrite !Rmult_1_r.
             assert (0 < IZR (Z.pos pb))%R by (apply IZR_lt; lia).
             apply Rmult_le_reg_r with (IZR (Z.pos pb)); [assumption|].
             unfold Rdiv. rewrite Rmult_assoc, Rinv_l, Rmult_1_r by lra.
             rewrite <- mult_IZR. now apply IZR_le. }
           pose proof (Hu _ _ DBL_MAX_canonical Hv) as Hle.
           pose proof (canonical_le_DBL_MAX _ _ Hc Hle).
           change (emax - prec)%Z with 971%Z in Hgt. lia.
Qed.

Lemma per_million_spec n :
  (forall x, int_truediv (Z.of_N n) 1000000 = Ok x -> nonneg x = true)
  /\ (Spec.divides_in_range (Z.of_N n) 1000000 = true ->
      exists x, int_truediv (Z.of_N n) 1000000 = Ok x).
Proof.
  apply int_truediv_spec with (mb := 8589934592000000%positive) (eb := (-33)%Z);
    [lia|lia|reflexivity].
Qed.

(** *** Finite quotients *)

Lemma one_le_F2R m e : (e <= 0)%Z -> (2 ^ (- e) <= m)%Z -> (1 <= F2R m e)%R.
Proof.
  intros He Hm.
  replace 1%R with (F2R (2 ^ (- e)) e); [now apply F2R_le|].
  replace (2 ^ (- e))%Z with (1 * 2 ^ (- e))%Z by lia.
  rewrite <- F2R_shift by lia. replace (e + - e)%Z with 0%Z by lia.
  unfold F2R, bpow. cbn. lra.
Qed.

Lemma F2R_le_DBL_MAX m e :
  canonical m e -> (e <= 971)%Z -> (F2R m e <= F2R (2 ^ 53 - 1) 971)%R.
Proof.
  intros Hc He. destruct (canonical_mantissa_range _ _ Hc) as [Hm _].
  apply F2R_le_exp; [lia|].
  assert (1 <= 2 ^ (971 - e))%Z.
  { pose proof (Z.pow_pos_nonneg 2 (971 - e)). lia. }
  nia.
Qed.

Lemma float_of_small_int_finite a :
  (0 <= a)%Z -> finite_nonneg (float_of_small_int a) = true.
Proof.
  destruct a as [|p|p]; intros H; [reflexivity| |lia].
  unfold finite_nonneg, float_of_small_int. rewrite of_uint63_spec.
  pose proof (Uint63.to_Z_bounded (Uint63.of_Z (Z.pos p))) as [H0 H1].
  destruct (Uint63.to_Z (Uint63.of_Z (Z.pos p))) as [|q|q] eqn:E; [reflexivity| |lia].
  cbn [binary_normalize].
  destruct (binary_round_spec false q 0) as (m2 & e2 & -> & Hr).
  assert (Hv : (F2R (Z.pos q) 0 <= F2R (2 ^ 53 - 1) 971)%R).
  { apply F2R_le_exp; [lia|]. change Uint63.wB with (2 ^ 63)%Z in H1.
    change (971 - 0)%Z with 971%Z.
    assert (2 ^ 63 <= (2 ^ 53 - 1) * 2 ^ 971)%Z by (vm_compute; discriminate). lia. }
  destruct (rounds_to_finite false _ _ _ _ _ Hr DBL_MAX_canonical ltac:(lia) Hv)
    as [->|(p2 & _ & -> & _)]; reflexivity.
Qed.

Lemma int_truediv_finite a b mb eb :
  (0 <= a)%Z -> (0 < b)%Z ->
  Prim2SF (float_of_small_int b) = S754_finite false mb eb ->
  (1 <= F2R (Zpos mb) eb)%R ->
  forall x, int_truediv a b = Ok x -> finite_nonneg x = true.
Proof.
  intros Ha Hb Eb Hone x. unfold int_truediv.
  destruct (Z.eqb_spec b 0) as [|_]; [lia|].
  destruct (is_small_int a && is_small_int b).
  - intros E. inversion E; subst. clear E.
    pose proof (float_of_small_int_finite a Ha) as Hfa.
    unfold finite_nonneg in *. rewrite div_spec, Eb.
    destruct (Prim2SF (float_of_small_int a)) as [[]|[]| |[] ma ea] eqn:Ea;
      try discriminate; [reflexivity|].
    destruct (Prim2SF_canonical _ _ _ _ Ea) as [Hca Hea].
    unfold SF64div.
    destruct (SFdiv_finite_spec false ma ea false mb eb) as (m2 & e2 & -> & Hr).
    assert (Hv : (F2R (Z.pos ma) ea / F2R (Z.pos mb) eb <= F2R (Z.pos ma) ea)%R).
    { pose proof (F2R_pos (Z.pos ma) ea ltac:(lia)) as Hpa.
      assert (Hinv : (/ F2R (Z.pos mb) eb <= 1)%R).
      { rewrite <- Rinv_1. apply Rinv_le_contravar; lra. }
      unfold Rdiv. nra. }
    destruct (rounds_to_finite (xorb false false) _ _ _ _ _ Hr Hca Hea Hv)
      as [->|(p2 & _ & -> & _)]; reflexivity.
  - destruct b as [|pb|pb]; try lia. destruct a as [|pa|pa]; try lia.
    + cbn. intros E. inversion E. reflexivity.
    + cbn [int_as_mantissa].
      destruct (SFdiv_finite_spec false pa 0 false pb 0) as (m2 & e2 & -> & Hr).
      destruct Hr as (H0 & Hc & _).
      destruct m2 as [|p2|p2]; [| |lia]; cbn [pack xorb].
      * intros E. inversion E. reflexivity.
      * specialize (Hc ltac:(lia)).
        destruct (Z.leb_spec e2 (emax - prec)) as [Hle|Hgt]; [|discriminate].
        assert (V : Prim2SF (SF2Prim (S754_finite false p2 e2)) = S754_finite false p2 e2).
        { apply Prim2SF_SF2Prim.
          unfold SpecFloat.valid_binary, SpecFloat.bounded, SpecFloat.canonical_mantissa.
          destruct Hc as [_ Hc]. cbn [Zdigits2] in Hc.
          rewrite Hc, Z.eqb_refl. cbn [andb]. now apply Z.leb_le. }
        intros E.
        assert (Ex : x = SF2Prim (S754_finite false p2 e2)) by congruence.
        unfold finite_nonneg. now rewrite Ex, V.
Qed.

Lemma per_million_finite n x :
  (0 <= n)%Z -> int_truediv n 1000000 = Ok x -> finite_nonneg x = true.
Proof.
  intros Hn. apply int_truediv_finite with (mb := 8589934592000000%positive) (eb := (-33)%Z);
    [assumption|lia|reflexivity|].
  apply one_le_F2R; [lia|]. vm_compute. discriminate.
Qed.

Lemma per_thousand_finite n x :
  (0 <= n)%Z -> int_truediv n 1000 = Ok x -> finite_nonneg x = true.
Proof.
  intros Hn. apply int_truediv_finite with (mb := 8796093022208000%positive) (eb := (-43)%Z);
    [assumption|lia|reflexivity|].
  apply one_le_F2R; [lia|]. vm_compute. discriminate.
Qed.

(** *** Pricing *)

Lemma default_pricing :
  DEFAULT_PRICING
  = {| input_per_mtok := 3.00; output_per_mtok := 15.00;
       cache_write_per_mtok := 3.75; cache_read_per_mtok := 0.30 |}.
Proof. reflexivity. Qed.

Lemma pricing_of_known m p :
  dict_get MODEL_PRICING m = Some p -> pricing_of (Some m) = p.
Proof. intros H. unfold pricing_of. now rewrite H. Qed.

Lemma pricing_of_unknown m :
  dict_get MODEL_PRICING m = None -> pricing_of (Some m) = DEFAULT_PRICING.
Proof. intros H. unfold pricing_of. now rewrite H. Qed.

Lemma pricing_of_positive model : rates_positive (pricing_of model) = true.
Proof.
  unfold pricing_of. destruct model as [m|]; [|reflexivity].
  destruct (dict_get MODEL_PRICING m) as [p|] eqn:E; [|reflexivity].
  apply dict_get_In in E. unfold MODEL_PRICING in E.
  destruct E as [E|[E|[E|[]]]]; inversion E; reflexivity.
Qed.

(** *** [calculate_cost] *)

Lemma calculate_cost_inv tokens model c :
  calculate_cost tokens model = Ok c ->
  exists i o w r,
    int_truediv (Z.of_N (input_tokens tokens)) 1000000 = Ok i
    /\ int_truediv (Z.of_N (output_tokens tokens)) 1000000 = Ok o
    /\ int_truediv (Z.of_N (cache_creation_input_tokens tokens)) 1000000 = Ok w
    /\ int_truediv (Z.of_N (cache_read_input_tokens tokens)) 1000000 = Ok r
    /\ c = {| input_cost := (i * input_per_mtok (pricing_of model))%float;
              output_cost := (o * output_per_mtok (pricing_of model))%float;
              cache_write_cost := (w * cache_write_per_mtok (pricing_of model))%float;
              cache_read_cost := (r * cache_read_per_mtok (pricing_of model))%float |}.
Proof.
  unfold calculate_cost. intros H.
  apply bind_ok in H as (i & Hi & H). apply bind_ok in H as (o & Ho & H).
  apply bind_ok in H as (w & Hw & H). apply bind_ok in H as (r & Hr & H).
  exists i, o, w, r. inversion H. auto.
Qed.

Lemma calculate_cost_intro tokens model i o w r :
  int_truediv (Z.of_N (input_tokens tokens)) 1000000 = Ok i ->
  int_truediv (Z.of_N (output_tokens tokens)) 1000000 = Ok o ->
  int_truediv (Z.of_N (cache_creation_input_tokens tokens)) 1000000 = Ok w ->
  int_truediv (Z.of_N (cache_read_input_tokens tokens)) 1000000 = Ok r ->
  calculate_cost tokens model
  = Ok {| input_cost := (i * input_per_mtok (pricing_of model))%float;
          output_cost := (o * output_per_mtok (pricing_of model))%float;
          cache_write_cost := (w * cache_write_per_mtok (pricing_of model))%float;
          cache_read_cost := (r * cache_read_per_mtok (pricing_of model))%float |}.
Proof.
  intros Hi Ho Hw Hr. unfold calculate_cost. rewrite Hi, Ho, Hw, Hr. reflexivity.
Qed.

Lemma calculate_cost_nonneg tokens model c :
  calculate_cost tokens model = Ok c -> costs_nonneg c = true.
Proof.
  intros H. apply calculate_cost_inv in H as (i & o & w & r & Hi & Ho & Hw & Hr & ->).
  pose proof (pricing_of_positive model) as Hp. unfold rates_positive in Hp.
  apply andb_true_iff in Hp as [Hp P4]. apply andb_true_iff in Hp as [Hp P3].
  apply andb_true_iff in Hp as [P1 P2].
  apply per_million_spec in Hi, Ho, Hw, Hr.
  unfold costs_nonneg. cbn [input_cost output_cost cache_write_cost cache_read_cost].
  rewrite !nonneg_mul by assumption. reflexivity.
Qed.

Lemma total_cost_nonneg c :
  costs_nonneg c = true -> nonneg (CostBreakdown.total_cost c) = true.
Proof.
  unfold costs_nonneg. intros H.
  apply andb_true_iff in H as [H H4]. apply andb_true_iff in H as [H H3].
  apply andb_true_iff in H as [H1 H2].
  unfold CostBreakdown.total_cost. repeat apply nonneg_add; assumption.
Qed.

Lemma calculate_cost_ok tokens model :
  Spec.in_range tokens = true -> exists c, calculate_cost tokens model = Ok c.
Proof.
  unfold Spec.in_range. intros H.
  apply andb_true_iff in H as [H H4]. apply andb_true_iff in H as [H H3].
  apply andb_true_iff in H as [H1 H2].
  apply per_million_spec in H1 as [i Hi]. apply per_million_spec in H2 as [o Ho].
  apply per_million_spec in H3 as [w Hw]. apply per_million_spec in H4 as [r Hr].
  eexists. apply calculate_cost_intro; eassumption.
Qed.

(** *** The loops *)

Lemma fold_accumulate costs : forall total,
  fold_left accumulate costs total
  = {| input_cost := fold_left PrimFloat.add (map input_cost costs) (input_cost total);
       output_cost := fold_left PrimFloat.add (map output_cost costs) (output_cost total);
       cache_write_cost :=
         fold_left PrimFloat.add (map cache_write_cost costs) (cache_write_cost total);
       cache_read_cost :=
         fold_left PrimFloat.add (map cache_read_cost costs) (cache_read_cost total) |}.
Proof.
  induction costs as [|c costs IH]; intros total; cbn [fold_left map].
  - now destruct total.
  - rewrite IH. reflexivity.
Qed.

Lemma summary_loop_spec items : forall total,
  summary_loop items total
  = (costs <- Spec.model_costs items ;; Ok (fold_left accumulate costs total)).
Proof.
  unfold Spec.model_costs.
  induction items as [|[model tokens] items IH]; intros total; cbn [summary_loop mapM fst snd].
  - reflexivity.
  - destruct (calculate_cost tokens (Some model)) as [c|e]; cbn [bind]; [|reflexivity].
    rewrite IH. destruct (mapM _ items); reflexivity.
Qed.

Lemma breakdown_loop_priced items : forall acc,
  NoDup (keys acc ++ map fst items) ->
  breakdown_loop items acc = (bs <- Spec.priced items ;; Ok (acc ++ bs)).
Proof.
  unfold Spec.priced.
  induction items as [|[model tokens] items IH]; intros acc H; cbn [breakdown_loop mapM].
  - cbn. now rewrite app_nil_r.
  - unfold Spec.priced_entry at 1. cbn [fst snd].
    destruct (calculate_cost tokens (Some model)) as [c|e]; cbn [bind]; [|reflexivity].
    assert (Hk : ~ In model (keys acc)).
    { intros Hin. apply NoDup_remove_2 in H. apply H. apply in_or_app. now left. }
    rewrite dict_set_fresh by assumption. rewrite IH.
    + destruct (mapM Spec.priced_entry items); cbn [bind]; [|reflexivity].
      now rewrite <- app_assoc.
    + unfold keys. rewrite map_app, <- app_assoc. exact H.
Qed.

Lemma priced_Forall2 items bs :
  Spec.priced items = Ok bs ->
  Forall2 (fun kv b =>
             exists c, calculate_cost (snd kv) (Some (fst kv)) = Ok c
                       /\ b = (fst kv, (snd kv, CostBreakdown.total_cost c)))
          items bs.
Proof.
  intros H. apply mapM_ok_Forall2 in H.
  induction H as [|kv b items bs Hb _ IH]; constructor; [|assumption].
  unfold Spec.priced_entry in Hb. apply bind_ok in Hb as (c & Hc & Hb).
  exists c. split; [assumption|congruence].
Qed.

Lemma priced_keys items bs : Spec.priced items = Ok bs -> keys bs = keys items.
Proof.
  intros H. apply priced_Forall2 in H. unfold keys.
  induction H as [|kv b items bs (c & _ & ->) _ IH]; cbn; [reflexivity|].
  now rewrite IH.
Qed.

Lemma priced_nonneg items bs :
  Spec.priced items = Ok bs -> keys_nonneg entry_cost bs.
Proof.
  intros H. apply priced_Forall2 in H. unfold keys_nonneg.
  induction H as [|kv b items bs (c & Hc & ->) _ IH]; constructor; [|assumption].
  unfold entry_cost. cbn [snd]. apply total_cost_nonneg.
  now apply calculate_cost_nonneg in Hc.
Qed.


(** Whatever the starting dictionary, the loop keeps it a dictionary with
    comparable, non-negative costs. *)
Lemma breakdown_loop_invariant items : forall acc r,
  breakdown_loop items acc = Ok r ->
  well_formed acc -> keys_nonneg entry_cost acc ->
  well_formed r /\ keys_nonneg entry_cost r.
Proof.
  induction items as [|[model tokens] items IH]; intros acc r H Hw Hn; cbn [breakdown_loop] in H.
  - inversion H; subst. auto.
  - apply bind_ok in H as (c & Hc & H).
    apply IH in H; [assumption|now apply dict_set_well_formed|].
    clear H IH. unfold keys_nonneg in *.
    assert (Hv : nonneg (CostBreakdown.total_cost c) = true).
    { apply total_cost_nonneg. now apply calculate_cost_nonneg in Hc. }
    induction acc as [|[k' v'] acc IHa]; cbn [dict_set].
    + repeat constructor. exact Hv.
    + inversion Hn; subst. inversion Hw; subst.
      destruct (String.eqb k' model).
      * constructor; [exact Hv|assumption].
      * constructor; [assumption|]. apply IHa; assumption.
Qed.

Lemma breakdown_loop_ok items : forall acc,
  Forall (fun t => Spec.in_range t = true) (values items) ->
  exists r, breakdown_loop items acc = Ok r.
Proof.
  unfold values.
  induction items as [|[model tokens] items IH]; intros acc H; cbn [breakdown_loop map snd] in *.
  - eauto.
  - inversion H as [|? ? Ht Hl]; subst.
    destruct (calculate_cost_ok tokens (Some model) Ht) as [c ->]. cbn [bind].
    now apply IH.
Qed.

Lemma breakdown_loop_empty items : forall acc r,
  breakdown_loop items acc = Ok r -> (r = [] <-> items = [] /\ acc = []).
Proof.
  induction items as [|[model tokens] items IH]; intros acc r H; cbn [breakdown_loop] in H.
  - inversion H; subst. tauto.
  - apply bind_ok in H as (c & _ & H). apply IH in H. split.
    + intros Hr. apply H in Hr as [_ Hs]. destruct acc as [|[k v] acc]; cbn in Hs.
      * discriminate.
      * destruct (String.eqb k model); discriminate.
    + intros [Hi _]. discriminate.
Qed.

Lemma In_keys_dict_set {V} (d : dict V) k v x :
  In x (keys (dict_set d k v)) <-> In x (keys d) \/ x = k.
Proof.
  destruct (in_dec string_dec k (keys d)) as [Hin|Hn].
  - rewrite dict_set_keys_present by assumption. split; [tauto|].
    intros [H| ->]; assumption.
  - rewrite dict_set_fresh by assumption. unfold keys. rewrite map_app, in_app_iff.
    cbn. split; intros [H|H]; auto; destruct H as [H|[]]; auto.
Qed.

Lemma by_project_loop_keys items : forall acc r,
  by_project_loop items acc = Ok r ->
  forall p, In p (keys r)
            <-> In p (keys acc)
                \/ exists stats, In (p, stats) items /\ model_usage stats <> [].
Proof.
  induction items as [|[project stats] items IH]; intros acc r H p; cbn [by_project_loop] in H.
  - inversion H; subst. split; [tauto|]. intros [Hp|(st & [] & _)]. exact Hp.
  - apply bind_ok in H as (models & Hm & H).
    pose proof (breakdown_loop_empty _ _ _ Hm) as He.
    destruct models as [|entry models].
    + assert (Hu : model_usage stats = []) by (apply He; reflexivity).
      rewrite (IH _ _ H p). split.
      * intros [Hp|(st & Hin & Hne)]; [tauto|]. right. exists st. split; [now right|assumption].
      * intros [Hp|(st & [E|Hin] & Hne)]; [tauto| |].
        -- inversion E; subst. contradiction.
        -- right. eauto.
    + assert (Hu : model_usage stats <> []).
      { intros E. assert (Hnil : entry :: models = []) by (apply He; auto). discriminate. }
      rewrite (IH _ _ H p), In_keys_dict_set. split.
      * intros [[Hp| ->]|(st & Hin & Hne)]; [tauto| |].
        -- right. exists stats. split; [now left|assumption].
        -- right. exists st. split; [now right|assumption].
      * intros [Hp|(st & [E|Hin] & Hne)]; [tauto| |].
        -- inversion E; subst. left. now right.
        -- right. eauto.
Qed.

Lemma by_project_loop_ok items : forall acc,
  Forall (fun stats => Forall (fun t => Spec.in_range t = true) (values (model_usage stats)))
         (values items) ->
  exists r, by_project_loop items acc = Ok r.
Proof.
  unfold values at 2.
  induction items as [|[project stats] items IH]; intros acc H; cbn [by_project_loop map snd] in *.
  - eauto.
  - inversion H as [|? ? Hs Hl]; subst.
    destruct (breakdown_loop_ok (model_usage stats) [] Hs) as [models ->]. cbn [bind].
    destruct models; now apply IH.
Qed.

(** Every inner dictionary is sorted, and all costs are comparable. *)
Lemma by_project_loop_invariant items : forall acc r,
  by_project_loop items acc = Ok r ->
  well_formed acc ->
  Forall (fun x => Spec.descending entry_cost (snd x) /\ keys_nonneg entry_cost (snd x)) acc ->
  well_formed r
  /\ Forall (fun x => Spec.descending entry_cost (snd x) /\ keys_nonneg entry_cost (snd x)) r.
Proof.
  induction items as [|[project stats] items IH]; intros acc r H Hw Ha; cbn [by_project_loop] in H.
  - inversion H; subst. auto.
  - apply bind_ok in H as (models & Hm & H).
    destruct models as [|entry models]; [now apply IH in H|].
    apply IH in H; [assumption|now apply dict_set_well_formed|].
    clear H IH.
    apply breakdown_loop_invariant in Hm as [Hwm Hnm]; [|constructor|constructor].
    set (sorted := sorted_reverse entry_cost (entry :: models)) in *.
    assert (Hperm : Permutation sorted (entry :: models)) by apply sorted_reverse_perm.
    assert (Hnd : NoDup (map fst sorted)).
    { apply (Permutation_NoDup (l := map fst (entry :: models)));
        [apply Permutation_map; now symmetry|exact Hwm]. }
    rewrite (dict_of_items_well_formed sorted Hnd).
    assert (Hgood : Spec.descending entry_cost sorted /\ keys_nonneg entry_cost sorted).
    { split; [now apply sorted_reverse_descending, keys_nonneg_ordered|].
      apply (Permutation_Forall (Permutation_sym Hperm)). exact Hnm. }
    clear Hw. induction acc as [|[k' v'] acc IHa]; cbn [dict_set].
    + repeat constructor; apply Hgood.
    + inversion Ha; subst. destruct (String.eqb k' project).
      * constructor; [exact Hgood|assumption].
      * constructor; [assumption|]. now apply IHa.
Qed.

Lemma project_loop_spec cep items : forall acc,
  NoDup (keys acc ++ keys items) ->
  project_loop cep items acc
  = (bs <- mapM (Spec.project_summary cep) items ;; Ok (acc ++ bs)).
Proof.
  induction items as [|[project stats] items IH]; intros acc H; cbn [project_loop mapM].
  - cbn. now rewrite app_nil_r.
  - unfold Spec.project_summary at 1. cbn [fst snd].
    destruct (calculate_cost (Sessions.total_tokens stats) None) as [c|e]; cbn [bind]; [|reflexivity].
    assert (Hk : ~ In project (keys acc)).
    { intros Hin. apply NoDup_remove_2 in H. apply H. apply in_or_app. now left. }
    rewrite dict_set_fresh by assumption. rewrite IH.
    + destruct (mapM (Spec.project_summary cep) items); cbn [bind]; [|reflexivity].
      now rewrite <- app_assoc.
    + unfold keys. rewrite map_app, <- app_assoc. exact H.
Qed.

Lemma project_loop_ok cep items : forall acc,
  Forall (fun stats => Spec.in_range (Sessions.total_tokens stats) = true) (values items) ->
  exists r, project_loop cep items acc = Ok r.
Proof.
  unfold values.
  induction items as [|[project stats] items IH]; intros acc H; cbn [project_loop map snd] in *.
  - eauto.
  - inversion H as [|? ? Hs Hl]; subst.
    destruct (calculate_cost_ok (Sessions.total_tokens stats) None Hs) as [c ->]. cbn [bind].
    now apply IH.
Qed.

(** The loop reads nothing of a project but its name and its merged total. *)
Lemma project_loop_reads_totals cep items : forall items' acc,
  map (fun kv => (fst kv, Sessions.total_tokens (snd kv))) items'
  = map (fun kv => (fst kv, Sessions.total_tokens (snd kv))) items ->
  project_loop cep items' acc = project_loop cep items acc.
Proof.
  induction items as [|[project stats] items IH]; intros [|[project' stats'] items'] acc H;
    cbn [map fst snd] in H; try discriminate; [reflexivity|].
  inversion H as [[Hp Ht Hl]]. cbn [project_loop]. rewrite Ht.
  destruct (calculate_cost (Sessions.total_tokens stats) None); cbn [bind]; [|reflexivity].
  now apply IH.
Qed.

Lemma project_summaries_Forall2 cep items bs :
  mapM (Spec.project_summary cep) items = Ok bs ->
  Forall2 (fun kv b =>
             fst b = fst kv
             /\ total_tokens (snd b) = Sessions.total_tokens (snd kv)
             /\ calculate_cost (Sessions.total_tokens (snd kv)) None = Ok (cost_breakdown (snd b)))
          items bs.
Proof.
  intros H. apply mapM_ok_Forall2 in H.
  induction H as [|kv b items bs Hb _ IH]; constructor; [|assumption].
  unfold Spec.project_summary in Hb. apply bind_ok in Hb as (c & Hc & Hb).
  inversion Hb; subst. cbn. auto.
Qed.

End AnalyzerFacts.
Import AnalyzerFacts.

(** ** The claims *)

(** C1: [get_summary] prices every [(model, TokenUsage)] pair of the per-model
    aggregate on its own with [calculate_cost] and sums the four cost fields
    field-wise over the models, in the aggregate's order; no single rate is
    applied to the grand total. For one million input tokens on the $3 model
    and one million on the $15 model the input cost of the summary is 18.00,
    not 9.00. *)
Theorem get_summary_sums_per_model_costs :
  (forall cep stats, get_summary cep stats = Spec.summary cep stats)
  /\ (forall cep,
        exists s,
          get_summary cep Examples.mixed_models = Ok s
          /\ input_cost (cost_breakdown s) = 18%float
          /\ (input_cost (cost_breakdown s) =? 9)%float = false).
Proof.
  split.
  - intros cep stats. unfold get_summary, Spec.summary.
    rewrite summary_loop_spec.
    destruct (Spec.model_costs (model_usage stats)) as [costs|e]; cbn [bind]; [|reflexivity].
    rewrite fold_accumulate. reflexivity.
  - intros cep. eexists. split; [reflexivity|]. split; reflexivity.
Qed.

Lemma int_truediv_raises a b e :
  b <> 0%Z -> int_truediv a b = Raise e -> e = OverflowError.
Proof.
  intros Hb. unfold int_truediv.
  destruct (Z.eqb_spec b 0) as [|_]; [contradiction|].
  destruct (is_small_int a && is_small_int b); [discriminate|].
  destruct (SFdiv prec emax (int_as_mantissa a) (int_as_mantissa b)); congruence.
Qed.

Lemma calculate_cost_raises tokens model e :
  calculate_cost tokens model = Raise e -> e = OverflowError.
Proof.
  unfold calculate_cost.
  repeat match goal with
  | |- context [int_truediv ?a ?b] =>
      let E := fresh "E" in
      destruct (int_truediv a b) eqn:E; cbn [bind];
      [|intros H; inversion H; subst; eapply int_truediv_raises; [|exact E]; lia]
  end.
  discriminate.
Qed.

(** C2, as amended: for every model identifier (absent and unknown ones
    included) and every [TokenUsage] whose four counters divided by one
    million stay within the doubles, [calculate_cost] returns the four costs
    [count / 1_000_000 * rate], the rates being those of the model's entry of
    the pricing table, or of the default entry when the model is absent or not
    in the table. Counters below [2^53] are divided as doubles. The only error
    it can raise at all is [OverflowError]. Two million input and one million
    output tokens under the Sonnet rates cost 6.00 and 15.00, 21.00 in total. *)
Theorem calculate_cost_per_million_rates :
  (forall tokens model,
     Spec.in_range tokens = true ->
     exists i o w r,
       int_truediv (Z.of_N (input_tokens tokens)) 1000000 = Ok i
       /\ int_truediv (Z.of_N (output_tokens tokens)) 1000000 = Ok o
       /\ int_truediv (Z.of_N (cache_creation_input_tokens tokens)) 1000000 = Ok w
       /\ int_truediv (Z.of_N (cache_read_input_tokens tokens)) 1000000 = Ok r
       /\ calculate_cost tokens model
          = Ok {| input_cost := (i * input_per_mtok (pricing_of model))%float;
                  output_cost := (o * output_per_mtok (pricing_of model))%float;
                  cache_write_cost := (w * cache_write_per_mtok (pricing_of model))%float;
                  cache_read_cost := (r * cache_read_per_mtok (pricing_of model))%float |})
  /\ (forall n, (Z.of_N n < 2 ^ 53)%Z ->
        int_truediv (Z.of_N n) 1000000
        = Ok (float_of_small_int (Z.of_N n) / 1000000)%float)
  /\ pricing_of None = DEFAULT_PRICING
  /\ (forall m, dict_get MODEL_PRICING m = None -> pricing_of (Some m) = DEFAULT_PRICING)
  /\ (forall m p, dict_get MODEL_PRICING m = Some p -> pricing_of (Some m) = p)
  /\ (forall tokens model e, calculate_cost tokens model = Raise e -> e = OverflowError)
  /\ (exists c,
        calculate_cost (Examples.usage 2000000 1000000 0 0) (Some Examples.sonnet) = Ok c
        /\ input_cost c = 6%float /\ output_cost c = 15%float
        /\ CostBreakdown.total_cost c = 21%float).
Proof.
  split; [|split; [|split; [|split; [|split; [|split]]]]].
  - intros tokens model H.
    destruct (calculate_cost_ok tokens model H) as [c Hc].
    destruct (calculate_cost_inv _ _ _ Hc) as (i & o & w & r & Hi & Ho & Hw & Hr & ->).
    exists i, o, w, r. auto.
  - intros n Hn. unfold int_truediv. cbn [Z.eqb].
    assert (Hs : is_small_int (Z.of_N n) = true).
    { unfold is_small_int. apply Z.ltb_lt. lia. }
    rewrite Hs. reflexivity.
  - reflexivity.
  - apply pricing_of_unknown.
  - apply pricing_of_known.
  - apply calculate_cost_raises.
  - eexists. split; [reflexivity|]. repeat split; reflexivity.
Qed.

Lemma calculate_cost_per_million_rates_witness :
  exists i o w r,
    int_truediv 2000000 1000000 = Ok i
    /\ int_truediv 1000000 1000000 = Ok o
    /\ int_truediv 0 1000000 = Ok w
    /\ int_truediv 0 1000000 = Ok r
    /\ calculate_cost (Examples.usage 2000000 1000000 0 0) (Some "unknown-model"%string)
       = Ok {| input_cost := (i * 3)%float; output_cost := (o * 15)%float;
               cache_write_cost := (w * 3.75)%float;
               cache_read_cost := (r * 0.30)%float |}.
Proof.
  exact (proj1 calculate_cost_per_million_rates
           (Examples.usage 2000000 1000000 0 0) (Some "unknown-model"%string) eq_refl).
Defined.

(** C2, as stated, fails: a counter whose quotient by one million is beyond
    the doubles makes the integer division, and so [calculate_cost], raise. *)
Lemma calculate_cost_overflow :
  calculate_cost (Examples.usage Examples.astronomical 0 0 0) None = Raise OverflowError.
Proof. vm_compute. reflexivity. Qed.

(** C3, as amended: [cache_savings] is
    [cache_read_cost / 0.30 * 3.00 - cache_read_cost], with the default
    entry's rates whatever model produced the cost, and it is at least zero
    whenever [cache_read_cost] is finite and at least zero. *)
Theorem cache_savings_default_rates_nonneg :
  (forall cb,
     CostBreakdown.cache_savings cb
     = (cache_read_cost cb / 0.30 * 3.00 - cache_read_cost cb)%float)
  /\ cache_read_per_mtok DEFAULT_PRICING = 0.30%float
  /\ input_per_mtok DEFAULT_PRICING = 3.00%float
  /\ (forall cb,
        is_finite (cache_read_cost cb) = true ->
        (0 <=? cache_read_cost cb)%float = true ->
        (0 <=? CostBreakdown.cache_savings cb)%float = true).
Proof.
  split; [reflexivity|]. split; [reflexivity|]. split; [reflexivity|].
  intros cb Hfin Hpos.
  change (CostBreakdown.cache_savings cb)
    with (cache_read_cost cb / 0.30 * 3.00 - cache_read_cost cb)%float.
  set (x := cache_read_cost cb) in *.
  rewrite leb_zero_nonneg in *. unfold nonneg in *.
  rewrite sub_spec, mul_spec, div_spec.
  change (Prim2SF 0.30) with (S754_finite false 5404319552844595 (-54)).
  change (Prim2SF 3.00) with (S754_finite false 6755399441055744 (-51)).
  apply savings_nonneg_sf.
  - apply Prim2SF_valid.
  - exact Hpos.
  - now apply is_finite_not_infinity.
Qed.

Lemma cache_savings_default_rates_nonneg_witness :
  (0 <=? CostBreakdown.cache_savings (cost_breakdown Examples.cached_summary))%float = true.
Proof.
  exact (proj2 (proj2 (proj2 cache_savings_default_rates_nonneg))
           (cost_breakdown Examples.cached_summary) eq_refl eq_refl).
Defined.

(** C3, as stated, fails: an infinite [cache_read_cost] is at least zero, and
    its [cache_savings], [inf - inf], is not a number. [calculate_cost] itself
    returns such a cost for cache reads at the Opus rate. *)
Lemma cache_savings_nan_at_infinity :
  (0 <=? cache_read_cost Examples.infinite_cache_read)%float = true
  /\ (0 <=? CostBreakdown.cache_savings Examples.infinite_cache_read)%float = false
  /\ is_nan (CostBreakdown.cache_savings Examples.infinite_cache_read) = true
  /\ calculate_cost Examples.huge_cache_reads (Some Examples.opus)
     = Ok Examples.infinite_cache_read.
Proof. repeat split; vm_compute; reflexivity. Qed.

Lemma get_project_breakdown_spec cep ps :
  well_formed ps ->
  get_project_breakdown cep ps = mapM (Spec.project_summary cep) ps.
Proof.
  intros H. unfold get_project_breakdown. rewrite project_loop_spec by exact H.
  destruct (mapM (Spec.project_summary cep) ps); reflexivity.
Qed.

Lemma get_project_breakdown_keys cep ps :
  well_formed ps ->
  (Forall (fun stats => Spec.in_range (Sessions.total_tokens stats) = true) (values ps) ->
   exists r, get_project_breakdown cep ps = Ok r)
  /\ (forall r, get_project_breakdown cep ps = Ok r -> keys r = keys ps).
Proof.
  intros Hw. split.
  - apply project_loop_ok.
  - intros r H. rewrite get_project_breakdown_spec in H by assumption.
    apply project_summaries_Forall2 in H. unfold keys.
    induction H as [|kv b items bs (Hk & _) _ IH]; cbn; [reflexivity|].
    inversion Hw; subst. rewrite Hk. f_equal. now apply IH.
Qed.

(** C4, as amended: [get_project_breakdown] returns one entry per project in
    the order in which the session parser reports the projects; it does not
    sort them by cost. The result, and so its order, is the same at every call
    over the same parser output. *)
Theorem project_breakdown_keeps_parser_order :
  forall cep ps,
    well_formed ps ->
    (Forall (fun stats => Spec.in_range (Sessions.total_tokens stats) = true) (values ps) ->
     exists r, get_project_breakdown cep ps = Ok r)
    /\ (forall r, get_project_breakdown cep ps = Ok r -> keys r = keys ps)
    /\ (forall r r',
          get_project_breakdown cep ps = Ok r ->
          get_project_breakdown cep ps = Ok r' -> r = r').
Proof.
  intros cep ps Hw.
  destruct (get_project_breakdown_keys cep ps Hw) as [Hok Hkeys].
  split; [exact Hok|]. split; [exact Hkeys|]. congruence.
Qed.

Lemma two_projects_well_formed : well_formed Examples.two_projects.
Proof.
  unfold well_formed. cbn. repeat constructor; cbn; intuition discriminate.
Defined.

Lemma project_breakdown_keeps_parser_order_witness :
  exists r,
    get_project_breakdown Examples.no_cache_efficiency Examples.two_projects = Ok r
    /\ keys r = ["alpha"; "beta"]%string.
Proof.
  destruct (project_breakdown_keeps_parser_order
              Examples.no_cache_efficiency Examples.two_projects
              two_projects_well_formed) as (Hok & Hkeys & _).
  destruct Hok as [r Hr].
  - repeat constructor.
  - exists r. split; [exact Hr|exact (Hkeys r Hr)].
Defined.

(** C4, as stated, fails: two projects reported cheaper first come back
    cheaper first. *)
Lemma project_breakdown_not_sorted :
  exists r,
    get_project_breakdown Examples.no_cache_efficiency Examples.two_projects = Ok r
    /\ keys r = ["alpha"; "beta"]%string
    /\ ~ Spec.descending (fun x => TokenSummary.total_cost (snd x)) r
    /\ ~ Spec.strictly_descending (fun x => TokenSummary.total_cost (snd x)) r.
Proof.
  eexists. split; [reflexivity|]. split; [reflexivity|].
  split; intros H; apply StronglySorted_inv in H as [_ H];
    apply Forall_inv in H; cbn in H; discriminate.
Qed.

(** C5: every entry of [get_project_breakdown] carries the project's merged
    total [TokenUsage] and the cost of that total at the rates of the default
    pricing entry; the per-model usage of the project is not read at all. *)
Theorem project_breakdown_default_rates :
  forall cep ps,
    well_formed ps ->
    (Forall (fun stats => Spec.in_range (Sessions.total_tokens stats) = true) (values ps) ->
     exists r, get_project_breakdown cep ps = Ok r)
    /\ (forall r,
          get_project_breakdown cep ps = Ok r ->
          Forall2
            (fun kv entry =>
               fst entry = fst kv
               /\ total_tokens (snd entry) = Sessions.total_tokens (snd kv)
               /\ exists i o w c,
                    int_truediv (Z.of_N (input_tokens (Sessions.total_tokens (snd kv)))) 1000000 = Ok i
                    /\ int_truediv (Z.of_N (output_tokens (Sessions.total_tokens (snd kv)))) 1000000 = Ok o
                    /\ int_truediv (Z.of_N (cache_creation_input_tokens (Sessions.total_tokens (snd kv)))) 1000000 = Ok w
                    /\ int_truediv (Z.of_N (cache_read_input_tokens (Sessions.total_tokens (snd kv)))) 1000000 = Ok c
                    /\ cost_breakdown (snd entry)
                       = {| input_cost := (i * input_per_mtok DEFAULT_PRICING)%float;
                            output_cost := (o * output_per_mtok DEFAULT_PRICING)%float;
                            cache_write_cost := (w * cache_write_per_mtok DEFAULT_PRICING)%float;
                            cache_read_cost := (c * cache_read_per_mtok DEFAULT_PRICING)%float |})
            ps r)
    /\ (forall ps',
          map (fun kv => (fst kv, Sessions.total_tokens (snd kv))) ps'
          = map (fun kv => (fst kv, Sessions.total_tokens (snd kv))) ps ->
          get_project_breakdown cep ps' = get_project_breakdown cep ps).
Proof.
  intros cep ps Hw. split; [|split].
  - apply project_loop_ok.
  - intros r H. rewrite get_project_breakdown_spec in H by assumption.
    apply project_summaries_Forall2 in H.
    eapply Forall2_impl; [|exact H]. cbn beta.
    intros kv entry (Hk & Ht & Hc). split; [assumption|]. split; [assumption|].
    apply calculate_cost_inv in Hc as (i & o & w & c & Hi & Ho & Hw' & Hc & E).
    exists i, o, w, c. auto.
  - intros ps' H. now apply project_loop_reads_totals.
Qed.

Lemma project_breakdown_default_rates_witness :
  get_project_breakdown Examples.no_cache_efficiency
    [("alpha"%string, Examples.single_model Examples.opus (Examples.usage 1000000 0 0 0));
     ("beta"%string, Examples.single_model Examples.haiku (Examples.usage 5000000 0 0 0))]
  = get_project_breakdown Examples.no_cache_efficiency Examples.two_projects.
Proof.
  exact (proj2 (proj2 (project_breakdown_default_rates
                         Examples.no_cache_efficiency Examples.two_projects
                         two_projects_well_formed)) _ eq_refl).
Defined.

Lemma sorted_dict {V} (key : string * V -> float) (d : dict V) :
  well_formed d -> dict_of_items (sorted_reverse key d) = sorted_reverse key d.
Proof.
  intros H. apply dict_of_items_well_formed.
  apply (Permutation_NoDup (l := map fst d)); [|exact H].
  apply Permutation_map. symmetry. apply sorted_reverse_perm.
Qed.

Lemma get_model_breakdown_spec stats :
  well_formed (model_usage stats) ->
  get_model_breakdown stats
  = (entries <- Spec.priced (model_usage stats) ;; Ok (sorted_reverse entry_cost entries)).
Proof.
  intros H. unfold get_model_breakdown.
  rewrite breakdown_loop_priced by exact H.
  destruct (Spec.priced (model_usage stats)) as [entries|e] eqn:E; cbn [bind app]; [|reflexivity].
  rewrite sorted_dict; [reflexivity|].
  unfold well_formed. now rewrite (priced_keys _ _ E).
Qed.




Module BreakdownFacts.

Lemma dict_get_set_same {V} (d : dict V) k v : dict_get (dict_set d k v) k = Some v.
Proof.
  induction d as [|[k' v'] d IH]; cbn.
  - now rewrite String.eqb_refl.
  - destruct (String.eqb_spec k' k) as [->|Hne]; cbn.
    + now rewrite String.eqb_refl.
    + destruct (String.eqb_spec k' k); [contradiction|assumption].
Qed.

Lemma dict_get_set_other {V} (d : dict V) k v k' :
  k' <> k -> dict_get (dict_set d k v) k' = dict_get d k'.
Proof.
  intros Hne. induction d as [|[k0 v0] d IH]; cbn.
  - destruct (String.eqb_spec k k'); [congruence|reflexivity].
  - destruct (String.eqb_spec k0 k) as [->|Hk]; cbn.
    + destruct (String.eqb_spec k k'); [congruence|reflexivity].
    + destruct (String.eqb_spec k0 k'); [reflexivity|assumption].
Qed.

(** A project that the rest of the loop does not name keeps its entry. *)
Lemma by_project_loop_untouched items : forall acc r p,
  by_project_loop items acc = Ok r -> ~ In p (map fst items) ->
  dict_get r p = dict_get acc p.
Proof.
  induction items as [|[project stats] items IH]; intros acc r p H Hp;
    cbn [by_project_loop] in H.
  - now inversion H.
  - apply bind_ok in H as (models & _ & H). cbn [map fst In] in Hp.
    assert (Hp1 : ~ In p (map fst items)) by tauto.
    assert (Hp2 : p <> project) by (intros ->; tauto).
    destruct models as [|entry models].
    + now apply IH.
    + rewrite (IH _ _ p H Hp1). now apply dict_get_set_other.
Qed.

Lemma by_project_loop_lookup items : forall acc r,
  by_project_loop items acc = Ok r -> NoDup (map fst items) ->
  forall p stats,
    In (p, stats) items -> model_usage stats <> [] ->
    exists m, dict_get r p = Some m /\ get_model_breakdown stats = Ok m.
Proof.
  induction items as [|[project stats0] items IH]; intros acc r H Hnd p stats Hin Hne;
    [contradiction|].
  cbn [by_project_loop] in H. cbn [map fst] in Hnd.
  inversion Hnd as [|? ? Hfresh Hnd']; subst.
  apply bind_ok in H as (models & Hm & H).
  destruct Hin as [E|Hin].
  - inversion E; subst project stats0. clear E.
    pose proof (breakdown_loop_empty _ _ _ Hm) as He.
    destruct models as [|entry models]; [exfalso; apply Hne, He; reflexivity|].
    exists (dict_of_items (sorted_reverse entry_cost (entry :: models))). split.
    + rewrite (by_project_loop_untouched _ _ _ p H Hfresh). apply dict_get_set_same.
    + unfold get_model_breakdown. now rewrite Hm.
  - destruct models as [|entry models]; eapply IH; eassumption.
Qed.

Lemma dict_get_permutation {V} (d d' : dict V) k :
  well_formed d -> Permutation d d' -> dict_get d' k = dict_get d k.
Proof.
  intros Hw Hp.
  assert (Hw' : well_formed d').
  { unfold well_formed, keys. eapply Permutation_NoDup; [|exact Hw].
    now apply Permutation_map. }
  destruct (dict_get d k) as [v|] eqn:E.
  - apply dict_get_In in E. apply In_dict_get; [assumption|].
    eapply Permutation_in; eassumption.
  - destruct (dict_get d' k) as [v'|] eqn:E'; [|reflexivity].
    apply dict_get_In in E'. apply (Permutation_in _ (Permutation_sym Hp)) in E'.
    apply (In_dict_get _ _ _ Hw) in E'. congruence.
Qed.

End BreakdownFacts.
Import BreakdownFacts.

Lemma project_costs_ordered py (d : dict (dict (TokenUsage * float))) :
  Forall (fun x => Spec.descending entry_cost (snd x) /\ keys_nonneg entry_cost (snd x)) d ->
  keys_ordered (project_cost py) d.
Proof.
  unfold keys_nonneg, keys_ordered. intros H. eapply Forall_impl; [|exact H]. cbn beta.
  intros x [_ Hx]. unfold project_cost, values. apply ordered_sum.
  rewrite map_map. apply Forall_map. exact Hx.
Qed.

(** C7: in the result of [get_model_by_project_breakdown] the models of every
    project are ordered by cost, greatest first, and the projects are ordered
    by the sum of the costs of their models, greatest first, whichever way
    the interpreter computes [sum]. The projects listed are those of the
    parser that used some model, each once; the key a project is sorted by
    is the sum of the costs listed under it; and the models listed under a
    project are that project's own, each with its usage and the total cost
    that [calculate_cost] gives it at the model's rates. *)
Theorem model_by_project_sorted :
  forall py ps,
    (Forall (fun stats =>
               Forall (fun t => Spec.in_range t = true) (values (model_usage stats)))
            (values ps) ->
     exists r, get_model_by_project_breakdown py ps = Ok r)
    /\ (forall r,
          get_model_by_project_breakdown py ps = Ok r ->
          Forall (fun x => Spec.descending entry_cost (snd x)) r
          /\ Spec.descending (project_cost py) r
          /\ NoDup (keys r)
          /\ (forall p,
                In p (keys r)
                <-> exists stats, In (p, stats) ps /\ model_usage stats <> [])
          /\ (forall x, project_cost py x = Py.sum py (map entry_cost (snd x)))
          /\ (well_formed ps ->
              forall p stats,
                In (p, stats) ps -> model_usage stats <> [] ->
                well_formed (model_usage stats) ->
                exists entries models,
                  Spec.priced (model_usage stats) = Ok entries
                  /\ keys entries = keys (model_usage stats)
                  /\ dict_get r p = Some models
                  /\ In (p, models) r
                  /\ Permutation models entries
                  /\ Spec.descending entry_cost models)).
Proof.
  intros py ps. unfold get_model_by_project_breakdown. split.
  - intros H. destruct (by_project_loop_ok ps [] H) as [res ->]. cbn. eauto.
  - intros r H. apply bind_ok in H as (res & Hres & H). inversion H; subst. clear H.
    pose proof (by_project_loop_keys _ _ _ Hres) as Hkeys.
    pose proof (by_project_loop_lookup _ _ _ Hres) as Hlook.
    apply by_project_loop_invariant in Hres as [Hw Hall]; [|constructor|constructor].
    rewrite (sorted_dict (project_cost py) res Hw).
    pose proof (sorted_reverse_perm (project_cost py) res) as Hp.
    assert (Hsorted : Spec.descending (project_cost py)
                        (sorted_reverse (project_cost py) res)).
    { apply sorted_reverse_descending. now apply project_costs_ordered. }
    split; [|split; [|split; [|split; [|split]]]].
    + apply (Permutation_Forall (Permutation_sym Hp)).
      eapply Forall_impl; [|exact Hall]. cbn beta. tauto.
    + exact Hsorted.
    + apply (Permutation_NoDup (l := keys res)); [|exact Hw].
      unfold keys. apply Permutation_map. now symmetry.
    + intros p.
      assert (Hk : In p (keys (sorted_reverse (project_cost py) res)) <-> In p (keys res)).
      { unfold keys. split; apply Permutation_in, Permutation_map;
          [exact Hp|now symmetry]. }
      rewrite Hk, (Hkeys p). cbn [keys map In]. tauto.
    + intros x. unfold project_cost, values, entry_cost. now rewrite map_map.
    + intros Hps p stats Hin Hne Hwm.
      destruct (Hlook Hps p stats Hin Hne) as (m & Hm & Hb).
      rewrite get_model_breakdown_spec in Hb by exact Hwm.
      apply bind_ok in Hb as (entries & He & Hb). inversion Hb; subst m. clear Hb.
      exists entries, (sorted_reverse entry_cost entries).
      assert (Hget : dict_get (sorted_reverse (project_cost py) res) p
                     = Some (sorted_reverse entry_cost entries)).
      { rewrite (dict_get_permutation res); [assumption|assumption|now symmetry]. }
      split; [assumption|]. split; [now apply priced_keys|].
      split; [assumption|]. split; [now apply dict_get_In|].
      split; [apply sorted_reverse_perm|].
      apply sorted_reverse_descending, keys_nonneg_ordered.
      now apply priced_nonneg in He.
Qed.

Lemma model_by_project_sorted_witness :
  exists r entries models,
    get_model_by_project_breakdown CPython_3_12 Examples.two_projects = Ok r
    /\ keys r = ["beta"%string; "alpha"%string]
    /\ Spec.descending (project_cost CPython_3_12) r
    /\ Spec.priced [(Examples.sonnet, Examples.usage 5000000 0 0 0)] = Ok entries
    /\ dict_get r "beta" = Some models
    /\ Permutation models entries.
Proof.
  destruct (model_by_project_sorted CPython_3_12 Examples.two_projects)
    as (Hok & Hsorted).
  destruct Hok as [r Hr].
  - repeat constructor.
  - destruct (Hsorted r Hr) as (_ & Hdesc & _ & _ & _ & Hentries).
    destruct (Hentries two_projects_well_formed "beta"%string
                (Examples.single_model Examples.sonnet (Examples.usage 5000000 0 0 0)))
      as (entries & models & He & _ & Hget & _ & Hperm & _).
    + right. left. reflexivity.
    + discriminate.
    + unfold well_formed. cbn. repeat constructor. intros [].
    + exists r, entries, models. split; [exact Hr|].
      split; [vm_compute in Hr; inversion Hr; reflexivity|]. auto.
Defined.

(** C8, as amended: for every integer [n >= 0] with
    [n <= DBL_MAX * 1_000_000], [format_token_count n] is: for
    [n >= 1_000_000] the quotient [n / 1_000_000] printed with one decimal (a
    numeral, a point and one digit) followed by [M]; for
    [1_000 <= n < 1_000_000] the quotient [n / 1_000] printed with no decimal
    (a numeral) followed by [K]; otherwise the decimal numeral of [n] itself.
    999 gives "999", 1_000 gives "1K" and 1_000_000 gives "1.0M". *)
Theorem format_token_count_cases :
  (forall n,
     (0 <= n)%Z -> Spec.divides_in_range n 1000000 = true ->
     ((1000000 <= n)%Z ->
      exists x whole frac,
        int_truediv n 1000000 = Ok x
        /\ format_token_count n = Ok (format_fixed 1 x ++ "M")%string
        /\ format_fixed 1 x = (whole ++ "." ++ frac)%string
        /\ Spec.is_numeral whole
        /\ Spec.is_digits frac = true /\ String.length frac = 1%nat)
     /\ ((1000 <= n < 1000000)%Z ->
         format_token_count n
         = Ok (format_fixed 0 (float_of_small_int n / 1000)%float ++ "K")%string
         /\ Spec.is_numeral (format_fixed 0 (float_of_small_int n / 1000)%float))
     /\ ((n < 1000)%Z ->
         format_token_count n = Ok (str_int n)
         /\ option_map Z.of_int (NilZero.int_of_string (str_int n)) = Some n))
  /\ format_token_count 999 = Ok "999"%string
  /\ format_token_count 1000 = Ok "1K"%string
  /\ format_token_count 1000000 = Ok "1.0M"%string.
Proof.
  split; [|repeat split; reflexivity].
  intros n Hn Hrange. unfold format_token_count. split; [|split].
  - intros Hge. destruct (Z.leb_spec 1000000 n) as [_|]; [|lia].
    destruct (int_truediv_spec n 1000000 8589934592000000 (-33) Hn ltac:(lia) eq_refl)
      as [_ Hok].
    destruct (Hok Hrange) as [x Hx].
    pose proof (per_million_finite n x Hn Hx) as Hfin.
    destruct (format_fixed_finite 1 x Hfin) as [k Hk].
    destruct (render_fixed_1 k) as (whole & frac & Hr & Hw & Hf & Hl).
    exists x, whole, frac. rewrite Hx. cbn [bind].
    split; [reflexivity|]. split; [reflexivity|]. rewrite Hk. auto.
  - intros [Hlo Hhi].
    destruct (Z.leb_spec 1000000 n) as [|_]; [lia|].
    destruct (Z.leb_spec 1000 n) as [_|]; [|lia].
    assert (Hdiv : int_truediv n 1000 = Ok (float_of_small_int n / 1000)%float).
    { unfold int_truediv. cbn [Z.eqb].
      assert (Hs : is_small_int n = true).
      { unfold is_small_int. apply Z.ltb_lt. lia. }
      rewrite Hs. reflexivity. }
    rewrite Hdiv. cbn [bind]. split; [reflexivity|].
    pose proof (per_thousand_finite n _ Hn Hdiv) as Hfin.
    destruct (format_fixed_finite 0 _ Hfin) as [k ->]. apply render_fixed_0.
  - intros Hlt.
    destruct (Z.leb_spec 1000000 n) as [|_]; [lia|].
    destruct (Z.leb_spec 1000 n) as [|_]; [lia|].
    split; [reflexivity|apply str_int_reads_back].
Qed.

Lemma format_token_count_cases_witness :
  exists x whole frac,
    int_truediv 123456789 1000000 = Ok x
    /\ format_token_count 123456789 = Ok (format_fixed 1 x ++ "M")%string
    /\ format_fixed 1 x = (whole ++ "." ++ frac)%string
    /\ Spec.is_numeral whole
    /\ Spec.is_digits frac = true /\ String.length frac = 1%nat.
Proof.
  apply (proj1 format_token_count_cases 123456789%Z); [lia|reflexivity|lia].
Defined.

(** C8, as stated, fails: a count whose quotient by one million is beyond the
    doubles makes the division raise. *)
Lemma format_token_count_overflow :
  (0 <= Z.of_N Examples.astronomical)%Z
  /\ format_token_count (Z.of_N Examples.astronomical) = Raise OverflowError.
Proof. split; [apply N2Z.is_nonneg|vm_compute; reflexivity]. Qed.

(** C9: for every [TokenSummary], [net_cost] is [total_cost], both the total
    of the cost breakdown: the cache savings are not subtracted, even where
    they are positive. *)
Theorem net_cost_is_total_cost :
  (forall s,
     TokenSummary.net_cost s = TokenSummary.total_cost s
     /\ TokenSummary.total_cost s = CostBreakdown.total_cost (cost_breakdown s))
  /\ (0 <? TokenSummary.cache_savings Examples.cached_summary)%float = true
  /\ (TokenSummary.net_cost Examples.cached_summary
      =? TokenSummary.total_cost Examples.cached_summary
         - TokenSummary.cache_savings Examples.cached_summary)%float = false.
Proof. split; [intros s; split; reflexivity|]. split; reflexivity. Qed.

Lemma Forall2_dict_get {A V} (Q : string * A -> V -> Prop)
  (items : list (string * A)) (d : dict V) :
  Forall2 (fun kv b => fst b = fst kv /\ Q kv (snd b)) items d ->
  NoDup (map fst items) ->
  forall k a, In (k, a) items -> exists v, dict_get d k = Some v /\ Q (k, a) v.
Proof.
  induction 1 as [|[k0 a0] [k1 v1] items d [Hk HQ] _ IH]; intros Hnd k a Hin; [contradiction|].
  cbn [fst snd map] in *. subst k1. inversion Hnd as [|? ? Hfresh Hnd']; subst.
  cbn [dict_get]. destruct Hin as [E|Hin].
  - inversion E; subst. rewrite String.eqb_refl. eauto.
  - destruct (String.eqb_spec k0 k) as [->|Hne].
    + exfalso. apply Hfresh. change k with (fst (k, a)). now apply in_map.
    + now apply IH.
Qed.

(** C10: a project is a key of the result of [get_model_by_project_breakdown]
    exactly when its per-model usage is not empty, whereas
    [get_project_breakdown] has an entry for every project the parser reports:
    the project's merged total at the default rates, which for a project with
    no usage is the zero [TokenUsage] with zero costs. *)
Theorem empty_projects_only_in_project_breakdown :
  forall py cep ps,
    well_formed ps ->
    (Forall (fun stats =>
               Forall (fun t => Spec.in_range t = true) (values (model_usage stats))
               /\ Spec.in_range (Sessions.total_tokens stats) = true)
            (values ps) ->
     exists r1 r2,
       get_model_by_project_breakdown py ps = Ok r1
       /\ get_project_breakdown cep ps = Ok r2)
    /\ (forall r1,
          get_model_by_project_breakdown py ps = Ok r1 ->
          forall p,
            In p (keys r1)
            <-> exists stats, In (p, stats) ps /\ model_usage stats <> [])
    /\ (forall r2,
          get_project_breakdown cep ps = Ok r2 ->
          keys r2 = keys ps
          /\ forall p stats,
               In (p, stats) ps ->
               exists s,
                 dict_get r2 p = Some s
                 /\ total_tokens s = Sessions.total_tokens stats
                 /\ calculate_cost (Sessions.total_tokens stats) None
                    = Ok (cost_breakdown s)
                 /\ (model_usage stats = [] -> Spec.consistent stats ->
                     total_tokens s = Spec.zero_usage
                     /\ cost_breakdown s = zero_cost)).
Proof.
  intros py cep ps Hw. split; [|split].
  - intros H.
    destruct (by_project_loop_ok ps []) as [res Hres].
    { eapply Forall_impl; [|exact H]. cbn beta. tauto. }
    destruct (project_loop_ok cep ps []) as [r2 Hr2].
    { eapply Forall_impl; [|exact H]. cbn beta. tauto. }
    unfold get_model_by_project_breakdown, get_project_breakdown.
    rewrite Hres. cbn [bind]. eauto.
  - intros r1 H p. unfold get_model_by_project_breakdown in H.
    apply bind_ok in H as (res & Hres & H). inversion H; subst. clear H.
    pose proof (by_project_loop_keys _ _ _ Hres p) as Hkeys.
    apply by_project_loop_invariant in Hres as [Hwr _]; [|constructor|constructor].
    rewrite (sorted_dict (project_cost py) res Hwr).
    assert (Hp : Permutation (keys (sorted_reverse (project_cost py) res)) (keys res)).
    { unfold keys. apply Permutation_map. apply sorted_reverse_perm. }
    split.
    + intros Hin. apply (Permutation_in _ Hp) in Hin. apply Hkeys in Hin as [[]|Hin].
      exact Hin.
    + intros Hin. apply (Permutation_in _ (Permutation_sym Hp)). apply Hkeys. now right.
  - intros r2 H.
    split; [exact (proj2 (get_project_breakdown_keys cep ps Hw) r2 H)|].
    rewrite get_project_breakdown_spec in H by assumption.
    apply project_summaries_Forall2 in H.
    intros p stats Hin.
    destruct (Forall2_dict_get
                (fun kv s => total_tokens s = Sessions.total_tokens (snd kv)
                             /\ calculate_cost (Sessions.total_tokens (snd kv)) None
                                = Ok (cost_breakdown s))
                ps r2 H Hw p stats Hin) as (s & Hs & Ht & Hc).
    cbn [snd] in Ht, Hc. exists s. split; [assumption|]. split; [assumption|].
    split; [assumption|]. intros Hu Hcons.
    unfold Spec.consistent in Hcons. rewrite Hu in Hcons. cbn in Hcons.
    rewrite Hcons in Ht, Hc. split; [assumption|].
    change (calculate_cost Spec.zero_usage None) with (Ok zero_cost) in Hc.
    congruence.
Qed.

Lemma projects_with_idle_well_formed : well_formed Examples.projects_with_idle.
Proof.
  unfold well_formed. cbn. repeat constructor; cbn; intuition discriminate.
Defined.

Lemma empty_projects_only_in_project_breakdown_witness :
  exists r1 r2,
    get_model_by_project_breakdown CPython_3_11 Examples.projects_with_idle = Ok r1
    /\ get_project_breakdown Examples.no_cache_efficiency Examples.projects_with_idle = Ok r2
    /\ ~ In "idle"%string (keys r1)
    /\ keys r2 = ["alpha"; "idle"; "beta"]%string.
Proof.
  destruct (empty_projects_only_in_project_breakdown
              CPython_3_11 Examples.no_cache_efficiency Examples.projects_with_idle
              projects_with_idle_well_formed) as (Hok & Hiff & Hall).
  destruct Hok as (r1 & r2 & H1 & H2).
  - repeat constructor.
  - exists r1, r2. split; [exact H1|]. split; [exact H2|]. split.
    + intros Hin. apply (Hiff r1 H1) in Hin as (stats & Hin & Hne).
      cbn in Hin. destruct Hin as [E|[E|[E|[]]]]; inversion E; subst.
      apply Hne. reflexivity.
    + exact (proj1 (Hall r2 H2)).
Defined.

(** ** Further properties *)

Module ValueFacts.
Local Open Scope Z_scope.

Lemma F2R_IZR m : F2R m 0 = IZR m.
Proof. unfold F2R, bpow. cbn. ring. Qed.

(** A positive value with at most 53 bits above the least exponent is a
    float. *)
Lemma canonical_of_bits m e :
  0 < m < 2 ^ 53 -> -1022 <= e ->
  exists m' e', canonical m' e' /\ F2R m' e' = F2R m e /\ e' <= e.
Proof.
  intros Hm He.
  pose proof (Zdigits2_bounds m ltac:(lia)) as Hd.
  pose proof (Zdigits2_pos m ltac:(lia)) as Hp.
  assert (Hd53 : Zdigits2 m <= 53) by (apply Zdigits2_le; lia).
  set (k := 53 - Zdigits2 m).
  exists (m * 2 ^ k), (e - k). split; [|split].
  - split.
    + apply Z.mul_pos_pos; [lia|]. apply Z.pow_pos_nonneg; unfold k; lia.
    + rewrite Zdigits2_mul_pow2 by (unfold k; lia).
      rewrite fexp_eq. unfold k. lia.
  - rewrite <- F2R_shift by (unfold k; lia). f_equal. lia.
  - unfold k. lia.
Qed.

Lemma rounds_to_exact v m e mF eF :
  rounds_to v m e -> canonical mF eF -> v = F2R mF eF -> F2R m e = v.
Proof.
  intros (_ & _ & Hl & Hu) HF ->.
  apply Rle_antisym; [apply Hu|apply Hl]; try assumption; apply Rle_refl.
Qed.

Lemma canonical_unique m1 e1 m2 e2 :
  canonical m1 e1 -> canonical m2 e2 -> F2R m1 e1 = F2R m2 e2 -> m1 = m2 /\ e1 = e2.
Proof.
  assert (W : forall m1 e1 m2 e2, e1 <= e2 ->
    canonical m1 e1 -> canonical m2 e2 -> F2R m1 e1 = F2R m2 e2 -> m1 = m2 /\ e1 = e2).
  { clear. intros m1 e1 m2 e2 Hle [H1 C1] [H2 C2] E.
    replace e2 with (e1 + (e2 - e1)) in E by lia.
    rewrite F2R_shift in E by lia. apply F2R_eq in E.
    assert (Hd : Zdigits2 m1 = Zdigits2 m2 + (e2 - e1)).
    { rewrite E. apply Zdigits2_mul_pow2; lia. }
    assert (He : e1 = e2).
    { rewrite <- C1, <- C2. f_equal. lia. }
    subst e2. rewrite Z.sub_diag, Z.pow_0_r in E. lia. }
  intros H1 H2 E. destruct (Z_le_gt_dec e1 e2) as [Hle|Hgt].
  - now apply W.
  - destruct (W m2 e2 m1 e1 ltac:(lia) H2 H1 (eq_sym E)). auto.
Qed.

(** Rounding a float gives the float back. *)
Lemma rounds_to_float m e mF eF :
  rounds_to (F2R mF eF) m e -> canonical mF eF -> m = mF /\ e = eF.
Proof.
  intros Hr HF. pose proof (rounds_to_exact _ _ _ _ _ Hr HF eq_refl) as E.
  destruct Hr as (H0 & Hc & _).
  assert (Hm : 0 < m).
  { destruct (Z.eq_dec m 0) as [->|]; [|lia].
    rewrite F2R_0 in E. pose proof (F2R_pos mF eF (proj1 HF)). lra. }
  apply canonical_unique; auto.
Qed.

End ValueFacts.

Module QuotientFacts.
Import ValueFacts.
Local Open Scope Z_scope.

(** Integers below [2^53] convert to doubles exactly. *)
Lemma float_of_small_int_value a :
  0 < a < 2 ^ 53 ->
  exists m e,
    Prim2SF (float_of_small_int a) = S754_finite false m e
    /\ canonical (Zpos m) e /\ F2R (Zpos m) e = IZR a.
Proof.
  intros Ha. destruct a as [|p|p]; try lia.
  unfold float_of_small_int. rewrite of_uint63_spec.
  assert (E : Uint63.to_Z (Uint63.of_Z (Zpos p)) = Zpos p).
  { rewrite Uint63.of_Z_spec. apply Z.mod_small.
    change Uint63.wB with (2 ^ 63). assert (2 ^ 53 < 2 ^ 63) by reflexivity. lia. }
  rewrite E. cbn [binary_normalize].
  destruct (binary_round_spec false p 0) as (m2 & e2 & -> & Hr).
  destruct (canonical_of_bits (Zpos p) 0 Ha ltac:(lia)) as (mF & eF & HF & EF & HeF).
  rewrite <- EF in Hr. destruct (rounds_to_float _ _ _ _ Hr HF) as [-> ->].
  destruct HF as [Hpos HcF]. destruct mF as [|q|q]; try lia.
  cbn [pack]. destruct (Z.leb_spec eF (emax - prec)) as [_|Hgt].
  - exists q, eF. split; [reflexivity|]. split; [split; assumption|].
    rewrite EF. apply F2R_IZR.
  - unfold emax, prec in Hgt. lia.
Qed.

Lemma quotient_bounds a b :
  0 < a -> 0 < b < 2 ^ 53 ->
  (F2R (2 ^ 52) (-105) <= IZR a / IZR b <= IZR a)%R.
Proof.
  intros Ha Hb.
  assert (Hb1 : (1 <= IZR b)%R) by (apply IZR_le; lia).
  assert (Hb2 : (IZR b <= IZR (2 ^ 53))%R) by (apply IZR_le; lia).
  assert (Ha1 : (1 <= IZR a)%R) by (apply IZR_le; lia).
  assert (E : F2R (2 ^ 52) (-105) = (/ IZR (2 ^ 53))%R).
  { unfold F2R, bpow. change (-105) with (- (105)). rewrite powerRZ_neg'.
    rewrite <- (Zpower_pos_powerRZ 2 105).
    change (Z.pow_pos 2 105) with (2 ^ 52 * 2 ^ 53). rewrite mult_IZR.
    field. split; apply not_0_IZR; discriminate. }
  assert (Hp : (0 < IZR (2 ^ 53))%R) by (apply IZR_lt; reflexivity).
  split.
  - rewrite E. unfold Rdiv.
    apply Rle_trans with (1 * / IZR b)%R.
    + rewrite Rmult_1_l. apply Rinv_le_contravar; lra.
    + apply Rmult_le_compat_r; [|lra]. left. apply Rinv_0_lt_compat. lra.
  - apply Rle_trans with (IZR a / 1)%R; [|lra].
    unfold Rdiv. apply Rmult_le_compat_l; [lra|].
    apply Rinv_le_contravar; lra.
Qed.

Lemma tiny_canonical : canonical (2 ^ 52) (-105).
Proof. split; reflexivity. Qed.

(** What [a / b] returns on positive integers, the divisor below [2^53]: the
    exact quotient rounded to a double, which is positive and finite. *)
Lemma int_truediv_value a b x :
  0 < a -> 0 < b < 2 ^ 53 -> int_truediv a b = Ok x ->
  exists p e,
    Prim2SF x = S754_finite false p e /\ canonical (Zpos p) e /\ e <= 971
    /\ rounds_to (IZR a / IZR b) (Zpos p) e.
Proof.
  intros Ha Hb. destruct (quotient_bounds a b Ha Hb) as [Hlo Hhi].
  unfold int_truediv.
  destruct (Z.eqb_spec b 0) as [|_]; [lia|].
  destruct (is_small_int a && is_small_int b) eqn:Es.
  - apply andb_true_iff in Es as [Sa _]. unfold is_small_int in Sa.
    apply Z.ltb_lt in Sa. rewrite Z.abs_eq in Sa by lia.
    destruct (float_of_small_int_value a ltac:(lia)) as (ma & ea & Ea & Ca & Va).
    destruct (float_of_small_int_value b Hb) as (mb & eb & Eb & Cb & Vb).
    intros E. inversion E; subst x. clear E.
    rewrite div_spec, Ea, Eb. unfold SF64div.
    destruct (SFdiv_finite_spec false ma ea false mb eb) as (m2 & e2 & -> & Hr).
    rewrite Va, Vb in Hr. cbn [xorb].
    destruct (rounds_to_pos _ _ _ _ _ Hr tiny_canonical Hlo) as (p & -> & Hc & _).
    assert (He : e2 <= 971).
    { destruct Hr as (_ & _ & _ & Hu).
      assert (Hhi' : (IZR a / IZR b <= F2R (Zpos ma) ea)%R) by (rewrite Va; exact Hhi).
      specialize (Hu _ _ Ca Hhi').
      destruct (Prim2SF_canonical _ _ _ _ Ea) as [_ Hea].
      pose proof (F2R_le_DBL_MAX _ _ Ca Hea).
      apply (canonical_le_DBL_MAX _ _ Hc). lra. }
    cbn [pack]. destruct (Z.leb_spec e2 (emax - prec)) as [_|Hgt];
      [|unfold emax, prec in Hgt; lia].
    exists p, e2. auto.
  - destruct b as [|pb|pb]; try lia. destruct a as [|pa|pa]; try lia.
    cbn [int_as_mantissa].
    destruct (SFdiv_finite_spec false pa 0 false pb 0) as (m2 & e2 & -> & Hr).
    rewrite !F2R_IZR in Hr. cbn [xorb].
    destruct (rounds_to_pos _ _ _ _ _ Hr tiny_canonical Hlo) as (p & -> & Hc & _).
    cbn [pack].
    destruct (Z.leb_spec e2 (emax - prec)) as [Hle|Hgt]; [|discriminate].
    assert (V : Prim2SF (SF2Prim (S754_finite false p e2)) = S754_finite false p e2).
    { apply Prim2SF_SF2Prim.
      unfold SpecFloat.valid_binary, SpecFloat.bounded, SpecFloat.canonical_mantissa.
      destruct Hc as [_ Hc]. cbn [Zdigits2] in Hc.
      rewrite Hc, Z.eqb_refl. cbn [andb]. now apply Z.leb_le. }
    intros E.
    assert (Ex : x = SF2Prim (S754_finite false p e2)) by congruence.
    exists p, e2. rewrite Ex, V. unfold emax, prec in Hle. auto.
Qed.

End QuotientFacts.

Module CostFacts.
Import ValueFacts QuotientFacts.
Local Open Scope Z_scope.

Lemma pricing_of_listed model : In (pricing_of model) (values MODEL_PRICING).
Proof.
  unfold pricing_of. destruct model as [m|]; [|left; reflexivity].
  destruct (dict_get MODEL_PRICING m) as [p|] eqn:E; [|left; reflexivity].
  apply dict_get_In in E. unfold values.
  change p with (snd (m, p)). now apply in_map.
Qed.

Lemma rates_moderate model :
  moderate (input_per_mtok (pricing_of model))
  /\ moderate (output_per_mtok (pricing_of model))
  /\ moderate (cache_write_per_mtok (pricing_of model))
  /\ moderate (cache_read_per_mtok (pricing_of model)).
Proof.
  pose proof (pricing_of_listed model) as H. unfold values, MODEL_PRICING in H.
  cbn [map snd] in H.
  destruct H as [<-|[<-|[<-|[]]]];
    cbn [input_per_mtok output_per_mtok cache_write_per_mtok cache_read_per_mtok];
    repeat split;
    match goal with
    | |- moderate ?x =>
        let v := eval vm_compute in (Prim2SF x) in
        match v with
        | S754_finite false ?m ?e => exists m, e; split; [reflexivity|lia]
        end
    end.
Qed.

Lemma moderate_bounds x m e :
  Prim2SF x = S754_finite false m e -> -56 <= e <= -46 ->
  canonical (Zpos m) e /\ (F2R (2 ^ 52) (-56) <= F2R (Zpos m) e <= F2R (2 ^ 53) (-46))%R.
Proof.
  intros E He. destruct (Prim2SF_canonical _ _ _ _ E) as [Hc _].
  split; [assumption|].
  pose proof (canonical_normal _ _ Hc ltac:(lia)) as Hlo.
  destruct (canonical_mantissa_range _ _ Hc) as [Hm _].
  split.
  - apply F2R_le_exp; [lia|].
    assert (1 <= 2 ^ (e - -56)) by (pose proof (Z.pow_pos_nonneg 2 (e - -56)); lia). nia.
  - apply F2R_le_exp; [lia|].
    assert (1 <= 2 ^ (-46 - e)) by (pose proof (Z.pow_pos_nonneg 2 (-46 - e)); lia). nia.
Qed.

Lemma ltb_zero_pack m e : 0 < m -> SFltb (S754_zero false) (pack false m e) = true.
Proof.
  intros H. destruct m as [|p|p]; try lia. cbn [pack].
  now destruct (e <=? emax - prec).
Qed.

Lemma F2R_mul_le m1 e1 m2 e2 m3 e3 m4 e4 :
  (0 <= F2R m1 e1 <= F2R m3 e3)%R -> (0 <= F2R m2 e2 <= F2R m4 e4)%R ->
  (F2R (m1 * m2) (e1 + e2) <= F2R (m3 * m4) (e3 + e4))%R.
Proof. intros H1 H2. rewrite !F2R_mul. nra. Qed.

(** A counter prices to zero exactly when it is zero: the quotient by one
    million and the product with a rate do not underflow. *)
Lemma per_million_cost_positive n q rate :
  int_truediv (Z.of_N n) 1000000 = Ok q -> moderate rate ->
  (0 <? q * rate)%float = (0 <? n)%N.
Proof.
  intros Hq (mr & er & Er & Her).
  destruct (moderate_bounds _ _ _ Er Her) as (Cr & Hrlo & Hrhi).
  rewrite ltb_spec, mul_spec, Er. change (Prim2SF 0) with (S754_zero false).
  destruct (N.ltb_spec 0 n) as [Hn|Hn].
  - destruct (int_truediv_value (Z.of_N n) 1000000 q ltac:(lia) ltac:(lia) Hq)
      as (p & e & Eq & Cq & He & Hr).
    rewrite Eq. unfold SF64mul.
    destruct (SFmul_finite_spec false p e false mr er Cq Cr) as (m2 & e2 & -> & Hr2).
    cbn [xorb]. apply ltb_zero_pack.
    assert (Hq20 : (F2R (2 ^ 52) (-72) <= F2R (Zpos p) e)%R).
    { destruct Hr as (_ & _ & Hl & _). apply Hl; [split; reflexivity|].
      assert (H1 : (1 <= IZR (Z.of_N n))%R) by (apply IZR_le; lia).
      assert (E : F2R (2 ^ 52) (-72) = (/ IZR (2 ^ 20))%R).
      { unfold F2R, bpow. change (-72) with (- (72)). rewrite powerRZ_neg'.
        rewrite <- (Zpower_pos_powerRZ 2 72).
        change (Z.pow_pos 2 72) with (2 ^ 52 * 2 ^ 20). rewrite mult_IZR.
        field. split; apply not_0_IZR; discriminate. }
      rewrite E. unfold Rdiv.
      assert (H2 : (/ IZR (2 ^ 20) <= / 1000000)%R).
      { apply Rinv_le_contravar; [lra|]. apply IZR_le. vm_compute. discriminate. }
      assert (H3 : (0 < / 1000000)%R) by (apply Rinv_0_lt_compat; lra).
      nra. }
    assert (Hv : (F2R (2 ^ 52) (-128) <= F2R (Zpos p) e * F2R (Zpos mr) er)%R).
    { assert (E : F2R (2 ^ 52) (-128) = (F2R (2 ^ 52) (-72) * F2R 1 (-56))%R).
      { rewrite <- F2R_mul. reflexivity. }
      assert (E' : (F2R 1 (-56) <= F2R (2 ^ 52) (-56))%R) by (apply F2R_le; lia).
      pose proof (F2R_pos 1 (-56) ltac:(lia)).
      pose proof (F2R_pos (2 ^ 52) (-72) ltac:(lia)).
      rewrite E. nra. }
    assert (Ct : canonical (2 ^ 52) (-128)) by (split; reflexivity).
    destruct (rounds_to_pos _ _ _ _ _ Hr2 Ct Hv) as (p2 & -> & _).
    lia.
  - assert (n = 0%N) by lia. subst n.
    cbn in Hq. inversion Hq; subst q.
    reflexivity.
Qed.

End CostFacts.

Module RangeFacts.
Import ValueFacts QuotientFacts CostFacts.
Local Open Scope Z_scope.

Lemma power_canonical eB : -1074 <= eB -> canonical (2 ^ 52) eB.
Proof. intros H. split; [reflexivity|]. rewrite fexp_eq. change (Zdigits2 (2 ^ 52)) with 53. lia. Qed.

Lemma at_most_finite eB x : at_most eB x -> is_finite x = true.
Proof.
  unfold is_finite, is_nan, is_infinity. rewrite !eqb_spec, abs_spec.
  intros [[s E]|(p & e & E & _)]; rewrite E; cbn; [reflexivity|].
  unfold SFeqb. cbn [SFcompare].
  rewrite Z.compare_refl. change (Pos.compare_cont Eq p p) with (Pos.compare p p).
  rewrite Pos.compare_refl. reflexivity.
Qed.

Lemma at_most_nonneg eB x : at_most eB x -> nonneg x = true.
Proof. unfold nonneg. intros [[s E]|(p & e & E & _)]; rewrite E; reflexivity. Qed.

Lemma at_most_weaken e1 e2 x : e1 <= e2 -> at_most e1 x -> at_most e2 x.
Proof.
  intros He [H|(p & e & E & C & Hv)]; [now left|right].
  exists p, e. split; [assumption|]. split; [assumption|].
  eapply Rle_trans; [exact Hv|]. apply F2R_le_exp; [assumption|].
  assert (1 <= 2 ^ (e2 - e1)) by (pose proof (Z.pow_pos_nonneg 2 (e2 - e1)); lia). nia.
Qed.

(** A rounding of a value of at most a power of two is at most that power. *)
Lemma pack_at_most v m2 e2 eB y :
  rounds_to v m2 e2 -> -1074 <= eB <= 971 -> (v <= F2R (2 ^ 52) eB)%R ->
  Prim2SF y = pack false m2 e2 -> at_most eB y.
Proof.
  intros Hr HeB Hv Ey.
  pose proof (power_canonical eB ltac:(lia)) as Cb.
  destruct (rounds_to_finite false _ _ _ _ _ Hr Cb ltac:(lia) Hv)
    as [E|(p & -> & E & Cp & He)]; rewrite E in Ey.
  - left. eauto.
  - right. exists p, e2. split; [assumption|]. split; [assumption|].
    destruct Hr as (_ & _ & _ & Hu). now apply Hu.
Qed.

Lemma per_million_at_most n q :
  Z.of_N n < 2 ^ 63 -> int_truediv (Z.of_N n) 1000000 = Ok q -> at_most (-8) q.
Proof.
  intros Hn Hq. destruct (N.eq_dec n 0) as [->|Hne].
  - cbn in Hq. inversion Hq. left. exists false. reflexivity.
  - destruct (int_truediv_value (Z.of_N n) 1000000 q ltac:(lia) ltac:(lia) Hq)
      as (p & e & Eq & Cq & He & Hr).
    right. exists p, e. split; [assumption|]. split; [assumption|].
    destruct Hr as (_ & _ & _ & Hu). apply Hu; [now apply power_canonical|].
    assert (E : F2R (2 ^ 52) (-8) = IZR (2 ^ 44)).
    { unfold F2R, bpow. change (-8) with (- (8)). rewrite powerRZ_neg'.
      rewrite <- (Zpower_pos_powerRZ 2 8).
      change (2 ^ 52) with (2 ^ 44 * Z.pow_pos 2 8). rewrite mult_IZR.
      field. apply not_0_IZR. discriminate. }
    rewrite E.
    assert (H1 : (IZR (Z.of_N n) <= IZR (2 ^ 63))%R) by (apply IZR_le; lia).
    assert (H2 : (IZR (2 ^ 63) <= IZR (2 ^ 44) * 1000000)%R).
    { rewrite <- mult_IZR. apply IZR_le. vm_compute. discriminate. }
    apply Rle_trans with (IZR (2 ^ 63) / 1000000)%R.
    + unfold Rdiv. apply Rmult_le_compat_r; [|assumption].
      left. apply Rinv_0_lt_compat. lra.
    + apply Rmult_le_reg_r with 1000000%R; [lra|].
      unfold Rdiv. rewrite Rmult_assoc, Rinv_l by lra. lra.
Qed.

Lemma mul_at_most eB x r :
  -1074 <= eB -> eB + 7 <= 971 ->
  at_most eB x -> moderate r -> at_most (eB + 7) (x * r)%float.
Proof.
  intros H1 H2 Hx (mr & er & Er & Her).
  destruct (moderate_bounds _ _ _ Er Her) as (Cr & Hrlo & Hrhi).
  destruct Hx as [[s E]|(p & e & E & C & Hv)].
  - left. exists (xorb s false). rewrite mul_spec, E, Er. reflexivity.
  - destruct (SFmul_finite_spec false p e false mr er C Cr) as (m2 & e2 & E2 & Hr).
    apply (pack_at_most _ m2 e2 (eB + 7) _ Hr); [lia| |].
    + pose proof (F2R_pos (Zpos p) e ltac:(lia)).
      pose proof (F2R_pos (Zpos mr) er ltac:(lia)).
      assert (E7 : F2R (2 ^ 52) (eB + 7) = (F2R (2 ^ 52) eB * F2R (2 ^ 53) (-46))%R).
      { rewrite <- F2R_mul. replace (eB + -46) with (eB + 7 + -53) by lia.
        change (2 ^ 52 * 2 ^ 53) with (2 ^ 52 * 2 ^ 53).
        replace (eB + 7) with (eB + 7 + -53 + 53) at 1 by lia.
        rewrite F2R_shift by lia. reflexivity. }
      rewrite E7. nra.
    + rewrite mul_spec, E, Er. exact E2.
Qed.

Lemma SFadd_finite_spec mx ex my ey :
  exists m2 e2,
    SFadd prec emax (S754_finite false mx ex) (S754_finite false my ey) = pack false m2 e2
    /\ rounds_to (F2R (Zpos mx) ex + F2R (Zpos my) ey) m2 e2.
Proof.
  cbn [SFadd cond_Zopp]. set (ez := Z.min ex ey).
  assert (Ex : F2R (Zpos mx) ex = F2R (Zpos (fst (shl_align mx ex ez))) ez).
  { rewrite shl_align_value by (unfold ez; lia).
    rewrite <- F2R_shift by (unfold ez; lia). f_equal. lia. }
  assert (Ey : F2R (Zpos my) ey = F2R (Zpos (fst (shl_align my ey ez))) ez).
  { rewrite shl_align_value by (unfold ez; lia).
    rewrite <- F2R_shift by (unfold ez; lia). f_equal. lia. }
  rewrite Ex, Ey.
  replace (F2R (Zpos (fst (shl_align mx ex ez))) ez + F2R (Zpos (fst (shl_align my ey ez))) ez)%R
    with (F2R (Zpos (fst (shl_align mx ex ez)) + Zpos (fst (shl_align my ey ez))) ez)
    by (unfold F2R; rewrite plus_IZR; ring).
  cbn [Z.add binary_normalize]. apply binary_round_spec.
Qed.

Lemma add_at_most eB x y :
  -1074 <= eB -> eB + 1 <= 971 ->
  at_most eB x -> at_most eB y -> at_most (eB + 1) (x + y)%float.
Proof.
  intros H1 H2 Hx Hy.
  assert (E1 : F2R (2 ^ 52) (eB + 1) = (F2R (2 ^ 52) eB + F2R (2 ^ 52) eB)%R).
  { rewrite F2R_shift by lia. unfold F2R. rewrite mult_IZR. cbn. ring. }
  destruct Hx as [[sx Ex]|(px & ex & Ex & Cx & Hvx)];
  destruct Hy as [[sy Ey]|(py & ey & Ey & Cy & Hvy)].
  - left. rewrite add_spec, Ex, Ey. destruct sx, sy; eexists; reflexivity.
  - apply at_most_weaken with eB; [lia|]. right. exists py, ey.
    rewrite add_spec, Ex, Ey. auto.
  - apply at_most_weaken with eB; [lia|]. right. exists px, ex.
    rewrite add_spec, Ex, Ey. auto.
  - destruct (SFadd_finite_spec px ex py ey) as (m2 & e2 & E2 & Hr).
    apply (pack_at_most _ m2 e2 (eB + 1) _ Hr); [lia|rewrite E1; lra|].
    rewrite add_spec, Ex, Ey. exact E2.
Qed.

End RangeFacts.

(** X1: whenever [calculate_cost] returns, none of the four costs nor
    their total is negative or NaN. *)
Theorem calculate_cost_never_negative :
  forall tokens model c,
    calculate_cost tokens model = Ok c ->
    (0 <=? input_cost c)%float = true
    /\ (0 <=? output_cost c)%float = true
    /\ (0 <=? cache_write_cost c)%float = true
    /\ (0 <=? cache_read_cost c)%float = true
    /\ (0 <=? CostBreakdown.total_cost c)%float = true.
Proof.
  intros tokens model c H. apply calculate_cost_nonneg in H.
  pose proof (total_cost_nonneg c H) as Ht.
  unfold costs_nonneg in H.
  apply andb_true_iff in H as [H H4]. apply andb_true_iff in H as [H H3].
  apply andb_true_iff in H as [H1 H2].
  rewrite !leb_zero_nonneg. auto.
Qed.

Lemma calculate_cost_never_negative_witness :
  exists c,
    calculate_cost (Examples.usage 7 0 3 0) (Some "unknown-model"%string) = Ok c
    /\ (0 <=? CostBreakdown.total_cost c)%float = true.
Proof.
  eexists. split; [reflexivity|].
  exact (proj2 (proj2 (proj2 (proj2
           (calculate_cost_never_negative
              (Examples.usage 7 0 3 0) (Some "unknown-model"%string) _ eq_refl))))).
Defined.

Import ValueFacts QuotientFacts CostFacts RangeFacts.

(** X2 *)
Theorem cost_is_zero_only_without_tokens :
  forall tokens model c,
    calculate_cost tokens model = Ok c ->
    (0 <? input_cost c)%float = (0 <? input_tokens tokens)%N
    /\ (0 <? output_cost c)%float = (0 <? output_tokens tokens)%N
    /\ (0 <? cache_write_cost c)%float = (0 <? cache_creation_input_tokens tokens)%N
    /\ (0 <? cache_read_cost c)%float = (0 <? cache_read_input_tokens tokens)%N.
Proof.
  intros tokens model c H.
  apply calculate_cost_inv in H as (i & o & w & r & Hi & Ho & Hw & Hr & ->).
  destruct (rates_moderate model) as (M1 & M2 & M3 & M4).
  cbn [input_cost output_cost cache_write_cost cache_read_cost].
  repeat split; now apply per_million_cost_positive.
Qed.

Lemma cost_is_zero_only_without_tokens_witness :
  exists c,
    calculate_cost (Examples.usage 1 0 0 0) (Some Examples.haiku) = Ok c
    /\ (0 <? input_cost c)%float = true
    /\ (0 <? output_cost c)%float = false.
Proof.
  eexists. split; [reflexivity|].
  destruct (cost_is_zero_only_without_tokens
              (Examples.usage 1 0 0 0) (Some Examples.haiku) _ eq_refl)
    as (H1 & H2 & _).
  split; [exact H1|exact H2].
Defined.

Lemma fits_int64_in_range tokens : fits_int64 tokens -> Spec.in_range tokens = true.
Proof.
  intros (H1 & H2 & H3 & H4). unfold Spec.in_range, Spec.divides_in_range.
  assert (B : (2 ^ 63 <= Spec.DBL_MAX * 1000000)%Z) by (vm_compute; discriminate).
  rewrite !andb_true_iff. repeat split; apply Z.leb_le; lia.
Qed.

(** X3 *)
Theorem costs_finite_for_int64_counters :
  forall tokens model,
    fits_int64 tokens ->
    exists c,
      calculate_cost tokens model = Ok c
      /\ is_finite (input_cost c) = true
      /\ is_finite (output_cost c) = true
      /\ is_finite (cache_write_cost c) = true
      /\ is_finite (cache_read_cost c) = true
      /\ is_finite (CostBreakdown.total_cost c) = true
      /\ (0 <=? CostBreakdown.cache_savings c)%float = true.
Proof.
  intros tokens model Hfit.
  destruct (calculate_cost_ok tokens model (fits_int64_in_range _ Hfit)) as [c Hc].
  exists c. split; [assumption|].
  pose proof (calculate_cost_nonneg _ _ _ Hc) as Hnn.
  apply calculate_cost_inv in Hc as (i & o & w & r & Hi & Ho & Hw & Hr & ->).
  destruct Hfit as (F1 & F2 & F3 & F4).
  destruct (rates_moderate model) as (M1 & M2 & M3 & M4).
  apply per_million_at_most in Hi, Ho, Hw, Hr; try assumption.
  pose proof (mul_at_most (-8) _ _ ltac:(lia) ltac:(lia) Hi M1) as A1.
  pose proof (mul_at_most (-8) _ _ ltac:(lia) ltac:(lia) Ho M2) as A2.
  pose proof (mul_at_most (-8) _ _ ltac:(lia) ltac:(lia) Hw M3) as A3.
  pose proof (mul_at_most (-8) _ _ ltac:(lia) ltac:(lia) Hr M4) as A4.
  cbn [input_cost output_cost cache_write_cost cache_read_cost] in *.
  repeat (split; [eapply at_most_finite; eassumption|]).
  split.
  - unfold CostBreakdown.total_cost.
    cbn [input_cost output_cost cache_write_cost cache_read_cost].
    pose proof (add_at_most (-8 + 7) _ _ ltac:(lia) ltac:(lia) A1 A2) as S1.
    apply (at_most_weaken _ (-8 + 7 + 1)%Z) in A3; [|lia].
    pose proof (add_at_most (-8 + 7 + 1) _ _ ltac:(lia) ltac:(lia) S1 A3) as S2.
    apply (at_most_weaken _ (-8 + 7 + 1 + 1)%Z) in A4; [|lia].
    pose proof (add_at_most (-8 + 7 + 1 + 1) _ _ ltac:(lia) ltac:(lia) S2 A4) as S3.
    eapply at_most_finite; exact S3.
  - set (x := (r * cache_read_per_mtok (pricing_of model))%float) in *.
    change (CostBreakdown.cache_savings _) with (x / 0.30 * 3.00 - x)%float.
    rewrite leb_zero_nonneg. unfold nonneg.
    rewrite sub_spec, mul_spec, div_spec.
    change (Prim2SF 0.30) with (S754_finite false 5404319552844595 (-54)).
    change (Prim2SF 3.00) with (S754_finite false 6755399441055744 (-51)).
    apply savings_nonneg_sf.
    + apply Prim2SF_valid.
    + eapply at_most_nonneg; exact A4.
    + apply is_finite_not_infinity. eapply at_most_finite; exact A4.
Qed.

Lemma costs_finite_for_int64_counters_witness :
  exists c,
    calculate_cost (Examples.usage 0 0 0 (2 ^ 62)) (Some Examples.opus) = Ok c
    /\ is_finite (CostBreakdown.total_cost c) = true
    /\ (0 <=? CostBreakdown.cache_savings c)%float = true.
Proof.
  destruct (costs_finite_for_int64_counters
              (Examples.usage 0 0 0 (2 ^ 62)) (Some Examples.opus))
    as (c & Hc & _ & _ & _ & _ & Ht & Hs).
  - repeat split; reflexivity.
  - exists c. auto.
Defined.

(** X4: in the result of [get_model_by_project_breakdown], the entry of
    a project that used some model is exactly what [get_model_breakdown]
    returns for that project's own statistics. *)
Theorem project_entry_is_model_breakdown :
  forall py ps r,
    well_formed ps ->
    get_model_by_project_breakdown py ps = Ok r ->
    forall p stats,
      In (p, stats) ps -> model_usage stats <> [] ->
      exists m, dict_get r p = Some m /\ get_model_breakdown stats = Ok m.
Proof.
  intros py ps r Hw H p stats Hin Hne. unfold get_model_by_project_breakdown in H.
  apply bind_ok in H as (res & Hres & H). inversion H; subst r. clear H.
  destruct (by_project_loop_lookup _ _ _ Hres Hw p stats Hin Hne) as (m & Hm & Hb).
  exists m. split; [|assumption].
  apply by_project_loop_invariant in Hres as [Hwr _]; [|constructor|constructor].
  rewrite (sorted_dict (project_cost py) res Hwr).
  rewrite (dict_get_permutation res); [assumption|assumption|].
  symmetry. apply sorted_reverse_perm.
Qed.

Lemma project_entry_is_model_breakdown_witness :
  exists r m,
    get_model_by_project_breakdown CPython_3_12 Examples.projects_with_idle = Ok r
    /\ dict_get r "beta" = Some m
    /\ keys m = [Examples.opus; Examples.haiku].
Proof.
  eexists. 
  destruct (project_entry_is_model_breakdown CPython_3_12 Examples.projects_with_idle _
              projects_with_idle_well_formed eq_refl "beta"%string
              {| model_usage := [(Examples.haiku, Examples.usage 1000000 0 0 0);
                                 (Examples.opus, Examples.usage 2000000 0 0 0)];
                 Sessions.total_tokens := Examples.usage 3000000 0 0 0 |})
    as (m & Hm & Hb).
  - right. right. left. reflexivity.
  - discriminate.
  - exists m. split; [reflexivity|]. split; [exact Hm|].
    vm_compute in Hb. inversion Hb. reflexivity.
Defined.

Module OrderFacts.





Section DistinctKeys.
Context {A : Type} (key : A -> float).



End DistinctKeys.
End OrderFacts.
Import OrderFacts.




Module SummaryFacts.

Lemma model_costs_ok items :
  Forall (fun t => Spec.in_range t = true) (values items) ->
  exists cs, Spec.model_costs items = Ok cs.
Proof.
  unfold Spec.model_costs, values.
  induction items as [|[model tokens] items IH]; cbn [mapM map snd fst]; intros H.
  - eauto.
  - inversion H as [|? ? Ht Hl]; subst. destruct (IH Hl) as [cs Hcs].
    destruct (calculate_cost_ok tokens (Some model) Ht) as [c Hc].
    rewrite Hc. cbn [bind]. rewrite Hcs. cbn [bind]. eauto.
Qed.

Lemma model_costs_nonneg items cs :
  Spec.model_costs items = Ok cs -> Forall (fun c => costs_nonneg c = true) cs.
Proof.
  intros H. apply mapM_ok_Forall2 in H.
  induction H as [|kv c items cs Hc _ IH]; constructor; [|assumption].
  now apply calculate_cost_nonneg in Hc.
Qed.

Lemma accumulate_nonneg cs : forall total,
  costs_nonneg total = true -> Forall (fun c => costs_nonneg c = true) cs ->
  costs_nonneg (fold_left accumulate cs total) = true.
Proof.
  induction cs as [|c cs IH]; intros total Ht H; cbn [fold_left]; [assumption|].
  inversion H as [|? ? Hc Hcs]; subst. apply IH; [|assumption].
  unfold costs_nonneg in *.
  apply andb_true_iff in Ht as [Ht T4]. apply andb_true_iff in Ht as [Ht T3].
  apply andb_true_iff in Ht as [T1 T2].
  apply andb_true_iff in Hc as [Hc C4]. apply andb_true_iff in Hc as [Hc C3].
  apply andb_true_iff in Hc as [C1 C2].
  unfold accumulate. cbn [input_cost output_cost cache_write_cost cache_read_cost].
  rewrite !nonneg_add by assumption. reflexivity.
Qed.

End SummaryFacts.
Import SummaryFacts.

(** X6: [get_summary] returns whenever every per-model counter divides
    within the doubles. Its summary carries the parser's grand total and that
    total's cache efficiency unchanged, its four costs and their total are
    never negative or NaN, and the costs are read off the per-model usage
    alone: they are all zero when no model was used, whatever the grand total
    says. *)
Theorem get_summary_invariants :
  forall cep stats,
    (Forall (fun t => Spec.in_range t = true) (values (model_usage stats)) ->
     exists s, get_summary cep stats = Ok s)
    /\ (forall s,
          get_summary cep stats = Ok s ->
          total_tokens s = Sessions.total_tokens stats
          /\ cache_efficiency_pct s = cep (Sessions.total_tokens stats)
          /\ (0 <=? input_cost (cost_breakdown s))%float = true
          /\ (0 <=? output_cost (cost_breakdown s))%float = true
          /\ (0 <=? cache_write_cost (cost_breakdown s))%float = true
          /\ (0 <=? cache_read_cost (cost_breakdown s))%float = true
          /\ (0 <=? TokenSummary.total_cost s)%float = true
          /\ (model_usage stats = [] -> cost_breakdown s = zero_cost)
          /\ (forall stats' s',
                model_usage stats' = model_usage stats ->
                get_summary cep stats' = Ok s' ->
                cost_breakdown s' = cost_breakdown s)).
Proof.
  intros cep stats. unfold get_summary. split.
  - intros H. rewrite summary_loop_spec.
    destruct (model_costs_ok _ H) as [cs ->]. cbn [bind]. eauto.
  - intros s H. apply bind_ok in H as (total & Ht & H). inversion H; subst s. clear H.
    cbn [total_tokens cache_efficiency_pct cost_breakdown].
    split; [reflexivity|]. split; [reflexivity|].
    assert (Hn : costs_nonneg total = true).
    { rewrite summary_loop_spec in Ht. apply bind_ok in Ht as (cs & Hcs & Ht).
      inversion Ht; subst total.
      apply accumulate_nonneg; [reflexivity|now apply model_costs_nonneg in Hcs]. }
    pose proof (total_cost_nonneg _ Hn) as Hsum.
    unfold costs_nonneg in Hn.
    apply andb_true_iff in Hn as [Hn H4]. apply andb_true_iff in Hn as [Hn H3].
    apply andb_true_iff in Hn as [H1 H2].
    unfold TokenSummary.total_cost. cbn [cost_breakdown].
    rewrite !leb_zero_nonneg.
    repeat (split; [assumption|]). split.
    + intros E. rewrite E in Ht. cbn in Ht. now inversion Ht.
    + intros stats' s' E H'. rewrite E, Ht in H'. cbn [bind] in H'.
      inversion H'. reflexivity.
Qed.

Lemma get_summary_invariants_witness :
  exists s,
    get_summary Examples.no_cache_efficiency Examples.mixed_models = Ok s
    /\ total_tokens s = Examples.usage 2000000 0 0 0
    /\ (0 <=? TokenSummary.total_cost s)%float = true.
Proof.
  destruct (get_summary_invariants Examples.no_cache_efficiency Examples.mixed_models)
    as [Hok Hinv].
  destruct Hok as [s Hs]; [repeat constructor|].
  destruct (Hinv s Hs) as (H1 & _ & _ & _ & _ & _ & H7 & _).
  exists s. auto.
Defined.

Module RoundingFacts.
Import ValueFacts QuotientFacts.
Local Open Scope Z_scope.

(** [round_half_even_div] returns the nearest integer to [num / den], the
    even one of the two when they are equally near; no other integer is. *)
Lemma round_half_even_div_unique num den k :
  0 < den ->
  (2 * Z.abs (num - k * den) < den
   \/ (2 * Z.abs (num - k * den) = den /\ Z.even k = true)) ->
  round_half_even_div num den = k.
Proof.
  intros Hd H. unfold round_half_even_div.
  pose proof (Z.div_mod num den ltac:(lia)) as E.
  pose proof (Z.mod_pos_bound num den Hd) as Hr.
  set (q := num / den) in *. set (r := num mod den) in *.
  assert (Hk : k = q \/ k = q + 1) by nia.
  destruct (Z.compare_spec (2 * r) den) as [Heq|Hlt|Hgt].
  - destruct H as [H|[H Hev]]; [nia|].
    destruct Hk as [->| ->].
    + now rewrite Hev.
    + rewrite Z.add_1_r, Z.even_succ in Hev. rewrite <- Z.negb_even in Hev.
      destruct (Z.even q); [discriminate|reflexivity].
  - destruct Hk as [->| ->]; [reflexivity|]. exfalso. destruct H as [H|[H _]]; nia.
  - destruct Hk as [->| ->]; [|reflexivity]. exfalso. destruct H as [H|[H _]]; nia.
Qed.

Lemma round_half_even_div_spec num den :
  0 < den ->
  let k := round_half_even_div num den in
  2 * Z.abs (num - k * den) <= den
  /\ (2 * Z.abs (num - k * den) = den -> Z.even k = true).
Proof.
  intros Hd. unfold round_half_even_div.
  pose proof (Z.div_mod num den ltac:(lia)) as E.
  pose proof (Z.mod_pos_bound num den Hd) as Hr.
  set (q := num / den) in *. set (r := num mod den) in *.
  destruct (Z.compare_spec (2 * r) den) as [Heq|Hlt|Hgt]; cbv zeta.
  - destruct (Z.even q) eqn:Ev.
    + split; [nia|]. intros _. exact Ev.
    + split; [nia|]. intros _. rewrite Z.add_1_r, Z.even_succ, <- Z.negb_even, Ev.
      reflexivity.
  - split; [nia|]. intros H. nia.
  - split; [nia|]. intros H. nia.
Qed.

Lemma round_half_even_div_scale num den c :
  0 < den -> 0 < c ->
  round_half_even_div (num * c) (den * c) = round_half_even_div num den.
Proof.
  intros Hd Hc. apply round_half_even_div_unique; [nia|].
  destruct (round_half_even_div_spec num den Hd) as [H1 H2].
  set (k := round_half_even_div num den) in *.
  replace (num * c - k * (den * c)) with ((num - k * den) * c) by ring.
  rewrite Z.abs_mul, (Z.abs_eq c) by lia.
  destruct (Z.eq_dec (2 * Z.abs (num - k * den)) den) as [E|N].
  - right. split; [nia|auto].
  - left. nia.
Qed.

End RoundingFacts.

Module FormatFacts.
Import ValueFacts QuotientFacts RoundingFacts.
Local Open Scope Z_scope.

Lemma F2R_div M j : 0 <= j -> F2R M (- j) = (IZR M / IZR (2 ^ j))%R.
Proof.
  intros Hj. unfold F2R, bpow. rewrite powerRZ_neg', <- (bpow_IZR j Hj). reflexivity.
Qed.

Lemma IZR_div_le a b c d :
  0 < b -> 0 < d -> a * d <= c * b -> (IZR a / IZR b <= IZR c / IZR d)%R.
Proof.
  intros Hb Hd H. apply IZR_le in H. rewrite !mult_IZR in H.
  apply IZR_lt in Hb, Hd.
  apply Rmult_le_reg_r with (IZR b * IZR d)%R; [nra|].
  replace (IZR a / IZR b * (IZR b * IZR d))%R with (IZR a * IZR d)%R by (field; lra).
  replace (IZR c / IZR d * (IZR b * IZR d))%R with (IZR c * IZR b)%R by (field; lra).
  assumption.
Qed.

(** A rounding of a value that lies between two multiples of [2^-j] with at
    most 53 bits lies between them too. *)
Lemma rounds_to_between num den p e lo hi j :
  rounds_to (IZR num / IZR den) (Zpos p) e ->
  0 < den -> 0 <= j <= 1022 -> e <= - j ->
  0 < lo < 2 ^ 53 -> 0 < hi < 2 ^ 53 ->
  lo * den <= num * 2 ^ j -> num * 2 ^ j <= hi * den ->
  lo * 2 ^ (- j - e) <= Zpos p <= hi * 2 ^ (- j - e).
Proof.
  intros (_ & _ & Hl & Hu) Hden Hj He Hlo Hhi H1 H2.
  assert (Hp : 0 < 2 ^ j) by (apply Z.pow_pos_nonneg; lia).
  destruct (canonical_of_bits lo (- j) Hlo ltac:(lia)) as (ml & el & Cl & El & _).
  destruct (canonical_of_bits hi (- j) Hhi ltac:(lia)) as (mh & eh & Ch & Eh & _).
  assert (Sh : forall M, F2R M (- j) = F2R (M * 2 ^ (- j - e)) e).
  { intros M. rewrite <- F2R_shift by lia. f_equal. lia. }
  split.
  - apply (F2R_le _ _ e). rewrite <- Sh, <- El. apply Hl; [assumption|].
    rewrite El, F2R_div by lia. apply IZR_div_le; lia.
  - apply (F2R_le _ _ e). rewrite <- Sh, <- Eh. apply Hu; [assumption|].
    rewrite Eh, F2R_div by lia. apply IZR_div_le; lia.
Qed.

(** The greater of two floats has the greater exponent. *)
Lemma canonical_exponent_le m e mF eF :
  canonical m e -> canonical mF eF -> (F2R m e <= F2R mF eF)%R -> e <= eF.
Proof.
  intros Hc HF Hle.
  destruct (Z_le_gt_dec e eF) as [|Hgt]; [assumption|exfalso].
  destruct (canonical_mantissa_range _ _ HF) as [HmF HeF].
  pose proof (canonical_normal _ _ Hc ltac:(lia)) as Hn.
  assert (H1 : (F2R mF eF < F2R (2 ^ 53) eF)%R) by (apply F2R_lt; lia).
  assert (H2 : (F2R (2 ^ 53) eF <= F2R m e)%R).
  { apply F2R_le_exp; [lia|].
    assert (2 ^ 1 <= 2 ^ (e - eF)) by (apply Z.pow_le_mono_r; lia).
    rewrite Z.pow_1_r in *. change (2 ^ 53) with (2 ^ 52 * 2). nia. }
  lra.
Qed.

Lemma render_fixed_0_str_int k : 0 <= k -> render_fixed 0 k = str_int k.
Proof.
  intros Hk. unfold render_fixed, str_int.
  set (digits := NilZero.string_of_uint (N.to_uint (Z.to_N k))).
  pose proof (numeral_length _ (numeral_string_of_uint (N.to_uint (Z.to_N k)))) as Hl.
  fold digits in Hl.
  replace (1 - String.length digits)%nat with 0%nat by lia.
  cbn [zeros append]. unfold digits. destruct k as [|q|q]; try lia; reflexivity.
Qed.

End FormatFacts.

Import ValueFacts QuotientFacts RoundingFacts FormatFacts.

(** X7: for [1_000 <= n < 1_000_000], [format_token_count n] is the
    decimal numeral of the integer nearest to [n / 1_000], the even one when
    [n] is half-way, followed by [K]; so from 999_500 on it reads [1000K]. *)
Theorem thousands_round_half_even :
  (forall n,
     (1000 <= n < 1000000)%Z ->
     exists k,
       format_token_count n = Ok (str_int k ++ "K")%string
       /\ (2 * Z.abs (n - 1000 * k) <= 1000)%Z
       /\ ((2 * Z.abs (n - 1000 * k) = 1000)%Z -> Z.even k = true))
  /\ (forall n,
        (999500 <= n < 1000000)%Z -> format_token_count n = Ok "1000K"%string).
Proof.
  assert (Main : forall n, (1000 <= n < 1000000)%Z ->
            format_token_count n
            = Ok (str_int (round_half_even_div n 1000) ++ "K")%string).
  { intros n Hn. unfold format_token_count.
    destruct (Z.leb_spec 1000000 n) as [|_]; [lia|].
    destruct (Z.leb_spec 1000 n) as [_|]; [|lia].
    assert (Hdiv : int_truediv n 1000 = Ok (float_of_small_int n / 1000)%float).
    { unfold int_truediv. cbn [Z.eqb].
      assert (Hs : is_small_int n = true).
      { unfold is_small_int. apply Z.ltb_lt. lia. }
      rewrite Hs. reflexivity. }
    rewrite Hdiv. cbn [bind]. do 2 f_equal.
    destruct (int_truediv_value n 1000 _ ltac:(lia) ltac:(lia) Hdiv)
      as (p & e & Eq & Cq & _ & Hr).
    unfold format_fixed. rewrite Eq. cbn [sign_prefix append].
    (* the quotient is below 1024 *)
    assert (C1000 : canonical (1000 * 2 ^ 43) (-43)) by (split; reflexivity).
    assert (He : (e <= -43)%Z).
    { apply (canonical_exponent_le _ _ _ _ Cq C1000).
      destruct Hr as (_ & _ & _ & Hu). apply Hu; [assumption|].
      change (-43)%Z with (- (43))%Z. rewrite F2R_div by lia.
      change 1000%R with (IZR 1000). apply IZR_div_le; [lia|reflexivity|].
      change (2 ^ 43)%Z with 8796093022208%Z. lia. }
    set (k := (n / 1000)%Z). set (r := (n mod 1000)%Z).
    pose proof (Z.div_mod n 1000 ltac:(lia)) as En. fold k r in En.
    pose proof (Z.mod_pos_bound n 1000 ltac:(lia)) as Hrb. fold r in Hrb.
    assert (Hk : (1 <= k < 1000)%Z) by (unfold k; split;
      [apply Z.div_le_lower_bound; lia|apply Z.div_lt_upper_bound; lia]).
    set (D := (2 ^ (- (10) - e))%Z).
    assert (HD : (0 < D)%Z) by (apply Z.pow_pos_nonneg; lia).
    assert (Ed : (2 ^ Z.pos (Z.to_pos (- e)) = 1024 * D)%Z).
    { rewrite Z2Pos.id by lia. unfold D.
      replace (- e)%Z with (10 + (- (10) - e))%Z at 1 by lia.
      rewrite Z.pow_add_r by lia. reflexivity. }
    assert (Esc : scaled_round 0 p e = round_half_even_div (Zpos p) (1024 * D)).
    { unfold scaled_round. destruct e as [|pe|pe]; try lia.
      cbn [Z.of_nat]. rewrite Z.pow_0_r, Z.mul_1_r.
      change (Z.neg pe) with (- Z.pos pe)%Z in Ed.
      rewrite Z.opp_involutive, Pos2Z.id in Ed. now rewrite Ed. }
    rewrite Esc. clear Esc Ed.
    assert (Hbetween : forall lo hi,
              (0 < lo < 2 ^ 53)%Z -> (0 < hi < 2 ^ 53)%Z ->
              (lo * 1000 <= n * 2 ^ 10)%Z -> (n * 2 ^ 10 <= hi * 1000)%Z ->
              (lo * D <= Zpos p <= hi * D)%Z).
    { intros lo hi Hlo Hhi H1 H2.
      apply (rounds_to_between n 1000 p e lo hi 10); try assumption; lia. }
    assert (P53 : (2 ^ 20 < 2 ^ 53)%Z) by reflexivity.
    change (2 ^ 10)%Z with 1024%Z in Hbetween.
    change (2 ^ 20)%Z with 1048576%Z in P53.
    assert (Hrhe : round_half_even_div (Zpos p) (1024 * D) = round_half_even_div n 1000).
    { destruct (Z.lt_trichotomy r 500) as [Hlt|[Heq|Hgt]].
      - destruct (Hbetween (1024 * k) (1024 * k + 511))%Z as [L U]; try lia.
        rewrite (round_half_even_div_unique n 1000 k) by lia.
        apply round_half_even_div_unique; [lia|]. left. lia.
      - destruct (Hbetween (1024 * k + 512) (1024 * k + 512))%Z as [L U]; try lia.
        assert (Ep : Zpos p = ((2 * k + 1) * (512 * D))%Z) by lia.
        replace (1024 * D)%Z with (2 * (512 * D))%Z by ring.
        rewrite Ep, round_half_even_div_scale by lia.
        replace n with ((2 * k + 1) * 500)%Z by lia.
        change 1000%Z with (2 * 500)%Z.
        now rewrite round_half_even_div_scale by lia.
      - destruct (Hbetween (1024 * k + 513) (1024 * (k + 1)))%Z as [L U]; try lia.
        rewrite (round_half_even_div_unique n 1000 (k + 1)) by lia.
        apply round_half_even_div_unique; [lia|]. left. lia. }
    rewrite Hrhe. apply render_fixed_0_str_int.
    destruct (round_half_even_div_spec n 1000 ltac:(lia)) as [Hs _]. lia. }
  split.
  - intros n Hn. exists (round_half_even_div n 1000). split; [now apply Main|].
    destruct (round_half_even_div_spec n 1000 ltac:(lia)) as [H1 H2].
    split; [lia|]. intros H. apply H2. lia.
  - intros n Hn. rewrite Main by lia.
    assert (E : round_half_even_div n 1000 = 1000%Z).
    { apply round_half_even_div_unique; [lia|].
      destruct (Z.eq_dec n 999500) as [->|]; [right; split; reflexivity|left; lia]. }
    rewrite E. reflexivity.
Qed.

Lemma thousands_round_half_even_witness :
  format_token_count 1500 = Ok "2K"%string
  /\ format_token_count 2500 = Ok "2K"%string
  /\ format_token_count 999999 = Ok "1000K"%string.
Proof.
  split; [reflexivity|]. split; [reflexivity|].
  exact (proj2 thousands_round_half_even 999999%Z ltac:(lia)).
Defined.

Module DigitFacts.
Import DecimalFacts.

Lemma app_cons_digit (f : Decimal.uint -> Decimal.uint) x :
  (forall w, to_list (f w) = x :: to_list w) ->
  forall u v, Decimal.app (f u) v = f (Decimal.app u v).
Proof.
  intros Hf u v. apply to_list_inj. now rewrite Hf, !app_spec, Hf.
Qed.

Lemma string_of_uint_app u v :
  NilEmpty.string_of_uint (Decimal.app u v)
  = (NilEmpty.string_of_uint u ++ NilEmpty.string_of_uint v)%string.
Proof.
  induction u as [|u IH|u IH|u IH|u IH|u IH|u IH|u IH|u IH|u IH|u IH].
  - reflexivity.
  - rewrite (app_cons_digit Decimal.D0 d0) by reflexivity. cbn. now rewrite IH.
  - rewrite (app_cons_digit Decimal.D1 d1) by reflexivity. cbn. now rewrite IH.
  - rewrite (app_cons_digit Decimal.D2 d2) by reflexivity. cbn. now rewrite IH.
  - rewrite (app_cons_digit Decimal.D3 d3) by reflexivity. cbn. now rewrite IH.
  - rewrite (app_cons_digit Decimal.D4 d4) by reflexivity. cbn. now rewrite IH.
  - rewrite (app_cons_digit Decimal.D5 d5) by reflexivity. cbn. now rewrite IH.
  - rewrite (app_cons_digit Decimal.D6 d6) by reflexivity. cbn. now rewrite IH.
  - rewrite (app_cons_digit Decimal.D7 d7) by reflexivity. cbn. now rewrite IH.
  - rewrite (app_cons_digit Decimal.D8 d8) by reflexivity. cbn. now rewrite IH.
  - rewrite (app_cons_digit Decimal.D9 d9) by reflexivity. cbn. now rewrite IH.
Qed.

Lemma rev_app_digit (f : Decimal.uint -> Decimal.uint) x :
  (forall w, to_list (f w) = x :: to_list w) ->
  forall u, Decimal.rev (Decimal.app u (f Decimal.Nil)) = f (Decimal.rev u).
Proof.
  intros Hf u. apply to_list_inj.
  rewrite rev_spec, app_spec, Hf, Hf, rev_spec. cbn [to_list].
  rewrite List.rev_app_distr. reflexivity.
Qed.

(** A numeral without leading zeros stays one when digits are appended. *)
Lemma unorm_app u v :
  Decimal.unorm u = u -> u <> Decimal.zero ->
  Decimal.unorm (Decimal.app u v) = Decimal.app u v.
Proof.
  intros Hu Hz. apply to_list_inj. rewrite unorm_spec, app_spec.
  apply (f_equal to_list) in Hu. rewrite unorm_spec in Hu.
  assert (Hz' : to_list u <> lzero).
  { intros E. apply Hz. apply to_list_inj. exact E. }
  set (l := to_list u) in *. unfold lunorm in *.
  destruct l as [|x l'].
  - cbn in Hu. discriminate.
  - destruct x; try reflexivity.
    cbn [lnzhead] in Hu. pose proof (length_lnzhead l') as Hlen.
    destruct (lnzhead l') as [|y t] eqn:E.
    + exfalso. apply Hz'. unfold lzero. congruence.
    + rewrite Hu in Hlen. cbn in Hlen. lia.
Qed.

Lemma to_uint_normal a : Decimal.unorm (N.to_uint a) = N.to_uint a.
Proof.
  rewrite <- (DecimalN.Unsigned.of_to a) at 2. now rewrite DecimalN.Unsigned.to_of.
Qed.

Lemma to_uint_zero a : N.to_uint a = Decimal.zero -> a = 0%N.
Proof.
  intros E. rewrite <- (DecimalN.Unsigned.of_to a), E. reflexivity.
Qed.

(** The digits of [10 * a + b] are those of [a] followed by the digit [b]. *)
Lemma to_uint_app_digit a b :
  (0 < a)%N -> (b < 10)%N ->
  N.to_uint (10 * a + b) = Decimal.app (N.to_uint a) (N.to_uint b).
Proof.
  intros Ha Hb.
  set (d := Decimal.app (N.to_uint a) (N.to_uint b)).
  assert (Hn : Decimal.unorm d = d).
  { apply unorm_app; [apply to_uint_normal|].
    intros E. apply to_uint_zero in E. lia. }
  assert (Hv : N.of_uint d = (10 * a + b)%N).
  { unfold N.of_uint. rewrite DecimalPos.Unsigned.of_uint_alt. unfold d.
    assert (Ea : DecimalPos.Unsigned.of_lu (Decimal.rev (N.to_uint a)) = a).
    { rewrite <- DecimalPos.Unsigned.of_uint_alt. apply DecimalN.Unsigned.of_to. }
    assert (Cases : (b = 0 \/ b = 1 \/ b = 2 \/ b = 3 \/ b = 4 \/ b = 5 \/ b = 6
                     \/ b = 7 \/ b = 8 \/ b = 9)%N) by lia.
    destruct Cases as [->|[->|[->|[->|[->|[->|[->|[->|[->| ->]]]]]]]]];
      match goal with
      | |- context [Decimal.app _ ?v] =>
          let v' := eval compute in v in change v with v'
      end.
    - rewrite (rev_app_digit Decimal.D0 d0) by reflexivity. cbn [DecimalPos.Unsigned.of_lu]. rewrite Ea. lia.
    - rewrite (rev_app_digit Decimal.D1 d1) by reflexivity. cbn [DecimalPos.Unsigned.of_lu]. rewrite Ea. lia.
    - rewrite (rev_app_digit Decimal.D2 d2) by reflexivity. cbn [DecimalPos.Unsigned.of_lu]. rewrite Ea. lia.
    - rewrite (rev_app_digit Decimal.D3 d3) by reflexivity. cbn [DecimalPos.Unsigned.of_lu]. rewrite Ea. lia.
    - rewrite (rev_app_digit Decimal.D4 d4) by reflexivity. cbn [DecimalPos.Unsigned.of_lu]. rewrite Ea. lia.
    - rewrite (rev_app_digit Decimal.D5 d5) by reflexivity. cbn [DecimalPos.Unsigned.of_lu]. rewrite Ea. lia.
    - rewrite (rev_app_digit Decimal.D6 d6) by reflexivity. cbn [DecimalPos.Unsigned.of_lu]. rewrite Ea. lia.
    - rewrite (rev_app_digit Decimal.D7 d7) by reflexivity. cbn [DecimalPos.Unsigned.of_lu]. rewrite Ea. lia.
    - rewrite (rev_app_digit Decimal.D8 d8) by reflexivity. cbn [DecimalPos.Unsigned.of_lu]. rewrite Ea. lia.
    - rewrite (rev_app_digit Decimal.D9 d9) by reflexivity. cbn [DecimalPos.Unsigned.of_lu]. rewrite Ea. lia. }
  rewrite <- Hv, DecimalN.Unsigned.to_of. exact Hn.
Qed.

End DigitFacts.

Module NotationFacts.
Import DigitFacts.
Local Open Scope Z_scope.

Lemma numeral_str_int t : 0 <= t -> numeral t = str_int t.
Proof. intros H. unfold numeral, str_int. destruct t; try lia; reflexivity. Qed.

Lemma numeral_not_nil n : NilZero.string_of_uint (N.to_uint n) = NilEmpty.string_of_uint (N.to_uint n).
Proof.
  destruct (N.to_uint n) eqn:E; try reflexivity.
  destruct n as [|p]; [discriminate|]. cbn in E.
  now apply DecimalPos.Unsigned.to_uint_nonnil in E.
Qed.

Lemma numeral_digit t : 0 <= t < 10 -> String.length (numeral t) = 1%nat.
Proof.
  intros H.
  assert (C : t = 0 \/ t = 1 \/ t = 2 \/ t = 3 \/ t = 4 \/ t = 5 \/ t = 6
              \/ t = 7 \/ t = 8 \/ t = 9) by lia.
  destruct C as [->|[->|[->|[->|[->|[->|[->|[->|[->| ->]]]]]]]]]; reflexivity.
Qed.

Lemma numeral_step t :
  10 <= t -> numeral t = (numeral (t / 10) ++ numeral (t mod 10))%string.
Proof.
  intros H. unfold numeral. rewrite !numeral_not_nil.
  pose proof (Z.div_mod t 10 ltac:(lia)) as E.
  pose proof (Z.mod_pos_bound t 10 ltac:(lia)) as Hr.
  assert (Hq : 0 < t / 10) by (apply Z.div_str_pos; lia).
  replace (Z.to_N t) with (10 * Z.to_N (t / 10) + Z.to_N (t mod 10))%N by lia.
  rewrite to_uint_app_digit by lia. apply string_of_uint_app.
Qed.

Lemma zeros_snoc n : (zeros n ++ "0")%string = zeros (S n).
Proof. induction n as [|n IH]; cbn; [reflexivity|]. now rewrite IH. Qed.

Lemma append_assoc (a b c : string) : ((a ++ b) ++ c)%string = (a ++ (b ++ c))%string.
Proof. induction a as [|x a IH]; cbn; [reflexivity|now rewrite IH]. Qed.

Lemma append_nil_r (a : string) : (a ++ "")%string = a.
Proof. induction a as [|x a IH]; cbn; [reflexivity|now rewrite IH]. Qed.

Lemma padded_step d t :
  0 <= t -> padded (S d) t = (padded d (t / 10) ++ numeral (t mod 10))%string.
Proof.
  intros Ht. unfold padded. destruct (Z_lt_ge_dec t 10) as [Hlt|Hge].
  - rewrite Z.div_small, Z.mod_small by lia.
    rewrite (numeral_digit t) by lia.
    change (String.length (numeral 0)) with 1%nat.
    replace (S (S d) - 1)%nat with (S d) by lia.
    replace (S d - 1)%nat with d by lia.
    change (numeral 0) with "0"%string. now rewrite zeros_snoc.
  - rewrite (numeral_step t) by lia. rewrite length_append.
    pose proof (Z.mod_pos_bound t 10 ltac:(lia)).
    rewrite (numeral_digit (t mod 10)) by lia.
    replace (S (S d) - (String.length (numeral (t / 10)) + 1))%nat
      with (S d - String.length (numeral (t / 10)))%nat by lia.
    now rewrite append_assoc.
Qed.

Lemma length_fraction d : forall r, 0 <= r -> String.length (fraction d r) = d.
Proof.
  induction d as [|d IH]; intros r Hr; [reflexivity|].
  cbn [fraction]. rewrite length_append, IH by (apply Z.div_pos; lia).
  pose proof (Z.mod_pos_bound r 10 ltac:(lia)).
  rewrite <- numeral_str_int, numeral_digit by lia. lia.
Qed.

Lemma padded_fixed d : forall t,
  0 <= t ->
  padded d t
  = (str_int (t / 10 ^ Z.of_nat d) ++ fraction d (t mod 10 ^ Z.of_nat d))%string.
Proof.
  induction d as [|d IH]; intros t Ht.
  - cbn [Z.of_nat fraction]. rewrite Z.pow_0_r, Z.div_1_r, append_nil_r.
    unfold padded.
    pose proof (numeral_length _ (numeral_string_of_uint (N.to_uint (Z.to_N t)))) as Hl.
    fold (numeral t) in Hl.
    replace (1 - String.length (numeral t))%nat with 0%nat by lia.
    cbn [zeros append]. now apply numeral_str_int.
  - rewrite padded_step, IH by (try apply Z.div_pos; lia).
    rewrite Nat2Z.inj_succ, Z.pow_succ_r by lia.
    assert (Hp : 0 < 10 ^ Z.of_nat d) by (apply Z.pow_pos_nonneg; lia).
    cbn [fraction]. rewrite append_assoc.
    rewrite Z.div_div by lia.
    rewrite (Z.rem_mul_r t 10 (10 ^ Z.of_nat d)) by lia.
    pose proof (Z.mod_pos_bound t 10 ltac:(lia)) as Hr.
    pose proof (Z.mod_pos_bound (t / 10) (10 ^ Z.of_nat d) Hp) as Hr2.
    replace ((t mod 10 + 10 * ((t / 10) mod 10 ^ Z.of_nat d)) / 10)
      with ((t / 10) mod 10 ^ Z.of_nat d).
    2:{ rewrite (Z.mul_comm 10), Z.div_add by lia.
        rewrite (Z.div_small (t mod 10)) by lia. lia. }
    replace ((t mod 10 + 10 * ((t / 10) mod 10 ^ Z.of_nat d)) mod 10)
      with (t mod 10).
    2:{ rewrite (Z.mul_comm 10), Z.mod_add by lia.
        now rewrite Z.mod_mod by lia. }
    rewrite numeral_str_int by lia. reflexivity.
Qed.

Lemma substring_app_l a : forall b, substring 0 (String.length a) (a ++ b) = a.
Proof.
  induction a as [|x a IH]; intros b; cbn.
  - destruct b; reflexivity.
  - now rewrite IH.
Qed.

Lemma substring_app_r a : forall b,
  substring (String.length a) (String.length b) (a ++ b) = b.
Proof.
  induction a as [|x a IH]; intros b; cbn.
  - induction b as [|y b IHb]; cbn; [reflexivity|now rewrite IHb].
  - apply IH.
Qed.

(** [render_fixed] with at least one decimal writes a fixed-point numeral. *)
Lemma render_fixed_fixed_point d t :
  0 <= t -> render_fixed (S d) t = fixed_point (S d) t.
Proof.
  intros Ht. unfold render_fixed. fold (numeral t). fold (padded (S d) t).
  rewrite (padded_fixed (S d) t Ht). unfold fixed_point.
  set (A := str_int (t / 10 ^ Z.of_nat (S d))).
  set (B := fraction (S d) (t mod 10 ^ Z.of_nat (S d))).
  assert (HB : String.length B = S d).
  { apply length_fraction. apply Z.mod_pos_bound. apply Z.pow_pos_nonneg; lia. }
  rewrite length_append, HB.
  replace (String.length A + S d - S d)%nat with (String.length A) by lia.
  rewrite substring_app_l. rewrite <- HB at 1. now rewrite substring_app_r.
Qed.

End NotationFacts.

Module CentFacts.
Import ValueFacts QuotientFacts RoundingFacts FormatFacts NotationFacts.
Local Open Scope Z_scope.

Lemma scaled_round_nonneg d m e : 0 <= scaled_round d m e.
Proof.
  unfold scaled_round.
  assert (H10 : 0 < 10 ^ Z.of_nat d) by (apply Z.pow_pos_nonneg; lia).
  destruct e as [|pe|pe].
  - rewrite Z.pow_0_r. nia.
  - assert (0 < 2 ^ Z.pos pe) by (apply Z.pow_pos_nonneg; lia). nia.
  - assert (Hd : 0 < 2 ^ Z.pos pe) by (apply Z.pow_pos_nonneg; lia).
    destruct (round_half_even_div_spec (Z.pos m * 10 ^ Z.of_nat d) (2 ^ Z.pos pe) Hd)
      as [H _].
    assert (0 < Z.pos m * 10 ^ Z.of_nat d) by nia.
    set (k := round_half_even_div _ _) in *. nia.
Qed.

Lemma near_quotient c num den :
  0 < den -> 2 * Z.abs (num - c * den) <= den ->
  (Rabs (IZR c - IZR num / IZR den) <= 1 / 2)%R.
Proof.
  intros Hd H. apply IZR_lt in Hd as Hd'.
  replace (IZR c - IZR num / IZR den)%R with (IZR (c * den - num) / IZR den)%R
    by (rewrite minus_IZR, mult_IZR; field; lra).
  unfold Rdiv. rewrite Rabs_mult, (Rabs_pos_eq (/ IZR den)), <- abs_IZR
    by (left; apply Rinv_0_lt_compat; assumption).
  assert (H' : (2 * IZR (Z.abs (c * den - num)) <= IZR den)%R).
  { rewrite <- mult_IZR. apply IZR_le. lia. }
  apply Rmult_le_reg_r with (IZR den); [assumption|].
  rewrite Rmult_assoc, Rinv_l by lra. lra.
Qed.

(** [scaled_round d m e] is an integer nearest to [m * 2^e * 10^d]. *)
Lemma scaled_round_near d m e :
  (Rabs (IZR (scaled_round d m e) - IZR (10 ^ Z.of_nat d) * F2R (Zpos m) e) <= 1 / 2)%R.
Proof.
  unfold scaled_round. destruct e as [|pe|pe].
  - rewrite F2R_IZR, Z.pow_0_r, Z.mul_1_r, mult_IZR.
    replace (IZR (Z.pos m) * IZR (10 ^ Z.of_nat d) - IZR (10 ^ Z.of_nat d) * IZR (Z.pos m))%R
      with 0%R by ring.
    rewrite Rabs_R0. lra.
  - change (Z.pos pe) with (0 + Z.pos pe) at 2. rewrite F2R_shift, F2R_IZR by lia.
    rewrite !mult_IZR.
    replace (IZR (Z.pos m) * IZR (2 ^ Z.pos pe) * IZR (10 ^ Z.of_nat d)
             - IZR (10 ^ Z.of_nat d) * (IZR (Z.pos m) * IZR (2 ^ Z.pos pe)))%R
      with 0%R by ring.
    rewrite Rabs_R0. lra.
  - assert (Hd : 0 < 2 ^ Z.pos pe) by (apply Z.pow_pos_nonneg; lia).
    change (Z.neg pe) with (- Z.pos pe). rewrite F2R_div by lia.
    replace (IZR (10 ^ Z.of_nat d) * (IZR (Z.pos m) / IZR (2 ^ Z.pos pe)))%R
      with (IZR (Z.pos m * 10 ^ Z.of_nat d) / IZR (2 ^ Z.pos pe))%R
      by (rewrite mult_IZR; unfold Rdiv; ring).
    apply near_quotient; [assumption|].
    apply (round_half_even_div_spec _ _ Hd).
Qed.

End CentFacts.
Import CentFacts NotationFacts.

(** X8: [format_cost] writes a dollar sign, a minus sign when the sign
    bit of the cost is set, and the cost rounded to the nearest cent as a
    numeral with two decimals; it does not fail on NaN or on the
    infinities. *)
Theorem format_cost_nearest_cent :
  (forall x s m e,
     Prim2SF x = S754_finite s m e ->
     exists c,
       (0 <= c)%Z
       /\ TokenSummary.format_cost x = ("$" ++ sign_prefix s ++ fixed_point 2 c)%string
       /\ (Rabs (IZR c - 100 * F2R (Zpos m) e) <= 1 / 2)%R)
  /\ (forall x s,
        Prim2SF x = S754_zero s ->
        TokenSummary.format_cost x = ("$" ++ sign_prefix s ++ "0.00")%string)
  /\ TokenSummary.format_cost nan = "$nan"%string
  /\ TokenSummary.format_cost infinity = "$inf"%string
  /\ TokenSummary.format_cost neg_infinity = "$-inf"%string.
Proof.
  split; [|split; [|repeat split; reflexivity]].
  - intros x s m e E. exists (scaled_round 2 m e).
    split; [apply scaled_round_nonneg|]. split.
    + unfold TokenSummary.format_cost, format_fixed. rewrite E.
      now rewrite render_fixed_fixed_point by apply scaled_round_nonneg.
    + apply (scaled_round_near 2 m e).
  - intros x s E. unfold TokenSummary.format_cost, format_fixed. now rewrite E.
Qed.

Lemma format_cost_nearest_cent_witness :
  exists c,
    TokenSummary.format_cost 21.005 = ("$" ++ fixed_point 2 c)%string
    /\ TokenSummary.format_cost 21.005 = "$21.00"%string
    /\ TokenSummary.format_cost (-0.001) = "$-0.00"%string.
Proof.
  destruct (proj1 format_cost_nearest_cent 21.005%float _ _ _ eq_refl) as (c & _ & Hc & _).
  exists c. split; [exact Hc|]. split; reflexivity.
Defined.

Import ValueFacts QuotientFacts RoundingFacts FormatFacts NotationFacts CentFacts.

(** X9: for [1_000_000 <= n < 10^15], [format_token_count n] is a numeral
    with one decimal followed by [M], and the number of tenths it shows is an
    integer nearest to [n / 100_000]. *)
Theorem millions_shown_to_nearest_tenth :
  forall n,
    (1000000 <= n < 10 ^ 15)%Z ->
    exists t,
      format_token_count n = Ok (fixed_point 1 t ++ "M")%string
      /\ (0 <= t)%Z
      /\ (2 * Z.abs (n - 100000 * t) <= 100000)%Z.
Proof.
  intros n Hn. unfold format_token_count.
  destruct (Z.leb_spec 1000000 n) as [_|]; [|lia].
  assert (B15 : (10 ^ 15 < 2 ^ 53)%Z) by reflexivity.
  assert (Hdiv : int_truediv n 1000000 = Ok (float_of_small_int n / 1000000)%float).
  { unfold int_truediv. cbn [Z.eqb].
    assert (Hs : is_small_int n = true).
    { unfold is_small_int. apply Z.ltb_lt. lia. }
    rewrite Hs. reflexivity. }
  rewrite Hdiv. cbn [bind].
  destruct (int_truediv_value n 1000000 _ ltac:(lia) ltac:(lia) Hdiv)
    as (p & e & Eq & Cq & _ & Hr).
  unfold format_fixed. rewrite Eq. cbn [sign_prefix append].
  set (t := scaled_round 1 p e).
  exists t. rewrite render_fixed_fixed_point by apply scaled_round_nonneg.
  split; [reflexivity|]. split; [apply scaled_round_nonneg|].
  (* the quotient is below 2^30 *)
  assert (C30 : canonical (2 ^ 52) (-22)) by (split; reflexivity).
  assert (He : (e <= -22)%Z).
  { apply (canonical_exponent_le _ _ _ _ Cq C30).
    destruct Hr as (_ & _ & _ & Hu). apply Hu; [assumption|].
    change (-22)%Z with (- (22))%Z. rewrite F2R_div by lia.
    change 1000000%R with (IZR 1000000). apply IZR_div_le; [lia|reflexivity|].
    change (2 ^ 22)%Z with 4194304%Z. change (2 ^ 52)%Z with 4503599627370496%Z.
    change (10 ^ 15)%Z with 1000000000000000%Z in Hn. lia. }
  set (D := (2 ^ (- (20) - e))%Z).
  assert (HD : (0 < D)%Z) by (apply Z.pow_pos_nonneg; lia).
  assert (Ed : (2 ^ Z.pos (Z.to_pos (- e)) = 1048576 * D)%Z).
  { rewrite Z2Pos.id by lia. unfold D.
    replace (- e)%Z with (20 + (- (20) - e))%Z at 1 by lia.
    rewrite Z.pow_add_r by lia. reflexivity. }
  assert (Et : t = round_half_even_div (Zpos p * 10) (1048576 * D)).
  { unfold t, scaled_round. destruct e as [|pe|pe]; try lia.
    change (10 ^ Z.of_nat 1)%Z with 10%Z.
    change (Z.neg pe) with (- Z.pos pe)%Z in Ed.
    rewrite Z.opp_involutive, Pos2Z.id in Ed. now rewrite Ed. }
  destruct (round_half_even_div_spec (Zpos p * 10) (1048576 * D) ltac:(lia)) as [Hrhe _].
  rewrite <- Et in Hrhe. clearbody t. clear Et Ed.
  set (lo := (n * 2 ^ 20 / 1000000)%Z).
  pose proof (Z.div_mod (n * 2 ^ 20) 1000000 ltac:(lia)) as Elo.
  pose proof (Z.mod_pos_bound (n * 2 ^ 20) 1000000 ltac:(lia)) as Hmod.
  fold lo in Elo. change (2 ^ 20)%Z with 1048576%Z in *.
  change (10 ^ 15)%Z with 1000000000000000%Z in Hn.
  change (2 ^ 53)%Z with 9007199254740992%Z in *.
  destruct (rounds_to_between n 1000000 p e lo (lo + 1) 20) as [L U];
    try assumption; try lia.
  fold D in L, U.
  assert (H1 : ((2 * t - 1) * 1048576 <= 20 * (lo + 1))%Z) by nia.
  assert (H2 : (20 * lo <= (2 * t + 1) * 1048576)%Z) by nia.
  lia.
Qed.

Lemma millions_shown_to_nearest_tenth_witness :
  exists t,
    format_token_count 1050000 = Ok (fixed_point 1 t ++ "M")%string
    /\ (2 * Z.abs (1050000 - 100000 * t) <= 100000)%Z.
Proof.
  destruct (millions_shown_to_nearest_tenth 1050000%Z) as (t & H1 & _ & H2).
  - split; [lia|reflexivity].
  - exists t. split; assumption.
Defined.

Module AccuracyFacts.
Import ValueFacts QuotientFacts CostFacts RangeFacts FormatFacts.
Local Open Scope Z_scope.

(** The floats next to a normal float are one unit in the last place away. *)
Lemma successor_canonical p e :
  canonical (Zpos p) e ->
  exists mF eF, canonical mF eF /\ F2R mF eF = F2R (Zpos p + 1) e.
Proof.
  intros Hc. destruct (canonical_mantissa_range _ _ Hc) as [Hm He].
  destruct (Z.eq_dec (Zpos p + 1) (2 ^ 53)) as [E|N].
  - exists (2 ^ 52), (e + 1). split.
    + split; [reflexivity|]. rewrite fexp_eq. change (Zdigits2 (2 ^ 52)) with 53. lia.
    + rewrite E, F2R_shift by lia. reflexivity.
  - exists (Zpos p + 1), e. split; [|reflexivity]. split; [lia|].
    destruct Hc as [_ Hc]. rewrite fexp_eq in *.
    pose proof (Zdigits2_bounds (Zpos p) ltac:(lia)) as [Hl Hu].
    pose proof (Zdigits2_pos (Zpos p) ltac:(lia)) as Hd.
    destruct (Z.eq_dec (Zpos p + 1) (2 ^ Zdigits2 (Zpos p))) as [Hpow|Hnp].
    + (* one more digit: only below 53 digits, at the least exponent *)
      assert (Hd1 : Zdigits2 (Zpos p + 1) = Zdigits2 (Zpos p) + 1).
      { apply Zdigits2_unique; [lia|].
        replace (Zdigits2 (Zpos p) + 1 - 1) with (Zdigits2 (Zpos p)) by lia.
        rewrite Z.pow_add_r, Z.pow_1_r by lia. lia. }
      rewrite Hd1.
      assert (Zdigits2 (Zpos p) < 53).
      { destruct (Z_lt_ge_dec (Zdigits2 (Zpos p)) 53); [assumption|].
        assert (2 ^ 53 <= 2 ^ Zdigits2 (Zpos p)) by (apply Z.pow_le_mono_r; lia). lia. }
      lia.
    + assert (Hd1 : Zdigits2 (Zpos p + 1) = Zdigits2 (Zpos p)) by (apply Zdigits2_unique; lia).
      rewrite Hd1. exact Hc.
Qed.

Lemma predecessor_canonical p e :
  canonical (Zpos p) e -> -1074 < e ->
  exists mF eF,
    canonical mF eF
    /\ (F2R (Zpos p - 1) e <= F2R mF eF)%R /\ (F2R mF eF < F2R (Zpos p) e)%R.
Proof.
  intros Hc He. pose proof (canonical_normal _ _ Hc He) as Hn.
  destruct (canonical_mantissa_range _ _ Hc) as [Hm _].
  destruct (Z.eq_dec (Zpos p) (2 ^ 52)) as [E|N].
  - exists (2 ^ 53 - 1), (e - 1). split; [|split].
    + split; [reflexivity|]. rewrite fexp_eq. change (Zdigits2 (2 ^ 53 - 1)) with 53. lia.
    + rewrite E. replace e with (e - 1 + 1) at 1 by lia. rewrite F2R_shift by lia.
      apply F2R_le. rewrite Z.pow_1_r. change (2 ^ 52) with 4503599627370496.
      change (2 ^ 53) with 9007199254740992. lia.
    + rewrite E. replace e with (e - 1 + 1) at 2 by lia. rewrite F2R_shift by lia.
      apply F2R_lt. reflexivity.
  - exists (Zpos p - 1), e. split; [|split].
    + split; [lia|]. destruct Hc as [_ Hc]. rewrite fexp_eq in *.
      assert (Hd : Zdigits2 (Zpos p - 1) = 53) by (apply Zdigits2_unique; lia).
      rewrite Hd.
      assert (Hd' : Zdigits2 (Zpos p) = 53) by (apply Zdigits2_unique; lia).
      rewrite Hd' in Hc. exact Hc.
    + apply Rle_refl.
    + apply F2R_lt. lia.
Qed.

(** A rounding to a normal float is off by at most one unit in the last
    place, which is at most [2^-52] of the float. *)
Lemma rounds_to_ulp v p e :
  rounds_to v (Zpos p) e -> -1074 < e ->
  (F2R (Zpos p) e - F2R 1 e <= v <= F2R (Zpos p) e + F2R 1 e)%R
  /\ (F2R 1 e * IZR (2 ^ 52) <= F2R (Zpos p) e)%R.
Proof.
  intros (_ & Hc & Hl & Hu) He. specialize (Hc ltac:(lia)).
  pose proof (canonical_normal _ _ Hc He) as Hn.
  assert (Hone : (F2R (Zpos p + 1) e = F2R (Zpos p) e + F2R 1 e)%R)
    by (unfold F2R; rewrite plus_IZR; ring).
  assert (Hone' : (F2R (Zpos p - 1) e = F2R (Zpos p) e - F2R 1 e)%R)
    by (unfold F2R; rewrite minus_IZR; ring).
  pose proof (F2R_pos 1 e ltac:(lia)) as Hu1.
  split; [split|].
  - destruct (predecessor_canonical p e Hc He) as (mF & eF & HF & H1 & H2).
    destruct (Rle_or_lt (F2R mF eF) v) as [H|H]; [rewrite Hone' in H1; lra|].
    assert (F2R (Zpos p) e <= F2R mF eF)%R by (apply Hu; [assumption|lra]).
    lra.
  - destruct (successor_canonical p e Hc) as (mF & eF & HF & EF).
    destruct (Rle_or_lt v (F2R mF eF)) as [H|H]; [rewrite EF, Hone in H; lra|].
    assert (F2R mF eF <= F2R (Zpos p) e)%R by (apply Hl; [assumption|lra]).
    rewrite EF, Hone in *. lra.
  - unfold F2R. rewrite Rmult_1_l, Rmult_comm.
    apply Rmult_le_compat_r; [left; apply bpow_pos|]. now apply IZR_le.
Qed.

(** In relative terms: at most [2^-51] of the value rounded. *)
Lemma rounds_to_relative v p e :
  rounds_to v (Zpos p) e -> -1074 < e -> (0 < v)%R ->
  (v - v / IZR (2 ^ 51) <= F2R (Zpos p) e <= v + v / IZR (2 ^ 51))%R.
Proof.
  intros Hr He Hv. destruct (rounds_to_ulp v p e Hr He) as [H1 H2].
  pose proof (F2R_pos 1 e ltac:(lia)) as Hu1.
  set (r := F2R (Zpos p) e) in *. set (u := F2R 1 e) in *.
  assert (E52 : IZR (2 ^ 52) = (2 * IZR (2 ^ 51))%R).
  { change (2 ^ 52) with (2 * 2 ^ 51). now rewrite mult_IZR. }
  assert (P51 : (1 <= IZR (2 ^ 51))%R) by (apply IZR_le; discriminate).
  assert (Hu : (u * IZR (2 ^ 51) <= v)%R) by nra.
  assert (Hq : (u <= v / IZR (2 ^ 51))%R).
  { apply Rmult_le_reg_r with (IZR (2 ^ 51)); [lra|].
    unfold Rdiv. rewrite Rmult_assoc, Rinv_l by lra. lra. }
  lra.
Qed.

End AccuracyFacts.

Module PriceFacts.
Import ValueFacts QuotientFacts CostFacts RangeFacts FormatFacts AccuracyFacts.
Local Open Scope Z_scope.

Lemma per_million_cost_accurate n q rate :
  Z.of_N n < 2 ^ 63 -> int_truediv (Z.of_N n) 1000000 = Ok q -> moderate rate ->
  (Rabs (B2R (q * rate) - exact_cost n rate) <= exact_cost n rate / IZR (2 ^ 49))%R.
Proof.
  intros Hn Hq Hm. pose proof Hm as (mr & er & Er & Her).
  destruct (moderate_bounds _ _ _ Er Her) as (Cr & Hrlo & Hrhi).
  unfold exact_cost.
  replace (B2R rate) with (F2R (Zpos mr) er) by (unfold B2R; now rewrite Er).
  destruct (N.eq_dec n 0) as [->|Hne].
  - cbn in Hq. inversion Hq; subst q. unfold B2R. rewrite mul_spec, Er.
    cbn. unfold Rdiv. rewrite !Rmult_0_l, Rminus_0_r, Rabs_R0. lra.
  - destruct (int_truediv_value (Z.of_N n) 1000000 q ltac:(lia) ltac:(lia) Hq)
      as (p & e & Eq & Cq & He & Hr).
    (* the quotient is a normal float *)
    assert (C20 : canonical (2 ^ 52) (-72)) by (split; reflexivity).
    assert (Hv : (F2R (2 ^ 52) (-72) <= IZR (Z.of_N n) / 1000000)%R).
    { change (-72) with (- (72)). rewrite F2R_div by lia.
      change 1000000%R with (IZR 1000000). apply IZR_div_le; [reflexivity|lia|].
      change (2 ^ 52) with 4503599627370496. change (2 ^ 72) with 4722366482869645213696.
      lia. }
    assert (Hq20 : (F2R (2 ^ 52) (-72) <= F2R (Zpos p) e)%R).
    { destruct Hr as (_ & _ & Hl & _). now apply Hl. }
    pose proof (canonical_exponent_le _ _ _ _ C20 Cq Hq20) as He72.
    pose proof (F2R_pos (2 ^ 52) (-72) ltac:(lia)) as P20.
    destruct (rounds_to_relative _ _ _ Hr ltac:(lia) ltac:(lra)) as [Q1 Q2].
    (* so is the product *)
    destruct (SFmul_finite_spec false p e false mr er Cq Cr) as (m2 & e2 & E2 & Hr2).
    cbn [xorb] in E2.
    assert (C24 : canonical (2 ^ 52) (-128)) by (split; reflexivity).
    assert (Hv2 : (F2R (2 ^ 52) (-128) <= F2R (Zpos p) e * F2R (Zpos mr) er)%R).
    { assert (E : F2R (2 ^ 52) (-128) = (F2R (2 ^ 52) (-72) * F2R 1 (-56))%R).
      { rewrite <- F2R_mul. reflexivity. }
      assert (E' : (F2R 1 (-56) <= F2R (2 ^ 52) (-56))%R) by (apply F2R_le; lia).
      pose proof (F2R_pos 1 (-56) ltac:(lia)).
      rewrite E. nra. }
    destruct (rounds_to_pos _ _ _ _ _ Hr2 C24 Hv2) as (p2 & -> & C2 & Hlo2).
    pose proof (canonical_exponent_le _ _ _ _ C24 C2 Hlo2) as He128.
    pose proof (F2R_pos (2 ^ 52) (-128) ltac:(lia)) as P24.
    destruct (rounds_to_relative _ _ _ Hr2 ltac:(lia) ltac:(lra)) as [M1 M2].
    (* and it is finite *)
    pose proof (per_million_at_most n q Hn Hq) as Aq.
    pose proof (mul_at_most (-8) q rate ltac:(lia) ltac:(lia) Aq Hm) as Ac.
    assert (Ec : Prim2SF (q * rate) = S754_finite false p2 e2).
    { assert (Epk : Prim2SF (q * rate) = pack false (Zpos p2) e2)
        by (rewrite mul_spec, Eq, Er; exact E2).
      cbn [pack] in Epk. destruct (e2 <=? emax - prec); [exact Epk|exfalso].
      destruct Ac as [[s Es]|(p3 & e3 & Es & _)]; rewrite Epk in Es; discriminate. }
    unfold B2R. rewrite Ec. cbn [cond_Zopp].
    set (V := (IZR (Z.of_N n) / 1000000)%R) in *.
    set (Q := F2R (Zpos p) e) in *. set (Rt := F2R (Zpos mr) er) in *.
    set (C := F2R (Zpos p2) e2) in *.
    pose proof (F2R_pos (Zpos mr) er ltac:(lia)) as PR. fold Rt in PR.
    assert (E49 : (/ IZR (2 ^ 49) = 4 * / IZR (2 ^ 51))%R).
    { change (2 ^ 51) with (4 * 2 ^ 49). rewrite mult_IZR. field.
      apply not_0_IZR. discriminate. }
    assert (Pd : (0 < / IZR (2 ^ 51) <= 1)%R).
    { split; [apply Rinv_0_lt_compat, IZR_lt; reflexivity|].
      rewrite <- Rinv_1. apply Rinv_le_contravar; [lra|]. apply IZR_le. discriminate. }
    unfold Rdiv in *. rewrite E49. set (d := (/ IZR (2 ^ 51))%R) in *.
    assert (PV : (0 < V)%R) by lra.
    assert (PX : (0 < V * Rt)%R) by (apply Rmult_lt_0_compat; assumption).
    assert (A1 : (Q * Rt <= V * Rt + V * Rt * d)%R) by nra.
    assert (A2 : (V * Rt - V * Rt * d <= Q * Rt)%R) by nra.
    assert (A3 : (Q * Rt * d <= (V * Rt + V * Rt * d) * d)%R)
      by (apply Rmult_le_compat_r; lra).
    assert (A4 : (V * Rt * d * d <= V * Rt * d)%R).
    { rewrite <- (Rmult_1_r (V * Rt * d)) at 2.
      apply Rmult_le_compat_l; [|lra]. apply Rmult_le_pos; lra. }
    assert (A5 : (0 <= Q * Rt * d)%R).
    { apply Rmult_le_pos; [|lra]. apply Rmult_le_pos; [|lra].
      unfold Q. left. apply F2R_pos. lia. }
    assert (A6 : (0 <= V * Rt * d)%R) by (apply Rmult_le_pos; lra).
    apply Rabs_le. split; lra.
Qed.

End PriceFacts.
Import PriceFacts.

(** X10: for counters below [2^63], each cost that [calculate_cost]
    returns is within [2^-49] of the exact price of the counter at the rate,
    in relative terms. *)
Theorem calculate_cost_accurate :
  forall tokens model c,
    fits_int64 tokens ->
    calculate_cost tokens model = Ok c ->
    let pricing := pricing_of model in
    let close (cost : float) (exact : R) :=
      (Rabs (B2R cost - exact) <= exact / IZR (2 ^ 49))%R in
    close (input_cost c) (exact_cost (input_tokens tokens) (input_per_mtok pricing))
    /\ close (output_cost c) (exact_cost (output_tokens tokens) (output_per_mtok pricing))
    /\ close (cache_write_cost c)
         (exact_cost (cache_creation_input_tokens tokens) (cache_write_per_mtok pricing))
    /\ close (cache_read_cost c)
         (exact_cost (cache_read_input_tokens tokens) (cache_read_per_mtok pricing)).
Proof.
  intros tokens model c (F1 & F2 & F3 & F4) H.
  apply calculate_cost_inv in H as (i & o & w & r & Hi & Ho & Hw & Hr & ->).
  destruct (CostFacts.rates_moderate model) as (M1 & M2 & M3 & M4).
  cbv zeta. cbn [input_cost output_cost cache_write_cost cache_read_cost].
  repeat split; now apply per_million_cost_accurate.
Qed.

Lemma calculate_cost_accurate_witness :
  (Rabs (B2R 6 - exact_cost 2000000 3.00) <= exact_cost 2000000 3.00 / IZR (2 ^ 49))%R.
Proof.
  assert (Hfit : fits_int64 (Examples.usage 2000000 1000000 0 0))
    by (repeat split; reflexivity).
  exact (proj1 (calculate_cost_accurate
                  (Examples.usage 2000000 1000000 0 0) (Some Examples.sonnet) _
                  Hfit eq_refl)).
Defined.

Module NearestFacts.
Import ValueFacts FormatFacts.
Local Open Scope Z_scope.

Lemma F2R_half m e : F2R m e = F2R (2 * m) (e - 1).
Proof.
  replace e with (e - 1 + 1) at 1 by lia. rewrite F2R_shift, Z.pow_1_r by lia.
  f_equal. lia.
Qed.

Lemma middle_between m e : (F2R m e < middle m e < F2R (m + 1) e)%R.
Proof.
  unfold middle. rewrite (F2R_half m), (F2R_half (m + 1)).
  split; apply F2R_lt; lia.
Qed.

Lemma Loc_Inv mrs e v : Loc mrs e v -> Inv mrs e v.
Proof.
  intros [H0 H]. pose proof (middle_between (shr_m mrs) e) as [M1 M2].
  unfold Inv, exact_loc. split; [assumption|].
  destruct (shr_r mrs), (shr_s mrs); cbn [negb andb];
    (split; [lra|split; [discriminate|intros E; lra]])
    || (split; [lra|split; [intros _; assumption|reflexivity]]).
Qed.

Lemma Loc_shr_1 mrs e v : Loc mrs e v -> Loc (shr_1 mrs) (e + 1) v.
Proof.
  intros [H0 H]. destruct (shr_1_spec mrs H0) as (E & H0' & Es).
  pose proof (middle_between (shr_m mrs) e) as [M1 M2].
  unfold Loc. split; [assumption|]. rewrite Es.
  set (m' := shr_m (shr_1 mrs)) in *. set (m := shr_m mrs) in *.
  unfold middle in *. replace (e + 1 - 1) with e by lia.
  assert (S1 : F2R m' (e + 1) = F2R (2 * m') e).
  { rewrite F2R_shift, Z.pow_1_r by lia. f_equal. lia. }
  assert (S2 : F2R (m' + 1) (e + 1) = F2R (2 * m' + 2) e).
  { rewrite F2R_shift, Z.pow_1_r by lia. f_equal. lia. }
  rewrite S1, S2.
  destruct (shr_r (shr_1 mrs)); cbn [Z.b2z] in E.
  - (* odd: the old slot is the upper half of the new one *)
    replace (2 * m' + 1) with m by lia. replace (2 * m' + 2) with (m + 1) by lia.
    destruct (shr_r mrs), (shr_s mrs); cbn [orb]; lra.
  - replace (2 * m') with m by lia. replace (2 * m' + 1) with (m + 1) by lia.
    replace (m + 0) with m in E by lia.
    destruct (shr_r mrs), (shr_s mrs); cbn [orb]; lra.
Qed.

Lemma Loc_iter p : forall mrs e v,
  Loc mrs e v -> Loc (SpecFloat.iter_pos shr_1 p mrs) (e + Zpos p) v.
Proof.
  induction p as [p IH|p IH|]; intros mrs e v H; cbn [SpecFloat.iter_pos].
  - replace (e + Zpos p~1) with (e + 1 + Zpos p + Zpos p) by lia.
    apply IH, IH, Loc_shr_1, H.
  - replace (e + Zpos p~0) with (e + Zpos p + Zpos p) by lia.
    apply IH, IH, H.
  - apply Loc_shr_1, H.
Qed.

Lemma Loc_shr mrs e n v :
  Loc mrs e v -> Loc (fst (shr mrs e n)) (snd (shr mrs e n)) v.
Proof.
  intros H. destruct n as [|p|p]; cbn [shr fst snd]; try assumption.
  apply Loc_iter, H.
Qed.

Lemma Loc_exact m e : 0 <= m -> Loc (shr_record_of_loc m loc_Exact) e (F2R m e).
Proof. intros H. split; [assumption|reflexivity]. Qed.


Lemma middle_eq m e : middle m e = ((IZR m + / 2) * bpow e)%R.
Proof.
  unfold middle, F2R.
  assert (E : bpow e = (2 * bpow (e - 1))%R).
  { pose proof (bpow_add (e - 1) 1) as H.
    replace (e - 1 + 1) with e in H by lia. rewrite H.
    replace (bpow 1) with 2%R by (unfold bpow; cbn; unfold Pos.to_nat; cbn; lra). lra. }
  rewrite E, plus_IZR, mult_IZR. field.
Qed.

(** *** [binary_round_aux] rounds to nearest, ties to even *)

Lemma binary_round_aux_nearest s m e l v :
  0 <= m -> e <= fexp (Zdigits2 m + e) ->
  Loc (shr_record_of_loc m l) e v ->
  exists m2 e2,
    binary_round_aux prec emax s m e l = pack s m2 e2 /\ rounds_nearest v m2 e2.
Proof.
  intros Hm HP HL.
  pose proof (Loc_Inv _ _ _ HL) as HI.
  pose proof (shr_fexp_spec m e l v Hm HP HI) as H1. cbv zeta in H1.
  pose proof (Loc_shr (shr_record_of_loc m l) e (fexp (Zdigits2 m + e) - e) v HL) as HL'.
  change (shr (shr_record_of_loc m l) e (fexp (Zdigits2 m + e) - e))
    with (shr_fexp prec emax m e l) in HL'.
  unfold binary_round_aux.
  destruct (shr_fexp prec emax m e l) as [mrs' e'] eqn:E1. cbn [fst snd] in H1, HL'.
  destruct H1 as [HI' Ht].
  destruct HI' as (Hm' & [Hl Hu] & Hx).
  set (m' := shr_m mrs') in *.
  set (m1 := round_nearest_even m' (loc_of_shr_record mrs')).
  destruct (round_nearest_even_bounds m' (loc_of_shr_record mrs')) as [Hm1 Hex].
  fold m1 in Hm1, Hex.
  pose proof (renormalise_spec m' e' m1 Ht Hm' Hm1) as H2. cbv zeta in H2.
  destruct (shr_fexp prec emax m1 e' loc_Exact) as [mrs'' e''] eqn:E2. cbn [fst snd] in H2.
  destruct H2 as (Hm2 & Hv2 & Hc2).
  exists (shr_m mrs''), e''. split; [reflexivity|].
  split; [split; [assumption|]; split; [assumption|]; split|].
  - intros mF eF HF Hle. rewrite Hv2.
    apply Rle_trans with (F2R m' e'); [|apply F2R_le; lia].
    destruct (no_float_inside m' e' mF eF Ht HF) as [H|H]; [assumption|lra].
  - intros mF eF HF Hle. rewrite Hv2.
    destruct (exact_loc mrs') eqn:Hloc.
    + assert (Hv : v = F2R m' e') by (apply Hx; reflexivity).
      rewrite Hex by (apply loc_of_shr_record_exact; assumption).
      lra.
    + assert (Hv : v <> F2R m' e').
      { intros Hv. apply Hx in Hv. congruence. }
      apply Rle_trans with (F2R (m' + 1) e'); [apply F2R_le; lia|].
      destruct (no_float_inside m' e' mF eF Ht HF) as [H|H]; [lra|assumption].
  - exists m', e'. split; [exact Ht|]. split; [split; assumption|].
    rewrite Hv2. destruct HL' as [_ HL'].
    pose proof (middle_between m' e') as [M1 M2].
    subst m1. unfold m' in *. clear Hex Hm1 Hx E2 Hc2 Hv2.
    destruct mrs' as [mm [] []];
      cbn [shr_m shr_r shr_s loc_of_shr_record round_nearest_even] in *;
      unfold picks; repeat split; intros; try lra; reflexivity.
Qed.

Lemma SFmul_finite_nearest sx mx ex sy my ey :
  canonical (Zpos mx) ex -> canonical (Zpos my) ey ->
  exists m2 e2,
    SFmul prec emax (S754_finite sx mx ex) (S754_finite sy my ey) = pack (xorb sx sy) m2 e2
    /\ rounds_nearest (F2R (Zpos mx) ex * F2R (Zpos my) ey) m2 e2.
Proof.
  intros Hx Hy. cbn [SFmul]. rewrite <- F2R_mul.
  apply binary_round_aux_nearest.
  - lia.
  - rewrite Pos2Z.inj_mul. now apply mul_aligned.
  - rewrite Pos2Z.inj_mul. apply Loc_exact. lia.
Qed.

(** Where the remainder of a division puts the quotient in its slot. *)
Lemma new_location_cases n k :
  0 < n -> 0 <= k < n ->
  match new_location n k with
  | loc_Exact => k = 0
  | loc_Inexact Lt => 0 < k /\ 2 * k < n
  | loc_Inexact Eq => 2 * k = n
  | loc_Inexact Gt => n < 2 * k
  end.
Proof.
  intros Hn Hk. unfold new_location, new_location_even, new_location_odd.
  destruct (Z.even n) eqn:Ev; destruct (Z.eqb_spec k 0) as [|Hk0]; try assumption.
  - destruct (Z.compare_spec (2 * k) n); lia.
  - assert (Hne : n <> 2 * k).
    { intros ->. rewrite Z.even_mul in Ev. discriminate. }
    destruct (Z.compare_spec (2 * k + 1) n); lia.
Qed.

Lemma SFdiv_core_Loc m1 e1 m2 e2 :
  0 < m1 -> 0 < m2 ->
  let '(q, e', l) := SFdiv_core_binary prec emax m1 e1 m2 e2 in
  Loc (shr_record_of_loc q l) e' (F2R m1 e1 / F2R m2 e2).
Proof.
  intros H1 H2. unfold SFdiv_core_binary.
  set (e' := Z.min (fexp (Zdigits2 m1 + e1 - (Zdigits2 m2 + e2))) (e1 - e2)).
  set (s := e1 - e2 - e').
  assert (Hs : 0 <= s) by (unfold s, e'; lia).
  set (m' := match s with Z.pos _ => Z.shiftl m1 s | 0 => m1 | Z.neg _ => 0 end).
  assert (Hm' : m' = m1 * 2 ^ s).
  { unfold m'. destruct s as [|p|p]; [rewrite Z.pow_0_r; lia| |lia].
    apply Z.shiftl_mul_pow2. lia. }
  pose proof (Z_div_mod m' m2 ltac:(lia)) as Hdm.
  destruct (Z.div_eucl m' m2) as [q r]. destruct Hdm as [Hq Hr].
  assert (Hp : 0 < 2 ^ s) by (apply Z.pow_pos_nonneg; lia).
  assert (Hq0 : 0 <= q) by nia.
  assert (HM2 : (0 < IZR m2)%R) by (apply IZR_lt; lia).
  set (f := (IZR r / IZR m2)%R).
  assert (Hf : (f * IZR m2 = IZR r)%R) by (unfold f; field; lra).
  assert (Hv : (F2R m1 e1 / F2R m2 e2 = (IZR q + f) * bpow e')%R).
  { replace e1 with ((e2 + e') + s) by (unfold s; lia).
    rewrite F2R_shift by lia. rewrite <- Hm', Hq. unfold F2R, f.
    rewrite bpow_add, plus_IZR, mult_IZR.
    pose proof (bpow_pos e2). pose proof (bpow_pos e').
    field. split; lra. }
  rewrite Hv. pose proof (bpow_pos e') as HB.
  pose proof (new_location_cases m2 r H2 Hr) as Hloc.
  assert (Hr0 : (0 <= IZR r)%R) by (apply IZR_le; lia).
  assert (Hr1 : (IZR r < IZR m2)%R) by (apply IZR_lt; lia).
  split; [now rewrite shr_m_record_of_loc|].
  destruct (new_location m2 r) as [|[]];
    cbn [shr_record_of_loc shr_m shr_r shr_s]; rewrite ?middle_eq;
    unfold F2R; rewrite ?plus_IZR.
  - subst r. replace f with 0%R by nra. ring.
  - assert (E : (2 * IZR r = IZR m2)%R) by (rewrite <- mult_IZR; now f_equal).
    replace f with (/ 2)%R by nra. reflexivity.
  - destruct Hloc as [L1 L2]. apply IZR_lt in L1, L2. rewrite mult_IZR in L2.
    assert (0 < f < / 2)%R by (split; nra). split; nra.
  - apply IZR_lt in Hloc. rewrite mult_IZR in Hloc.
    assert (/ 2 < f < 1)%R by (split; nra). split; nra.
Qed.

Lemma SFdiv_finite_nearest sx mx ex sy my ey :
  exists m2 e2,
    SFdiv prec emax (S754_finite sx mx ex) (S754_finite sy my ey) = pack (xorb sx sy) m2 e2
    /\ rounds_nearest (F2R (Zpos mx) ex / F2R (Zpos my) ey) m2 e2.
Proof.
  cbn [SFdiv].
  pose proof (SFdiv_core_spec (Zpos mx) ex (Zpos my) ey ltac:(lia) ltac:(lia)) as H.
  pose proof (SFdiv_core_Loc (Zpos mx) ex (Zpos my) ey ltac:(lia) ltac:(lia)) as HL.
  destruct (SFdiv_core_binary prec emax (Zpos mx) ex (Zpos my) ey) as [[q e'] l].
  destruct H as (Hq & HP & HI).
  now apply binary_round_aux_nearest.
Qed.

(** *** Rounding to nearest keeps the order *)

Lemma tight_unique m1 e1 m2 e2 :
  tight m1 e1 -> tight m2 e2 -> F2R m1 e1 = F2R m2 e2 -> m1 = m2 /\ e1 = e2.
Proof.
  intros [C1|[-> ->]] [C2|[-> ->]] E.
  - now apply canonical_unique.
  - rewrite F2R_0 in E. pose proof (F2R_pos _ e1 (proj1 C1)). lra.
  - rewrite F2R_0 in E. pose proof (F2R_pos _ e2 (proj1 C2)). lra.
  - auto.
Qed.

Lemma tight_nonneg m e : tight m e -> (0 <= F2R m e)%R.
Proof.
  intros [C|[-> ->]]; [left; apply F2R_pos, C|rewrite F2R_0; lra].
Qed.

Lemma rounds_nearest_monotone v1 m1 e1 v2 m2 e2 :
  rounds_nearest v1 m1 e1 -> rounds_nearest v2 m2 e2 -> (v1 <= v2)%R ->
  (F2R m1 e1 <= F2R m2 e2)%R.
Proof.
  intros [R1 (a1 & x1 & T1 & [L1 U1] & P1 & Q1 & E1)]
         [R2 (a2 & x2 & T2 & [L2 U2] & P2 & Q2 & E2)] Hv.
  destruct (Rle_lt_dec (F2R m1 e1) (F2R m2 e2)) as [|Hgt]; [assumption|exfalso].
  destruct R1 as (N1 & C1 & Lo1 & Up1). destruct R2 as (N2 & C2 & Lo2 & Up2).
  pose proof (middle_between a1 x1) as [M1 M1'].
  pose proof (middle_between a2 x2) as [M2 M2'].
  pose proof (tight_nonneg _ _ T1) as A1. pose proof (tight_nonneg _ _ T2) as A2.
  assert (Z2 : (0 <= F2R m2 e2)%R).
  { destruct (Z.eq_dec m2 0) as [->|]; [rewrite F2R_0; lra|].
    left. apply F2R_pos. lia. }
  assert (Pm1 : 0 < m1).
  { destruct (Z.eq_dec m1 0) as [->|]; [rewrite F2R_0 in Hgt; lra|lia]. }
  specialize (C1 Pm1).
  (* the larger result lies above the second value *)
  assert (B2 : (v2 < F2R m1 e1)%R).
  { destruct (Rle_lt_dec (F2R m1 e1) v2) as [H|]; [|assumption].
    specialize (Lo2 _ _ C1 H). lra. }
  (* the smaller one below the first *)
  assert (B1 : (F2R m2 e2 < v1)%R).
  { destruct (Rle_lt_dec v1 (F2R m2 e2)) as [H|]; [|assumption].
    destruct (Z.eq_dec m2 0) as [->|Hm2].
    - rewrite F2R_0 in *. assert (v1 < middle a1 x1)%R by lra.
      rewrite P1 in Hgt by assumption. lra.
    - specialize (Up1 _ _ (C2 ltac:(lia)) H). lra. }
  (* so the first was rounded up and the second down *)
  assert (G1 : F2R m1 e1 = F2R (a1 + 1) x1 /\ (middle a1 x1 <= v1)%R).
  { destruct (Rlt_le_dec v1 (middle a1 x1)) as [H|H].
    - rewrite P1 in * by assumption. lra.
    - split; [|assumption]. destruct H as [H|H].
      + now apply Q1.
      + rewrite E1 in * by auto. destruct (Z.even a1); [lra|reflexivity]. }
  assert (G2 : F2R m2 e2 = F2R a2 x2 /\ (v2 <= middle a2 x2)%R).
  { destruct (Rlt_le_dec (middle a2 x2) v2) as [H|H].
    - rewrite Q2 in * by assumption. lra.
    - split; [|assumption]. destruct H as [H|H].
      + now apply P2.
      + rewrite E2 in * by auto. destruct (Z.even a2); [reflexivity|lra]. }
  destruct G1 as [G1 G1']. destruct G2 as [G2 G2'].
  (* the two slots are the same *)
  assert (S12 : (F2R a1 x1 <= F2R a2 x2)%R).
  { destruct T1 as [C|[-> ->]]; [|rewrite F2R_0; assumption].
    destruct (no_float_inside a2 x2 a1 x1 T2 C); lra. }
  assert (S21 : (F2R a2 x2 <= F2R a1 x1)%R).
  { destruct T2 as [C|[-> ->]]; [|rewrite F2R_0; assumption].
    destruct (no_float_inside a1 x1 a2 x2 T1 C); lra. }
  destruct (tight_unique _ _ _ _ T1 T2 ltac:(lra)) as [-> ->].
  assert (V1 : v1 = middle a2 x2) by lra.
  assert (V2 : v2 = middle a2 x2) by lra.
  rewrite (E1 V1), (E2 V2) in Hgt. lra.
Qed.

(** Values in order pack to floats in order. *)
Lemma pack_leb m1 e1 m2 e2 :
  0 <= m1 -> (0 < m1 -> canonical m1 e1) ->
  0 <= m2 -> (0 < m2 -> canonical m2 e2) ->
  (F2R m1 e1 <= F2R m2 e2)%R ->
  SFleb (pack false m1 e1) (pack false m2 e2) = true.
Proof.
  intros N1 C1 N2 C2 H.
  destruct m1 as [|p1|p1]; [|specialize (C1 ltac:(lia))|lia].
  - destruct m2 as [|p2|p2]; [reflexivity| |lia]. cbn [pack].
    now destruct (e2 <=? emax - prec).
  - pose proof (F2R_pos (Zpos p1) e1 ltac:(lia)) as Hp.
    destruct m2 as [|p2|p2]; [rewrite F2R_0 in H; lra|specialize (C2 ltac:(lia))|lia].
    pose proof (canonical_exponent_le _ _ _ _ C1 C2 H) as He.
    cbn [pack].
    destruct (Z.leb_spec e2 (emax - prec)) as [H2|H2].
    + destruct (Z.leb_spec e1 (emax - prec)) as [_|]; [|lia].
      unfold SFleb. cbn [SFcompare].
      destruct (Z.compare_spec e1 e2) as [->|_|]; [|reflexivity|lia].
      apply F2R_le in H.
      change (Pos.compare_cont Eq p1 p2) with (Pos.compare p1 p2).
      destruct (Pos.compare_spec p1 p2); try reflexivity. lia.
    + now destruct (e1 <=? emax - prec).
Qed.

End NearestFacts.

Module MonotoneFacts.
Import ValueFacts QuotientFacts CostFacts RangeFacts FormatFacts NearestFacts.
Local Open Scope Z_scope.

Lemma rounds_nearest_zero e : rounds_nearest 0 0 e.
Proof.
  split.
  - split; [lia|]. split; [lia|]. split; intros mF eF HF H;
      pose proof (F2R_pos _ eF (proj1 HF)); rewrite F2R_0; lra.
  - exists 0, (-1074). split; [right; auto|].
    pose proof (middle_between 0 (-1074)) as [M1 M2]. rewrite !F2R_0 in *.
    split; [split; [lra|apply F2R_pos; lia]|].
    repeat split; intros; cbn [Z.even]; rewrite ?F2R_0; lra.
Qed.

Lemma rounds_nearest_float m e : canonical m e -> rounds_nearest (F2R m e) m e.
Proof.
  intros C. split.
  - split; [destruct C; lia|]. split; [auto|]. split; auto.
  - exists m, e. split; [now left|].
    pose proof (middle_between m e) as [M1 M2].
    split; [split; [lra|apply F2R_lt; lia]|].
    repeat split; intros; try lra.
Qed.

Lemma binary_round_nearest s m e :
  exists m2 e2,
    binary_round prec emax s m e = pack s m2 e2
    /\ rounds_nearest (F2R (Zpos m) e) m2 e2.
Proof.
  unfold binary_round.
  set (e' := fexp (Z.pos (digits2_pos m) + e)).
  destruct (Z_le_gt_dec e e') as [Hle|Hgt].
  - assert (E : shl_align m e e' = (m, e)).
    { unfold shl_align. destruct (e' - e) eqn:E; try reflexivity. lia. }
    rewrite E. apply binary_round_aux_nearest; [lia|exact Hle|apply Loc_exact; lia].
  - pose proof (shl_align_value m e e' ltac:(lia)) as Hv.
    assert (Hs : snd (shl_align m e e') = e').
    { unfold shl_align. destruct (e' - e) eqn:E; try lia. reflexivity. }
    destruct (shl_align m e e') as [mz ez]. cbn [fst snd] in *. subst ez.
    assert (Hval : F2R (Z.pos m) e = F2R (Z.pos mz) e').
    { replace e with (e' + (e - e')) by lia. rewrite F2R_shift by lia. now rewrite Hv. }
    rewrite Hval. apply binary_round_aux_nearest; [lia| |apply Loc_exact; lia].
    rewrite Hv, Zdigits2_mul_pow2 by lia.
    replace (Zdigits2 (Z.pos m) + (e - e') + e') with (Z.pos (digits2_pos m) + e)
      by (cbn [Zdigits2]; lia).
    fold e'. lia.
Qed.

Lemma SFadd_finite_nearest mx ex my ey :
  exists m2 e2,
    SFadd prec emax (S754_finite false mx ex) (S754_finite false my ey) = pack false m2 e2
    /\ rounds_nearest (F2R (Zpos mx) ex + F2R (Zpos my) ey) m2 e2.
Proof.
  cbn [SFadd cond_Zopp]. set (ez := Z.min ex ey).
  assert (Ex : F2R (Zpos mx) ex = F2R (Zpos (fst (shl_align mx ex ez))) ez).
  { rewrite shl_align_value by (unfold ez; lia).
    rewrite <- F2R_shift by (unfold ez; lia). f_equal. lia. }
  assert (Ey : F2R (Zpos my) ey = F2R (Zpos (fst (shl_align my ey ez))) ez).
  { rewrite shl_align_value by (unfold ez; lia).
    rewrite <- F2R_shift by (unfold ez; lia). f_equal. lia. }
  rewrite Ex, Ey.
  replace (F2R (Zpos (fst (shl_align mx ex ez))) ez + F2R (Zpos (fst (shl_align my ey ez))) ez)%R
    with (F2R (Zpos (fst (shl_align mx ex ez)) + Zpos (fst (shl_align my ey ez))) ez)
    by (unfold F2R; rewrite plus_IZR; ring).
  cbn [Z.add binary_normalize]. apply binary_round_nearest.
Qed.

(** [a / b] on positive integers is the exact quotient rounded to nearest. *)
Lemma int_truediv_nearest a b x :
  0 < a -> 0 < b < 2 ^ 53 -> int_truediv a b = Ok x ->
  exists p e,
    Prim2SF x = S754_finite false p e /\ canonical (Zpos p) e /\ e <= 971
    /\ rounds_nearest (IZR a / IZR b) (Zpos p) e.
Proof.
  intros Ha Hb. destruct (quotient_bounds a b Ha Hb) as [Hlo Hhi].
  unfold int_truediv.
  destruct (Z.eqb_spec b 0) as [|_]; [lia|].
  destruct (is_small_int a && is_small_int b) eqn:Es.
  - apply andb_true_iff in Es as [Sa _]. unfold is_small_int in Sa.
    apply Z.ltb_lt in Sa. rewrite Z.abs_eq in Sa by lia.
    destruct (float_of_small_int_value a ltac:(lia)) as (ma & ea & Ea & Ca & Va).
    destruct (float_of_small_int_value b Hb) as (mb & eb & Eb & Cb & Vb).
    intros E. inversion E; subst x. clear E.
    rewrite div_spec, Ea, Eb. unfold SF64div.
    destruct (SFdiv_finite_nearest false ma ea false mb eb) as (m2 & e2 & -> & Hn).
    rewrite Va, Vb in Hn. cbn [xorb]. pose proof (proj1 Hn) as Hr.
    destruct (rounds_to_pos _ _ _ _ _ Hr tiny_canonical Hlo) as (p & -> & Hc & _).
    assert (He : e2 <= 971).
    { destruct Hr as (_ & _ & _ & Hu).
      assert (Hhi' : (IZR a / IZR b <= F2R (Zpos ma) ea)%R) by (rewrite Va; exact Hhi).
      specialize (Hu _ _ Ca Hhi').
      destruct (Prim2SF_canonical _ _ _ _ Ea) as [_ Hea].
      pose proof (F2R_le_DBL_MAX _ _ Ca Hea).
      apply (canonical_le_DBL_MAX _ _ Hc). lra. }
    cbn [pack]. destruct (Z.leb_spec e2 (emax - prec)) as [_|Hgt];
      [|unfold emax, prec in Hgt; lia].
    exists p, e2. auto.
  - destruct b as [|pb|pb]; try lia. destruct a as [|pa|pa]; try lia.
    cbn [int_as_mantissa].
    destruct (SFdiv_finite_nearest false pa 0 false pb 0) as (m2 & e2 & -> & Hn).
    rewrite !F2R_IZR in Hn. cbn [xorb]. pose proof (proj1 Hn) as Hr.
    destruct (rounds_to_pos _ _ _ _ _ Hr tiny_canonical Hlo) as (p & -> & Hc & _).
    cbn [pack].
    destruct (Z.leb_spec e2 (emax - prec)) as [Hle|Hgt]; [|discriminate].
    assert (V : Prim2SF (SF2Prim (S754_finite false p e2)) = S754_finite false p e2).
    { apply Prim2SF_SF2Prim.
      unfold SpecFloat.valid_binary, SpecFloat.bounded, SpecFloat.canonical_mantissa.
      destruct Hc as [_ Hc]. cbn [Zdigits2] in Hc.
      rewrite Hc, Z.eqb_refl. cbn [andb]. now apply Z.leb_le. }
    intros E.
    assert (Ex : x = SF2Prim (S754_finite false p e2)) by congruence.
    exists p, e2. rewrite Ex, V. unfold emax, prec in Hle. auto.
Qed.

(** *** Floats without a sign *)

Lemma pack_unsigned v m e : rounds_to v m e -> unsigned_sf (pack false m e).
Proof.
  intros (H0 & C & _). destruct m as [|p|p]; [exact I| |lia].
  cbn [pack]. destruct (Z.leb_spec e (emax - prec)); [|exact I].
  split; [apply C; lia|assumption].
Qed.

Lemma unsigned_leb_infinity x : unsigned_sf x -> SFleb x (S754_infinity false) = true.
Proof. destruct x as [[]|[]| |[] m e]; intros H; try destruct H; reflexivity. Qed.

Lemma canonical_exponent_lt m1 e1 m2 e2 :
  canonical m1 e1 -> canonical m2 e2 -> e1 < e2 -> (F2R m1 e1 < F2R m2 e2)%R.
Proof.
  intros C1 C2 H. destruct (Rlt_le_dec (F2R m1 e1) (F2R m2 e2)) as [|Hle]; [assumption|].
  pose proof (canonical_exponent_le _ _ _ _ C2 C1 Hle). lia.
Qed.

(** Below a finite float or zero there are only finite floats or zero, of
    smaller or equal value. *)
Lemma unsigned_leb_value x y :
  unsigned_sf x -> unsigned_sf y -> y <> S754_infinity false -> SFleb x y = true ->
  x <> S754_infinity false /\ (value_sf x <= value_sf y)%R.
Proof.
  destruct x as [[]|[]| |[] mx ex]; try (intros []; fail); intros Hx;
  destruct y as [[]|[]| |[] my ey]; try (intros []; fail); intros Hy Hi;
    try congruence; unfold SFleb; cbn [SFcompare value_sf]; intros H;
    try discriminate; (split; [discriminate|]).
  - lra.
  - left. apply F2R_pos. lia.
  - destruct Hx as [Cx _], Hy as [Cy _].
    destruct (Z.compare_spec ex ey) as [->|Hlt|Hgt]; try discriminate.
    + apply F2R_le.
      change (Pos.compare_cont Eq mx my) with (Pos.compare mx my) in H.
      destruct (Pos.compare_spec mx my); try discriminate; lia.
    + left. now apply canonical_exponent_lt.
Qed.

(** The sum of two finite floats or zeros is their exact sum, rounded. *)
Lemma SFadd_unsigned_nearest x y :
  unsigned_sf x -> unsigned_sf y ->
  x <> S754_infinity false -> y <> S754_infinity false ->
  exists m e,
    SFadd prec emax x y = pack false m e
    /\ rounds_nearest (value_sf x + value_sf y) m e.
Proof.
  destruct x as [[]|[]| |[] mx ex]; try (intros []; fail); intros Hx;
  destruct y as [[]|[]| |[] my ey]; try (intros []; fail); intros Hy Ix Iy;
    try congruence; cbn [value_sf].
  - exists 0, 0. split; [reflexivity|]. rewrite Rplus_0_r. apply rounds_nearest_zero.
  - destruct Hy as [Cy Ey]. exists (Zpos my), ey. split.
    + cbn [SFadd pack]. now apply Z.leb_le in Ey as ->.
    + rewrite Rplus_0_l. now apply rounds_nearest_float.
  - destruct Hx as [Cx Ex]. exists (Zpos mx), ex. split.
    + cbn [SFadd pack]. now apply Z.leb_le in Ex as ->.
    + rewrite Rplus_0_r. now apply rounds_nearest_float.
  - apply SFadd_finite_nearest.
Qed.

Lemma SFadd_infinity x y :
  unsigned_sf x -> unsigned_sf y ->
  x = S754_infinity false \/ y = S754_infinity false ->
  SFadd prec emax x y = S754_infinity false.
Proof.
  destruct x as [[]|[]| |[] mx ex]; try (intros []; fail); intros Hx;
  destruct y as [[]|[]| |[] my ey]; try (intros []; fail); intros Hy [H|H];
    try discriminate; reflexivity.
Qed.

Lemma infinity_or_not (x : spec_float) :
  x = S754_infinity false \/ x <> S754_infinity false.
Proof. destruct x as [s|[]| |s m e]; (now left) || (right; discriminate). Qed.

Lemma SFadd_unsigned x y :
  unsigned_sf x -> unsigned_sf y -> unsigned_sf (SFadd prec emax x y).
Proof.
  intros Hx Hy.
  destruct (infinity_or_not x) as [Ix|Ix];
    [rewrite SFadd_infinity by auto; exact I|].
  destruct (infinity_or_not y) as [Iy|Iy];
    [rewrite SFadd_infinity by auto; exact I|].
  destruct (SFadd_unsigned_nearest x y Hx Hy Ix Iy) as (m & e & -> & Hn).
  eapply pack_unsigned. exact (proj1 Hn).
Qed.

Lemma SFadd_monotone x1 y1 x2 y2 :
  unsigned_sf x1 -> unsigned_sf y1 -> unsigned_sf x2 -> unsigned_sf y2 ->
  SFleb x1 x2 = true -> SFleb y1 y2 = true ->
  SFleb (SFadd prec emax x1 y1) (SFadd prec emax x2 y2) = true.
Proof.
  intros Hx1 Hy1 Hx2 Hy2 Lx Ly.
  destruct (infinity_or_not x2) as [Ix|Ix];
    [rewrite (SFadd_infinity x2 y2) by auto;
     now apply unsigned_leb_infinity, SFadd_unsigned|].
  destruct (infinity_or_not y2) as [Iy|Iy];
    [rewrite (SFadd_infinity x2 y2) by auto;
     now apply unsigned_leb_infinity, SFadd_unsigned|].
  destruct (unsigned_leb_value _ _ Hx1 Hx2 Ix Lx) as [Ix1 Vx].
  destruct (unsigned_leb_value _ _ Hy1 Hy2 Iy Ly) as [Iy1 Vy].
  destruct (SFadd_unsigned_nearest x1 y1 Hx1 Hy1 Ix1 Iy1) as (m1 & e1 & -> & N1).
  destruct (SFadd_unsigned_nearest x2 y2 Hx2 Hy2 Ix Iy) as (m2 & e2 & -> & N2).
  pose proof (rounds_nearest_monotone _ _ _ _ _ _ N1 N2 ltac:(lra)) as H.
  destruct N1 as [(? & ? & _) _], N2 as [(? & ? & _) _].
  now apply pack_leb.
Qed.

(** The price of a counter: an unsigned float, growing with the counter. *)
Lemma per_million_cost_unsigned n q rate :
  int_truediv (Z.of_N n) 1000000 = Ok q -> moderate rate ->
  unsigned_sf (Prim2SF (q * rate)).
Proof.
  intros Hq (mr & er & Er & Her).
  destruct (moderate_bounds _ _ _ Er Her) as (Cr & _).
  rewrite mul_spec, Er. unfold SF64mul.
  destruct (N.eq_dec n 0) as [->|Hn].
  - cbn in Hq. inversion Hq; subst q. exact I.
  - destruct (int_truediv_nearest (Z.of_N n) 1000000 q ltac:(lia) ltac:(lia) Hq)
      as (p & e & -> & Cq & _).
    destruct (SFmul_finite_nearest false p e false mr er Cq Cr) as (m2 & e2 & -> & Hn2).
    eapply pack_unsigned. exact (proj1 Hn2).
Qed.

Lemma per_million_cost_monotone n1 n2 q1 q2 rate :
  int_truediv (Z.of_N n1) 1000000 = Ok q1 ->
  int_truediv (Z.of_N n2) 1000000 = Ok q2 ->
  moderate rate -> (n1 <= n2)%N ->
  SFleb (Prim2SF (q1 * rate)) (Prim2SF (q2 * rate)) = true.
Proof.
  intros H1 H2 M Hle.
  pose proof (per_million_cost_unsigned _ _ _ H2 M) as U2.
  destruct M as (mr & er & Er & Her).
  destruct (moderate_bounds _ _ _ Er Her) as (Cr & _).
  pose proof (F2R_pos (Zpos mr) er ltac:(lia)) as Pr.
  destruct (N.eq_dec n1 0) as [->|Hn1].
  - cbn in H1. inversion H1; subst q1.
    rewrite (mul_spec 0), Er. change (Prim2SF 0) with (S754_zero false).
    unfold SF64mul. cbn [SFmul xorb].
    destruct (Prim2SF (q2 * rate)) as [[]|[]| |[] m e]; try destruct U2; reflexivity.
  - destruct (int_truediv_nearest (Z.of_N n1) 1000000 q1 ltac:(lia) ltac:(lia) H1)
      as (p1 & e1 & E1 & C1 & _ & N1).
    destruct (int_truediv_nearest (Z.of_N n2) 1000000 q2 ltac:(lia) ltac:(lia) H2)
      as (p2 & e2 & E2 & C2 & _ & N2).
    assert (Hq : (F2R (Zpos p1) e1 <= F2R (Zpos p2) e2)%R).
    { apply (rounds_nearest_monotone _ _ _ _ _ _ N1 N2).
      assert (IZR (Z.of_N n1) <= IZR (Z.of_N n2))%R by (apply IZR_le; lia).
      unfold Rdiv. apply Rmult_le_compat_r; [|assumption].
      left. apply Rinv_0_lt_compat. lra. }
    rewrite !mul_spec, E1, E2, Er. unfold SF64mul.
    destruct (SFmul_finite_nearest false p1 e1 false mr er C1 Cr) as (m1' & e1' & -> & M1).
    destruct (SFmul_finite_nearest false p2 e2 false mr er C2 Cr) as (m2' & e2' & -> & M2).
    cbn [xorb].
    pose proof (rounds_nearest_monotone _ _ _ _ _ _ M1 M2 ltac:(nra)) as H.
    destruct M1 as [(? & ? & _) _], M2 as [(? & ? & _) _].
    now apply pack_leb.
Qed.

End MonotoneFacts.

Import ValueFacts QuotientFacts CostFacts MonotoneFacts.

(** X11: under one model, [calculate_cost] never gives a lower cost for a
    higher token counter, and when none of the four counters is lower the
    total is not lower either. *)
Theorem calculate_cost_monotone :
  forall t1 t2 model c1 c2,
    calculate_cost t1 model = Ok c1 ->
    calculate_cost t2 model = Ok c2 ->
    ((input_tokens t1 <= input_tokens t2)%N ->
       (input_cost c1 <=? input_cost c2)%float = true)
    /\ ((output_tokens t1 <= output_tokens t2)%N ->
          (output_cost c1 <=? output_cost c2)%float = true)
    /\ ((cache_creation_input_tokens t1 <= cache_creation_input_tokens t2)%N ->
          (cache_write_cost c1 <=? cache_write_cost c2)%float = true)
    /\ ((cache_read_input_tokens t1 <= cache_read_input_tokens t2)%N ->
          (cache_read_cost c1 <=? cache_read_cost c2)%float = true)
    /\ ((input_tokens t1 <= input_tokens t2)%N ->
        (output_tokens t1 <= output_tokens t2)%N ->
        (cache_creation_input_tokens t1 <= cache_creation_input_tokens t2)%N ->
        (cache_read_input_tokens t1 <= cache_read_input_tokens t2)%N ->
        (CostBreakdown.total_cost c1 <=? CostBreakdown.total_cost c2)%float = true).
Proof.
  intros t1 t2 model c1 c2 H1 H2.
  apply calculate_cost_inv in H1 as (i1 & o1 & w1 & r1 & Hi1 & Ho1 & Hw1 & Hr1 & ->).
  apply calculate_cost_inv in H2 as (i2 & o2 & w2 & r2 & Hi2 & Ho2 & Hw2 & Hr2 & ->).
  destruct (rates_moderate model) as (M1 & M2 & M3 & M4).
  cbn [input_cost output_cost cache_write_cost cache_read_cost].
  repeat split; try (intros L; rewrite leb_spec; eapply per_million_cost_monotone; eassumption).
  intros L1 L2 L3 L4. unfold CostBreakdown.total_cost.
  cbn [input_cost output_cost cache_write_cost cache_read_cost].
  rewrite leb_spec, !add_spec. unfold SF64add.
  repeat first
    [ apply SFadd_monotone
    | apply SFadd_unsigned
    | eapply per_million_cost_unsigned; eassumption
    | eapply per_million_cost_monotone; eassumption ].
Qed.

Lemma calculate_cost_monotone_witness :
  exists c1 c2,
    calculate_cost (Examples.usage 1500 20 0 999) (Some Examples.opus) = Ok c1
    /\ calculate_cost (Examples.usage 1501 20 7 1000) (Some Examples.opus) = Ok c2
    /\ (input_cost c1 <=? input_cost c2)%float = true
    /\ (CostBreakdown.total_cost c1 <=? CostBreakdown.total_cost c2)%float = true.
Proof.
  eexists _, _. split; [reflexivity|]. split; [reflexivity|].
  destruct (calculate_cost_monotone
              (Examples.usage 1500 20 0 999) (Examples.usage 1501 20 7 1000)
              (Some Examples.opus) _ _ eq_refl eq_refl)
    as (H1 & _ & _ & _ & H5).
  split; [apply H1|apply H5]; cbn; lia.
Defined.

Module TotalFacts.
Import MonotoneFacts.

Lemma unsigned_ordered x : unsigned_sf x -> ordered_sf x = true.
Proof. destruct x as [[]|[]| |[] m e]; intros H; try destruct H; reflexivity. Qed.

Lemma unsigned_leb_refl x : unsigned_sf x -> SFleb x x = true.
Proof.
  destruct x as [[]|[]| |[] m e]; intros H; try destruct H; try reflexivity.
  unfold SFleb. cbn [SFcompare]. rewrite Z.compare_refl.
  change (Pos.compare_cont Eq m m) with (Pos.compare m m).
  now rewrite Pos.compare_refl.
Qed.

Lemma zero_leb_unsigned x : unsigned_sf x -> SFleb (S754_zero false) x = true.
Proof. destruct x as [[]|[]| |[] m e]; intros H; try destruct H; reflexivity. Qed.

Lemma SFadd_zero_l x : unsigned_sf x -> SFadd prec emax (S754_zero false) x = x.
Proof. destruct x as [[]|[]| |[] m e]; intros H; try destruct H; reflexivity. Qed.

Lemma SFadd_zero_r x : unsigned_sf x -> SFadd prec emax x (S754_zero false) = x.
Proof. destruct x as [[]|[]| |[] m e]; intros H; try destruct H; reflexivity. Qed.

Lemma add_unsigned x y : unsigned x -> unsigned y -> unsigned (x + y)%float.
Proof. unfold unsigned. rewrite add_spec. apply SFadd_unsigned. Qed.

Lemma add_monotone x1 y1 x2 y2 :
  unsigned x1 -> unsigned y1 -> unsigned x2 -> unsigned y2 ->
  (x1 <=? x2)%float = true -> (y1 <=? y2)%float = true ->
  (x1 + y1 <=? x2 + y2)%float = true.
Proof.
  unfold unsigned. rewrite !leb_spec, !add_spec. apply SFadd_monotone.
Qed.

Lemma leb_add_l x y : unsigned x -> unsigned y -> (x <=? x + y)%float = true.
Proof.
  unfold unsigned. rewrite leb_spec, add_spec. intros Hx Hy. unfold SF64add.
  rewrite <- (SFadd_zero_r _ Hx) at 1.
  apply SFadd_monotone; auto; try exact I;
    [now apply unsigned_leb_refl|now apply zero_leb_unsigned].
Qed.

Lemma leb_add_r x y : unsigned x -> unsigned y -> (y <=? x + y)%float = true.
Proof.
  unfold unsigned. rewrite leb_spec, add_spec. intros Hx Hy. unfold SF64add.
  rewrite <- (SFadd_zero_l _ Hy) at 1.
  apply SFadd_monotone; auto; try exact I;
    [now apply zero_leb_unsigned|now apply unsigned_leb_refl].
Qed.

Lemma unsigned_leb_trans x y z :
  unsigned x -> unsigned y -> unsigned z ->
  (x <=? y)%float = true -> (y <=? z)%float = true -> (x <=? z)%float = true.
Proof.
  unfold unsigned. rewrite !leb_spec. intros Hx Hy Hz.
  apply SFleb_trans; now apply unsigned_ordered.
Qed.

(** *** Running sums of unsigned floats *)

Lemma fold_add_unsigned xs : forall acc,
  unsigned acc -> Forall unsigned xs -> unsigned (fold_left PrimFloat.add xs acc).
Proof.
  induction xs as [|x xs IH]; intros acc Ha H; cbn [fold_left]; [assumption|].
  inversion H; subst. apply IH; [now apply add_unsigned|assumption].
Qed.

Lemma fold_add_ge_start xs : forall acc,
  unsigned acc -> Forall unsigned xs ->
  (acc <=? fold_left PrimFloat.add xs acc)%float = true.
Proof.
  induction xs as [|x xs IH]; intros acc Ha H; cbn [fold_left].
  - rewrite leb_spec. now apply unsigned_leb_refl.
  - inversion H; subst.
    apply unsigned_leb_trans with (acc + x)%float;
      auto using add_unsigned, leb_add_l, fold_add_unsigned.
Qed.

Lemma fold_add_ge_term xs : forall acc x,
  unsigned acc -> Forall unsigned xs -> In x xs ->
  (x <=? fold_left PrimFloat.add xs acc)%float = true.
Proof.
  induction xs as [|y xs IH]; intros acc x Ha H Hin; [destruct Hin|].
  inversion H; subst. cbn [fold_left]. destruct Hin as [->|Hin].
  - apply unsigned_leb_trans with (acc + x)%float;
      auto using add_unsigned, leb_add_r, fold_add_unsigned, fold_add_ge_start.
  - apply IH; auto using add_unsigned.
Qed.

(** *** The costs of one model *)

Lemma calculate_cost_unsigned tokens model c :
  calculate_cost tokens model = Ok c ->
  unsigned (input_cost c) /\ unsigned (output_cost c)
  /\ unsigned (cache_write_cost c) /\ unsigned (cache_read_cost c).
Proof.
  intros H.
  apply calculate_cost_inv in H as (i & o & w & r & Hi & Ho & Hw & Hr & ->).
  destruct (CostFacts.rates_moderate model) as (M1 & M2 & M3 & M4).
  cbn [input_cost output_cost cache_write_cost cache_read_cost].
  repeat split; eapply per_million_cost_unsigned; eassumption.
Qed.

Lemma model_costs_unsigned items cs :
  Spec.model_costs items = Ok cs ->
  Forall unsigned (map input_cost cs) /\ Forall unsigned (map output_cost cs)
  /\ Forall unsigned (map cache_write_cost cs)
  /\ Forall unsigned (map cache_read_cost cs).
Proof.
  intros H. apply mapM_ok_Forall2 in H.
  induction H as [|kv c items cs Hc _ (I1 & I2 & I3 & I4)]; cbn [map];
    [repeat split; constructor|].
  apply calculate_cost_unsigned in Hc as (U1 & U2 & U3 & U4).
  repeat split; constructor; assumption.
Qed.

Lemma model_costs_In items cs model tokens c :
  Spec.model_costs items = Ok cs -> In (model, tokens) items ->
  calculate_cost tokens (Some model) = Ok c -> In c cs.
Proof.
  intros H. apply mapM_ok_Forall2 in H.
  induction H as [|kv c' items cs Hc _ IH]; intros Hin Hm; [destruct Hin|].
  destruct Hin as [->|Hin]; [|right; now apply IH].
  cbn [fst snd] in Hc. left. congruence.
Qed.

(** *** Where the entries of a breakdown come from *)

Lemma In_dict_set {V} (d : dict V) k v x :
  In x (dict_set d k v) -> x = (k, v) \/ In x d.
Proof.
  induction d as [|[k' v'] d IH]; cbn [dict_set]; intros H.
  - destruct H as [<-|[]]. now left.
  - destruct (String.eqb k' k).
    + destruct H as [<-|H]; [now left|right; now right].
    + destruct H as [<-|H]; [right; now left|].
      destruct (IH H) as [->|Hd]; [now left|right; now right].
Qed.

Lemma In_dict_of_items {V} (l : list (string * V)) x : In x (dict_of_items l) -> In x l.
Proof.
  unfold dict_of_items.
  assert (G : forall acc, In x (fold_left (fun d kv => dict_set d (fst kv) (snd kv)) l acc) ->
                          In x acc \/ In x l).
  { induction l as [|[k v] l IH]; intros acc H; cbn [fold_left] in H; [now left|].
    destruct (IH _ H) as [Hs|Hl]; [|right; now right].
    cbn [fst snd] in Hs. destruct (In_dict_set _ _ _ _ Hs) as [->|Ha];
      [right; now left|now left]. }
  intros H. destruct (G [] H) as [[]|Hl]. exact Hl.
Qed.

Lemma breakdown_loop_In items : forall acc r x,
  breakdown_loop items acc = Ok r -> In x r ->
  In x acc
  \/ exists c, In (fst x, fst (snd x)) items
               /\ calculate_cost (fst (snd x)) (Some (fst x)) = Ok c
               /\ snd (snd x) = CostBreakdown.total_cost c.
Proof.
  induction items as [|[model tokens] items IH]; intros acc r x H Hin;
    cbn [breakdown_loop] in H.
  - inversion H; subst. now left.
  - apply bind_ok in H as (c & Hc & H).
    destruct (IH _ _ _ H Hin) as [Ha|(c' & I1 & I2 & I3)].
    + destruct (In_dict_set _ _ _ _ Ha) as [->|Ha']; [|now left].
      right. exists c. cbn [fst snd]. split; [now left|auto].
    + right. exists c'. split; [now right|auto].
Qed.

End TotalFacts.
Import TotalFacts.

(** X12: no model listed by [get_model_breakdown] costs more than the
    total cost of [get_summary] over the same statistics. *)
Theorem summary_total_bounds_model_costs :
  forall cep stats s b model tokens cost,
    get_summary cep stats = Ok s ->
    get_model_breakdown stats = Ok b ->
    dict_get b model = Some (tokens, cost) ->
    (cost <=? TokenSummary.total_cost s)%float = true.
Proof.
  intros cep stats s b model tokens cost Hs Hb Hget.
  unfold get_summary in Hs. apply bind_ok in Hs as (total & Ht & Hs).
  inversion Hs; subst s. clear Hs.
  rewrite summary_loop_spec in Ht. apply bind_ok in Ht as (cs & Hcs & Ht).
  inversion Ht; subst total. clear Ht.
  unfold get_model_breakdown in Hb. apply bind_ok in Hb as (bl & Hbl & Hb).
  inversion Hb; subst b. clear Hb.
  apply dict_get_In, In_dict_of_items in Hget.
  apply (Permutation_in _ (sorted_reverse_perm entry_cost bl)) in Hget.
  destruct (breakdown_loop_In _ _ _ _ Hbl Hget) as [[]|(c & Hin & Hc & Hcost)].
  cbn [fst snd] in Hin, Hc, Hcost. subst cost.
  pose proof (model_costs_In _ _ _ _ _ Hcs Hin Hc) as Hmem.
  destruct (calculate_cost_unsigned _ _ _ Hc) as (U1 & U2 & U3 & U4).
  destruct (model_costs_unsigned _ _ Hcs) as (F1 & F2 & F3 & F4).
  unfold TokenSummary.total_cost, CostBreakdown.total_cost.
  cbn [cost_breakdown]. rewrite fold_accumulate.
  cbn [input_cost output_cost cache_write_cost cache_read_cost zero_cost].
  assert (Z : unsigned 0) by exact I.
  repeat first
    [ apply add_monotone
    | apply add_unsigned
    | apply fold_add_unsigned
    | apply fold_add_ge_term; [assumption|assumption|now apply in_map]
    | assumption ].
Qed.

Lemma summary_total_bounds_model_costs_witness :
  exists s b tokens cost,
    get_summary Examples.no_cache_efficiency Examples.mixed_models = Ok s
    /\ get_model_breakdown Examples.mixed_models = Ok b
    /\ dict_get b Examples.sonnet = Some (tokens, cost)
    /\ (cost <=? TokenSummary.total_cost s)%float = true.
Proof.
  eexists _, _, _, _. split; [reflexivity|]. split; [reflexivity|].
  split; [reflexivity|].
  exact (summary_total_bounds_model_costs Examples.no_cache_efficiency
           Examples.mixed_models _ _ Examples.sonnet _ _ eq_refl eq_refl eq_refl).
Defined.

Module SavingsFacts.
Import ValueFacts QuotientFacts CostFacts RangeFacts FormatFacts AccuracyFacts.
Local Open Scope Z_scope.

Lemma SFsub_finite_spec mx ex my ey :
  (F2R (Zpos my) ey < F2R (Zpos mx) ex)%R ->
  exists m2 e2,
    SFsub prec emax (S754_finite false mx ex) (S754_finite false my ey) = pack false m2 e2
    /\ rounds_to (F2R (Zpos mx) ex - F2R (Zpos my) ey) m2 e2.
Proof.
  intros H. cbn [SFsub cond_Zopp]. set (ez := Z.min ex ey).
  assert (Ex : F2R (Zpos mx) ex = F2R (Zpos (fst (shl_align mx ex ez))) ez).
  { rewrite shl_align_value by (unfold ez; lia).
    rewrite <- F2R_shift by (unfold ez; lia). f_equal. lia. }
  assert (Ey : F2R (Zpos my) ey = F2R (Zpos (fst (shl_align my ey ez))) ez).
  { rewrite shl_align_value by (unfold ez; lia).
    rewrite <- F2R_shift by (unfold ez; lia). f_equal. lia. }
  rewrite Ex, Ey in *. apply F2R_lt in H.
  set (a := Zpos (fst (shl_align mx ex ez))) in *.
  set (b := Zpos (fst (shl_align my ey ez))) in *.
  replace (F2R a ez - F2R b ez)%R with (F2R (a - b) ez)
    by (unfold F2R; rewrite minus_IZR; ring).
  destruct (a - b) as [|d|d] eqn:E; try lia.
  cbn [binary_normalize]. apply binary_round_spec.
Qed.

(** A rounding of a value that is at least a normal float is a normal float
    close to the value. *)
Lemma rounds_to_close v m e eL :
  rounds_to v m e -> -1074 < eL -> (F2R (2 ^ 52) eL <= v)%R ->
  exists p,
    m = Zpos p /\ canonical (Zpos p) e /\ eL <= e
    /\ (F2R (2 ^ 52) eL <= F2R (Zpos p) e)%R
    /\ (v - v / IZR (2 ^ 51) <= F2R (Zpos p) e <= v + v / IZR (2 ^ 51))%R.
Proof.
  intros Hr HeL Hv.
  pose proof (power_canonical eL ltac:(lia)) as CL.
  destruct (rounds_to_pos _ _ _ _ _ Hr CL Hv) as (p & -> & C & Hlo).
  pose proof (canonical_exponent_le _ _ _ _ CL C Hlo) as He.
  pose proof (F2R_pos (2 ^ 52) eL ltac:(lia)) as PL.
  exists p. split; [reflexivity|]. split; [assumption|]. split; [assumption|].
  split; [assumption|]. apply (rounds_to_relative _ _ _ Hr); [lia|lra].
Qed.

Lemma rounds_to_exponent v m e eB :
  rounds_to v m e -> canonical m e -> -1074 <= eB -> (v <= F2R (2 ^ 52) eB)%R ->
  e <= eB /\ (F2R m e <= F2R (2 ^ 52) eB)%R.
Proof.
  intros (_ & _ & _ & Hu) C HeB Hv.
  pose proof (power_canonical eB HeB) as CB.
  specialize (Hu _ _ CB Hv). split; [|assumption].
  exact (canonical_exponent_le _ _ _ _ C CB Hu).
Qed.

(** The three roundings of [x / 0.30 * 3.00 - x], in the reals. *)
Lemma savings_error (X a Q G S d : R) :
  (0 < X)%R -> (0 < a)%R -> (10 * a <= 3)%R -> (3 <= (10 + d) * a)%R ->
  (0 < d <= / 1000)%R ->
  (X / a - X / a * d <= Q <= X / a + X / a * d)%R ->
  (Q * 3 - Q * 3 * d <= G <= Q * 3 + Q * 3 * d)%R ->
  (G - X - (G - X) * d <= S <= G - X + (G - X) * d)%R ->
  (2 * X <= G /\ 9 * X - 9 * X * (4 * d) <= S <= 9 * X + 9 * X * (4 * d))%R.
Proof.
  intros PX Pa A1 A2 Hd HQ HG HS.
  set (u := (X / a)%R) in *.
  assert (Eu : (u * a = X)%R) by (unfold u; field; lra).
  assert (U1 : (10 * X <= 3 * u)%R) by nra.
  assert (U2 : (3 * u <= (10 + d) * X)%R) by nra.
  assert (Pu : (0 < u)%R) by nra.
  assert (D2 : (d * d <= d / 1000)%R) by nra.
  assert (Q1 : (3 * u - 3 * u * d <= Q * 3)%R) by lra.
  assert (Q2 : (Q * 3 <= 3 * u + 3 * u * d)%R) by lra.
  assert (PQ : (0 < Q * 3)%R) by nra.
  (* the product *)
  assert (G1 : (10 * X - 20 * X * d <= G)%R).
  { assert ((3 * u - 3 * u * d) * (1 - d) <= G)%R by nra.
    assert (10 * X * (1 - d) * (1 - d) <= (3 * u - 3 * u * d) * (1 - d))%R by nra.
    nra. }
  assert (G2 : (G <= 10 * X + 22 * X * d)%R).
  { assert (G <= (3 * u + 3 * u * d) * (1 + d))%R by nra.
    assert ((3 * u + 3 * u * d) * (1 + d) <= (10 + d) * X * (1 + d) * (1 + d))%R by nra.
    assert ((10 + d) * (1 + d) * (1 + d) <= 10 + 22 * d)%R by nra.
    nra. }
  split; [nra|].
  assert (PG : (0 < G - X)%R) by nra.
  split; nra.
Qed.

Lemma default_rates_ratio :
  let a := F2R 5404319552844595 (-54) in
  let t := F2R 6755399441055744 (-51) in
  (t = 3 /\ 0 < a /\ 10 * a <= 3 /\ 3 <= (10 + / IZR (2 ^ 51)) * a /\ a <= 1)%R.
Proof.
  cbv zeta.
  assert (Et : F2R 6755399441055744 (-51) = 3%R).
  { change (-51) with (- (51)). rewrite F2R_div by lia.
    change 6755399441055744 with (3 * 2 ^ 51). rewrite mult_IZR.
    field. apply not_0_IZR. discriminate. }
  assert (Ea : (F2R 5404319552844595 (-54) * IZR (2 ^ 54) = IZR 5404319552844595)%R).
  { change (-54) with (- (54)). rewrite F2R_div by lia.
    field. apply not_0_IZR. discriminate. }
  set (a := F2R 5404319552844595 (-54)) in *.
  assert (P54 : (0 < IZR (2 ^ 54))%R) by (apply IZR_lt; reflexivity).
  assert (P51 : (0 < IZR (2 ^ 51))%R) by (apply IZR_lt; reflexivity).
  assert (E54 : IZR (2 ^ 54) = (8 * IZR (2 ^ 51))%R).
  { change (2 ^ 54) with (8 * 2 ^ 51). now rewrite mult_IZR. }
  assert (H1 : (10 * IZR 5404319552844595 <= 3 * IZR (2 ^ 54))%R).
  { rewrite <- !mult_IZR. apply IZR_le. vm_compute. discriminate. }
  assert (H2 : (3 * IZR (2 ^ 54) <= 10 * IZR 5404319552844595 + 8 * IZR 5404319552844595 / IZR (2 ^ 54))%R).
  { apply Rmult_le_reg_r with (IZR (2 ^ 54)); [assumption|].
    replace ((10 * IZR 5404319552844595 + 8 * IZR 5404319552844595 / IZR (2 ^ 54)) * IZR (2 ^ 54))%R
      with (10 * IZR 5404319552844595 * IZR (2 ^ 54) + 8 * IZR 5404319552844595)%R
      by (field; lra).
    rewrite <- !mult_IZR, <- plus_IZR. apply IZR_le.
    vm_compute. discriminate. }
  assert (H3 : (IZR 5404319552844595 <= IZR (2 ^ 54))%R)
    by (apply IZR_le; vm_compute; discriminate).
  assert (Pa : (0 < a)%R) by (apply F2R_pos; lia).
  split; [exact Et|]. split; [exact Pa|].
  assert (Ia : (a = IZR 5404319552844595 / IZR (2 ^ 54))%R)
    by (rewrite <- Ea; field; lra).
  split; [|split].
  - apply Rmult_le_reg_r with (IZR (2 ^ 54)); [assumption|]. nra.
  - apply Rmult_le_reg_r with (IZR (2 ^ 54)); [assumption|].
    replace ((10 + / IZR (2 ^ 51)) * a * IZR (2 ^ 54))%R
      with (10 * (a * IZR (2 ^ 54)) + 8 * (a * IZR (2 ^ 54)) / IZR (2 ^ 54))%R
      by (rewrite E54; field; lra).
    rewrite Ea. lra.
  - apply Rmult_le_reg_r with (IZR (2 ^ 54)); [assumption|]. lra.
Qed.

(** [x / 0.30 * 3.00 - x] is nine times a normal [x], within [2^-49]. *)
Lemma savings_accurate x p e :
  Prim2SF x = S754_finite false p e ->
  (F2R (2 ^ 52) (-128) <= F2R (Zpos p) e <= F2R (2 ^ 52) (-1))%R ->
  (Rabs (B2R (x / 0.30 * 3.00 - x) - 9 * B2R x) <= 9 * B2R x / IZR (2 ^ 49))%R.
Proof.
  intros Ex [Hlo Hhi].
  destruct (Prim2SF_canonical _ _ _ _ Ex) as [Cx _].
  pose proof (F2R_pos (2 ^ 52) (-128) ltac:(lia)) as PL.
  destruct default_rates_ratio as (Et & Pa & A1 & A2 & A3).
  set (a := F2R 5404319552844595 (-54)) in *.
  set (X := F2R (Zpos p) e) in *.
  assert (Pd : (0 < / IZR (2 ^ 51) <= / 1000)%R).
  { split; [apply Rinv_0_lt_compat, IZR_lt; reflexivity|].
    apply Rinv_le_contravar; [lra|]. apply IZR_le. discriminate. }
  assert (E2 : forall k, F2R (2 ^ 52) (k + 2) = (4 * F2R (2 ^ 52) k)%R).
  { intros k. rewrite F2R_shift by lia. unfold F2R. rewrite mult_IZR. cbn. ring. }
  (* the quotient *)
  assert (Hu : (X <= X / a <= 4 * X)%R).
  { assert (E : (X / a * a = X)%R) by (field; lra).
    assert (0 < X / a)%R by (apply Rmult_lt_0_compat; [lra|now apply Rinv_0_lt_compat]).
    split; nra. }
  destruct (SFdiv_finite_spec false p e false 5404319552844595 (-54))
    as (m2 & e2 & Eq & Rq).
  fold a X in Rq. cbn [xorb] in Eq.
  destruct (rounds_to_close _ _ _ (-128) Rq ltac:(lia) ltac:(lra))
    as (p2 & -> & C2 & L2 & Lq & Bq).
  destruct (rounds_to_exponent _ _ _ 1 Rq C2 ltac:(lia)) as [U2 Uq].
  { rewrite (E2 (-1) : F2R (2 ^ 52) 1 = _). lra. }
  cbn [pack] in Eq. destruct (Z.leb_spec e2 (emax - prec)) as [_|F];
    [|unfold emax, prec in F; lia].
  set (Q := F2R (Zpos p2) e2) in *.
  (* the product *)
  destruct (SFmul_finite_spec false p2 e2 false 6755399441055744 (-51) C2)
    as (m3 & e3 & Eg & Rg).
  { split; [lia|reflexivity]. }
  fold Q in Rg. rewrite Et in Rg. cbn [xorb] in Eg.
  destruct (rounds_to_close _ _ _ (-128) Rg ltac:(lia) ltac:(lra))
    as (p3 & -> & C3 & L3 & Lg & Bg).
  destruct (rounds_to_exponent _ _ _ 3 Rg C3 ltac:(lia)) as [U3 Ug].
  { rewrite (E2 1 : F2R (2 ^ 52) 3 = _).
    pose proof (F2R_pos (2 ^ 52) 1 ltac:(lia)). lra. }
  cbn [pack] in Eg. destruct (Z.leb_spec e3 (emax - prec)) as [_|F];
    [|unfold emax, prec in F; lia].
  set (G := F2R (Zpos p3) e3) in *.
  (* the difference *)
  assert (G2X : (2 * X <= G)%R).
  { assert (Hs : exists S, (G - X - (G - X) * / IZR (2 ^ 51) <= S
                            <= G - X + (G - X) * / IZR (2 ^ 51))%R).
    { exists (G - X)%R.
      assert (0 <= (G - X) * / IZR (2 ^ 51) \/ (G - X) * / IZR (2 ^ 51) <= 0)%R as [|] by lra.
      - lra.
      - assert (G - X <= 0)%R by nra.
        assert (G - X - (G - X) * / IZR (2 ^ 51) <= G - X)%R by nra.
        assert (0 <= X / a - X / a * / IZR (2 ^ 51))%R by nra.
        unfold Rdiv in Bq, Bg. nra. }
    destruct Hs as [S HS].
    unfold Rdiv in Bq, Bg.
    exact (proj1 (savings_error X a Q G S _ ltac:(lra) Pa A1 A2 Pd Bq Bg HS)). }
  destruct (SFsub_finite_spec p3 e3 p e ltac:(fold G X; lra)) as (m4 & e4 & Es & Rs).
  fold G X in Rs.
  destruct (rounds_to_close _ _ _ (-128) Rs ltac:(lia) ltac:(lra))
    as (p4 & -> & C4 & L4 & Ls & Bs).
  destruct (rounds_to_exponent _ _ _ 3 Rs C4 ltac:(lia) ltac:(lra)) as [U4 Us].
  cbn [pack] in Es. destruct (Z.leb_spec e4 (emax - prec)) as [_|F];
    [|unfold emax, prec in F; lia].
  assert (Ev : Prim2SF (x / 0.30 * 3.00 - x) = S754_finite false p4 e4).
  { rewrite sub_spec, mul_spec, div_spec, Ex.
    change (Prim2SF 0.30) with (S754_finite false 5404319552844595 (-54)).
    change (Prim2SF 3.00) with (S754_finite false 6755399441055744 (-51)).
    unfold SF64sub, SF64mul, SF64div. now rewrite Eq, Eg. }
  unfold B2R. rewrite Ev, Ex. cbn [cond_Zopp]. fold X.
  set (S := F2R (Zpos p4) e4) in *.
  unfold Rdiv in Bq, Bg, Bs.
  destruct (savings_error X a Q G S _ ltac:(lra) Pa A1 A2 Pd Bq Bg Bs) as [_ [B1 B2]].
  assert (E49 : (/ IZR (2 ^ 49) = 4 * / IZR (2 ^ 51))%R).
  { change (2 ^ 51) with (4 * 2 ^ 49). rewrite mult_IZR. field.
    apply not_0_IZR. discriminate. }
  unfold Rdiv. rewrite E49. apply Rabs_le. split; lra.
Qed.

(** The price of a positive counter below [2^63] is a normal float. *)
Lemma per_million_cost_range n q rate :
  (0 < n)%N -> Z.of_N n < 2 ^ 63 ->
  int_truediv (Z.of_N n) 1000000 = Ok q -> moderate rate ->
  exists p e,
    Prim2SF (q * rate) = S754_finite false p e
    /\ (F2R (2 ^ 52) (-128) <= F2R (Zpos p) e <= F2R (2 ^ 52) (-1))%R.
Proof.
  intros Hn Hb Hq Hm.
  pose proof (per_million_at_most n q Hb Hq) as Aq.
  pose proof (mul_at_most (-8) q rate ltac:(lia) ltac:(lia) Aq Hm) as Ac.
  destruct Hm as (mr & er & Er & Her).
  destruct (moderate_bounds _ _ _ Er Her) as (Cr & Hrlo & Hrhi).
  destruct (int_truediv_value (Z.of_N n) 1000000 q ltac:(lia) ltac:(lia) Hq)
    as (p & e & Eq & Cq & He & Hr).
  destruct (SFmul_finite_spec false p e false mr er Cq Cr) as (m2 & e2 & E2 & Hr2).
  assert (Hq20 : (F2R (2 ^ 52) (-72) <= F2R (Zpos p) e)%R).
  { destruct Hr as (_ & _ & Hl & _). apply Hl; [split; reflexivity|].
    change (-72) with (- (72)). rewrite F2R_div by lia.
    change 1000000%R with (IZR 1000000). apply IZR_div_le; [reflexivity|lia|].
    change (2 ^ 52) with 4503599627370496. change (2 ^ 72) with 4722366482869645213696.
    lia. }
  assert (Hv : (F2R (2 ^ 52) (-128) <= F2R (Zpos p) e * F2R (Zpos mr) er)%R).
  { assert (E : F2R (2 ^ 52) (-128) = (F2R (2 ^ 52) (-72) * F2R 1 (-56))%R).
    { rewrite <- F2R_mul. reflexivity. }
    assert (E' : (F2R 1 (-56) <= F2R (2 ^ 52) (-56))%R) by (apply F2R_le; lia).
    pose proof (F2R_pos 1 (-56) ltac:(lia)).
    pose proof (F2R_pos (2 ^ 52) (-72) ltac:(lia)).
    rewrite E. nra. }
  assert (Ct : canonical (2 ^ 52) (-128)) by (split; reflexivity).
  destruct (rounds_to_pos _ _ _ _ _ Hr2 Ct Hv) as (p2 & -> & C2 & Hlo).
  assert (Epk : Prim2SF (q * rate) = pack false (Zpos p2) e2)
    by (rewrite mul_spec, Eq, Er; exact E2).
  destruct Ac as [[s Es]|(p3 & e3 & Es & C3 & Hhi)].
  - rewrite Epk in Es. cbn [pack] in Es. destruct (e2 <=? emax - prec); discriminate.
  - exists p3, e3. split; [assumption|].
    rewrite Epk in Es. cbn [pack] in Es.
    destruct (e2 <=? emax - prec); [|discriminate].
    inversion Es; subst. change (-8 + 7) with (-1) in Hhi. lra.
Qed.

End SavingsFacts.

(** X13: for counters below [2^63], the [cache_savings] of the breakdown
    that [calculate_cost] returns is nine times its cache-read cost, within
    [2^-49] in relative terms, whatever the model. *)
Theorem cache_savings_nine_times_read_cost :
  forall tokens model c,
    fits_int64 tokens ->
    calculate_cost tokens model = Ok c ->
    (Rabs (B2R (CostBreakdown.cache_savings c) - 9 * B2R (cache_read_cost c))
     <= 9 * B2R (cache_read_cost c) / IZR (2 ^ 49))%R.
Proof.
  intros tokens model c (_ & _ & _ & F4) H.
  apply calculate_cost_inv in H as (i & o & w & r & _ & _ & _ & Hr & ->).
  destruct (CostFacts.rates_moderate model) as (_ & _ & _ & M4).
  cbn [cache_read_cost].
  set (x := (r * cache_read_per_mtok (pricing_of model))%float).
  change (CostBreakdown.cache_savings _) with (x / 0.30 * 3.00 - x)%float.
  destruct (N.eq_dec (cache_read_input_tokens tokens) 0) as [E0|Hn].
  - rewrite E0 in Hr. cbn in Hr. inversion Hr; subst r.
    destruct M4 as (mr & er & Er & _).
    assert (Ex : Prim2SF x = S754_zero false).
    { unfold x. rewrite mul_spec, Er. reflexivity. }
    assert (Es : Prim2SF (x / 0.30 * 3.00 - x) = S754_zero false)
      by (rewrite sub_spec, mul_spec, div_spec, Ex; reflexivity).
    unfold B2R. rewrite Es, Ex.
    replace (0 - 9 * 0)%R with 0%R by ring. rewrite Rabs_R0.
    unfold Rdiv. rewrite Rmult_0_r, Rmult_0_l. lra.
  - assert (Hp : (0 < cache_read_input_tokens tokens)%N) by lia.
    destruct (SavingsFacts.per_million_cost_range _ _ _ Hp F4 Hr M4)
      as (p & e & Ex & Hx).
    now apply SavingsFacts.savings_accurate with p e.
Qed.

Lemma cache_savings_nine_times_read_cost_witness :
  exists c,
    calculate_cost (Examples.usage 0 0 0 123456789) (Some Examples.opus) = Ok c
    /\ (Rabs (B2R (CostBreakdown.cache_savings c) - 9 * B2R (cache_read_cost c))
        <= 9 * B2R (cache_read_cost c) / IZR (2 ^ 49))%R.
Proof.
  eexists. split; [reflexivity|].
  apply (cache_savings_nine_times_read_cost
           (Examples.usage 0 0 0 123456789) (Some Examples.opus)).
  - repeat split; reflexivity.
  - reflexivity.
Defined.

Module BarFacts.
Import ValueFacts QuotientFacts RangeFacts FormatFacts NearestFacts MonotoneFacts.
Local Open Scope Z_scope.

Lemma and_then_returns {A B} (r : Display.outcome A) (k : A -> Display.outcome B) a :
  r = Display.Returns a -> Display.and_then r k = k a.
Proof. now intros ->. Qed.

Lemma cells_nonpos s n : n <= 0 -> Display.cells s n = EmptyString.
Proof.
  intros H. unfold Display.cells. now replace (Z.to_nat n) with O by lia.
Qed.

Lemma append_empty_r s : (s ++ "")%string = s.
Proof. induction s as [|c s IH]; cbn; [reflexivity|now rewrite IH]. Qed.

(** *** The lengths of strings *)

Lemma str_len_nonneg s : 0 <= Display.str_len s.
Proof.
  induction s as [|c s IH]; cbn [Display.str_len]; [lia|].
  destruct (Display.is_continuation c); lia.
Qed.

Lemma str_len_append s t :
  Display.str_len (s ++ t) = Display.str_len s + Display.str_len t.
Proof.
  induction s as [|c s IH]; cbn [append Display.str_len]; [reflexivity|].
  rewrite IH. lia.
Qed.

Lemma str_len_cells s n :
  0 <= n -> Display.str_len (Display.cells s n) = n * Display.str_len s.
Proof.
  intros Hn. unfold Display.cells.
  rewrite <- (Z2Nat.id n Hn) at 2. clear Hn.
  induction (Z.to_nat n) as [|k IH]; cbn [Display.repeat_string].
  - reflexivity.
  - rewrite str_len_append, IH. lia.
Qed.

Lemma max_str_len_bounds py : 2 ^ 53 <= Display.max_str_len py < Display.PY_SSIZE_T_MAX.
Proof. destruct py; split; vm_compute; congruence. Qed.

(** A count that passes the checks of [s * n], for a string of one
    character. *)
Lemma str_mul_returns py s n :
  Display.str_len s = 1 -> n <= Display.max_str_len py -> - 2 ^ 63 <= n ->
  Display.str_mul py s n = Display.Returns (Display.cells s n).
Proof.
  intros Hs Hn Hlo. pose proof (max_str_len_bounds py) as [_ Hmax].
  unfold Display.str_mul.
  destruct (Z.ltb_spec n (- 2 ^ 63)); [lia|].
  destruct (Z.ltb_spec Display.PY_SSIZE_T_MAX n); [lia|]. cbn [orb].
  destruct (Z.ltb_spec n 1); [now rewrite cells_nonpos by lia|].
  rewrite Hs, Z.mul_1_r.
  destruct (Z.ltb_spec (Display.PY_SSIZE_T_MAX / n) 1) as [Hq|_].
  - assert (1 <= Display.PY_SSIZE_T_MAX / n); [|lia].
    apply Z.div_le_lower_bound; lia.
  - destruct (Z.ltb_spec (Display.max_str_len py) n); [lia|reflexivity].
Qed.

Lemma str_add_returns py a b :
  Display.str_len a + Display.str_len b <= Display.max_str_len py ->
  Display.str_add py a b = Display.Returns (a ++ b)%string.
Proof.
  intros H. pose proof (max_str_len_bounds py) as [_ Hmax].
  pose proof (str_len_nonneg a). pose proof (str_len_nonneg b).
  unfold Display.str_add.
  destruct a as [|ca a']; [reflexivity|].
  destruct b as [|cb b']; [now rewrite append_empty_r|].
  set (a := String ca a') in *. set (b := String cb b') in *.
  destruct (Z.ltb_spec (Display.PY_SSIZE_T_MAX - Display.str_len b) (Display.str_len a));
    [lia|].
  destruct (Z.ltb_spec (Display.max_str_len py) (Display.str_len a + Display.str_len b));
    [lia|reflexivity].
Qed.

(** *** Conversions *)

Lemma float_of_int_exact w :
  0 <= w < 2 ^ 53 ->
  exists W q e,
    Display.float_of_int w = Display.Returns W
    /\ Prim2SF W = pack false q e
    /\ 0 <= q /\ (0 < q -> canonical q e /\ e <= 971)
    /\ F2R q e = IZR w.
Proof.
  intros Hw. destruct w as [|p|p]; [| |lia].
  - exists (SF2Prim (S754_zero false)), 0, 0. split; [reflexivity|].
    split; [now apply Prim2SF_SF2Prim|]. split; [lia|]. split; [lia|apply F2R_0].
  - unfold Display.float_of_int. cbn [binary_normalize].
    destruct (binary_round_spec false p 0) as (m2 & e2 & -> & Hr).
    destruct (canonical_of_bits (Zpos p) 0 ltac:(lia) ltac:(lia)) as (mF & eF & HF & EF & HeF).
    rewrite <- EF in Hr. destruct (rounds_to_float _ _ _ _ Hr HF) as [-> ->].
    pose proof HF as [Hpos HcF]. destruct mF as [|q|q]; try lia.
    cbn [pack]. destruct (Z.leb_spec eF (emax - prec)) as [_|Hgt];
      [|unfold emax, prec in Hgt; lia].
    exists (SF2Prim (S754_finite false q eF)), (Zpos q), eF.
    split; [reflexivity|]. split.
    + cbn [pack]. destruct (Z.leb_spec eF (emax - prec)) as [_|Hgt];
        [|unfold emax, prec in Hgt; lia].
      apply Prim2SF_SF2Prim.
      unfold SpecFloat.valid_binary, SpecFloat.bounded, SpecFloat.canonical_mantissa.
      cbn [Zdigits2] in HcF. rewrite HcF, Z.eqb_refl. cbn [andb].
      apply Z.leb_le. unfold emax, prec. lia.
    + split; [lia|]. split; [intros _; split; [assumption|lia]|].
      rewrite EF. apply F2R_IZR.
Qed.

(** The integer part of a float that is not negative. *)
Lemma int_part_bounds m e :
  let f := match e with
           | Zneg k => Zpos m / 2 ^ Zpos k
           | _ => Zpos m * 2 ^ e
           end in
  0 <= f /\ (IZR f <= F2R (Zpos m) e < IZR f + 1)%R.
Proof.
  destruct e as [|k|k]; cbv zeta.
  - rewrite Z.pow_0_r, Z.mul_1_r, F2R_IZR. split; [lia|lra].
  - assert (P : 0 < 2 ^ Zpos k) by (apply Z.pow_pos_nonneg; lia).
    replace (F2R (Zpos m) (Zpos k)) with (IZR (Zpos m * 2 ^ Zpos k)).
    + split; [lia|lra].
    + rewrite <- F2R_IZR. replace (Zpos k) with (0 + Zpos k) at 2 by lia.
      now rewrite F2R_shift by lia.
  - assert (P : 0 < 2 ^ Zpos k) by (apply Z.pow_pos_nonneg; lia).
    change (Zneg k) with (- Zpos k). rewrite F2R_div by lia.
    pose proof (Z.div_mod (Zpos m) (2 ^ Zpos k) ltac:(lia)) as E.
    pose proof (Z.mod_pos_bound (Zpos m) (2 ^ Zpos k) P) as B.
    set (f := Zpos m / 2 ^ Zpos k) in *. set (r := Zpos m mod 2 ^ Zpos k) in *.
    assert (Hf : 0 <= f) by (apply Z.div_pos; lia).
    split; [assumption|].
    assert (PR : (0 < IZR (2 ^ Zpos k))%R) by (apply IZR_lt; assumption).
    assert (ER : (IZR (Zpos m) = IZR (2 ^ Zpos k) * IZR f + IZR r)%R)
      by (rewrite <- mult_IZR, <- plus_IZR; now f_equal).
    assert (R0 : (0 <= IZR r)%R) by (apply IZR_le; lia).
    assert (R1 : (IZR r < IZR (2 ^ Zpos k))%R) by (apply IZR_lt; lia).
    rewrite ER. split.
    + apply Rmult_le_reg_r with (IZR (2 ^ Zpos k)); [assumption|].
      unfold Rdiv. rewrite Rmult_assoc, Rinv_l by lra. lra.
    + apply Rmult_lt_reg_r with (IZR (2 ^ Zpos k)); [assumption|].
      unfold Rdiv. rewrite Rmult_assoc, Rinv_l by lra. nra.
Qed.

Lemma int_of_pack x m e :
  Prim2SF x = pack false m e -> 0 <= m -> (0 < m -> e <= 971) ->
  exists f,
    Display.int_of_float x = Display.Returns f
    /\ 0 <= f /\ (IZR f <= F2R m e < IZR f + 1)%R.
Proof.
  intros E Hm He. unfold Display.int_of_float. rewrite E.
  destruct m as [|p|p]; [| |lia]; cbn [pack].
  - exists 0. rewrite F2R_0. split; [reflexivity|]. split; [lia|lra].
  - destruct (Z.leb_spec e (emax - prec)) as [_|Hgt];
      [|unfold emax, prec in Hgt; specialize (He ltac:(lia)); lia].
    eexists. split; [reflexivity|]. cbn [cond_Zopp]. apply int_part_bounds.
Qed.

(** *** The ratio and its product with the width *)

Lemma hundred :
  Prim2SF 100 = S754_finite false 7036874417766400 (-46)
  /\ F2R 7036874417766400 (-46) = 100%R.
Proof.
  split; [reflexivity|].
  change (-46) with (- (46)). rewrite F2R_div by lia.
  change 7036874417766400 with (100 * 2 ^ 46). rewrite mult_IZR.
  field. apply not_0_IZR. discriminate.
Qed.

Lemma one_canonical : canonical (2 ^ 52) (-52) /\ F2R (2 ^ 52) (-52) = 1%R.
Proof.
  split; [split; reflexivity|].
  change (-52) with (- (52)). rewrite F2R_div by lia.
  field. apply not_0_IZR. discriminate.
Qed.

Lemma SFmul_pack_nearest m e q eW :
  0 <= m -> (0 < m -> canonical m e /\ e <= 971) ->
  0 <= q -> (0 < q -> canonical q eW /\ eW <= 971) ->
  exists m' e',
    SFmul prec emax (pack false m e) (pack false q eW) = pack false m' e'
    /\ rounds_nearest (F2R m e * F2R q eW) m' e'.
Proof.
  intros Hm Cm Hq Cq.
  destruct m as [|pm|pm]; [| |lia].
  - exists 0, 0. rewrite F2R_0, Rmult_0_l. split; [|apply rounds_nearest_zero].
    cbn [pack]. destruct q as [|pq|pq]; [reflexivity| |lia].
    cbn [pack]. destruct (Cq ltac:(lia)) as [_ H]. apply Z.leb_le in H.
    change (emax - prec) with 971. now rewrite H.
  - destruct (Cm ltac:(lia)) as [C1 E1]. cbn [pack].
    apply Z.leb_le in E1. change (emax - prec) with 971. rewrite E1.
    destruct q as [|pq|pq]; [| |lia].
    + exists 0, 0. rewrite F2R_0, Rmult_0_r. split; [reflexivity|apply rounds_nearest_zero].
    + destruct (Cq ltac:(lia)) as [C2 E2]. cbn [pack].
      apply Z.leb_le in E2. change (emax - prec) with 971. rewrite E2.
      now apply SFmul_finite_nearest.
Qed.

(** What [int((percentage / 100) * width)] is for a positive finite
    percentage and a width that converts exactly: the integer part of the
    rounded product of the rounded ratio. *)
Lemma filled_cells p mp ep W q eW w :
  Prim2SF p = S754_finite false mp ep ->
  Prim2SF W = pack false q eW ->
  0 <= q -> (0 < q -> canonical q eW /\ eW <= 971) -> F2R q eW = IZR w ->
  exists mr er m e,
    rounds_nearest (F2R (Zpos mp) ep / 100) mr er
    /\ rounds_nearest (F2R mr er * IZR w) m e
    /\ Prim2SF (p / 100 * W) = pack false m e.
Proof.
  intros Ep EW Hq Cq Vw.
  destruct (Prim2SF_canonical _ _ _ _ Ep) as [Cp Hep].
  destruct hundred as [E100 V100].
  destruct (SFdiv_finite_nearest false mp ep false 7036874417766400 (-46))
    as (mr & er & E1 & N1).
  rewrite V100 in N1. cbn [xorb] in E1.
  assert (Hr : 0 <= mr /\ (0 < mr -> canonical mr er /\ er <= 971)).
  { destruct N1 as [(H0 & C & _ & Hu) _]. split; [assumption|].
    intros Hpos. split; [now apply C|].
    assert (Hv : (F2R (Zpos mp) ep / 100 <= F2R (Zpos mp) ep)%R).
    { pose proof (F2R_pos (Zpos mp) ep ltac:(lia)). lra. }
    specialize (Hu _ _ Cp Hv).
    pose proof (canonical_exponent_le _ _ _ _ (C Hpos) Cp Hu). lia. }
  destruct Hr as [Hmr Cr].
  destruct (SFmul_pack_nearest mr er q eW Hmr Cr Hq Cq) as (m & e & E2 & N2).
  rewrite Vw in N2.
  exists mr, er, m, e. split; [assumption|]. split; [assumption|].
  rewrite mul_spec, div_spec, Ep, EW, E100. unfold SF64mul, SF64div.
  now rewrite E1.
Qed.

Lemma floor_monotone f1 f2 (v1 v2 : R) :
  (IZR f1 <= v1 < IZR f1 + 1)%R -> (IZR f2 <= v2 < IZR f2 + 1)%R ->
  (v1 <= v2)%R -> f1 <= f2.
Proof.
  intros H1 H2 H.
  assert (IZR f1 < IZR (f2 + 1))%R by (rewrite plus_IZR; lra).
  apply lt_IZR in H0. lia.
Qed.

Lemma rounds_nearest_nonneg v m e : rounds_nearest v m e -> (0 <= F2R m e)%R.
Proof.
  intros [(H0 & _) _]. destruct (Z.eq_dec m 0) as [->|]; [rewrite F2R_0; lra|].
  left. apply F2R_pos. lia.
Qed.

(** A percentage between zero and a hundred. *)
Lemma percentage_cases p :
  (0 <=? p)%float = true -> (p <=? 100)%float = true ->
  (exists s, Prim2SF p = S754_zero s)
  \/ exists mp ep, Prim2SF p = S754_finite false mp ep
                   /\ (F2R (Zpos mp) ep <= 100)%R.
Proof.
  rewrite !leb_spec. destruct hundred as [-> V100].
  change (Prim2SF 0) with (S754_zero false). intros H0 H1.
  destruct (Prim2SF p) as [s|[]| |[] mp ep] eqn:Ep; try discriminate.
  - left. eauto.
  - right. exists mp, ep. split; [reflexivity|].
    destruct (Prim2SF_canonical _ _ _ _ Ep) as [Cp Hep].
    rewrite <- V100.
    apply (unsigned_leb_value (S754_finite false mp ep)
             (S754_finite false 7036874417766400 (-46))); try assumption.
    + split; [assumption|unfold emax, prec; lia].
    + split; [split; reflexivity|unfold emax, prec; lia].
    + discriminate.
Qed.

Lemma rounds_nearest_of_zero m e : rounds_nearest 0 m e -> F2R m e = 0%R.
Proof.
  intros [_ (ms & es & T & [L U] & P & _)].
  assert (Hms : ms = 0).
  { destruct T as [[Hpos _]|[-> _]]; [|reflexivity].
    pose proof (F2R_pos ms es Hpos). lra. }
  subst ms. pose proof (middle_between 0 es) as [M _].
  rewrite F2R_0 in *. apply P. lra.
Qed.

(** The number of filled cells for a percentage between zero and a hundred. *)
Lemma filled_in_range p W q eW w :
  Prim2SF W = pack false q eW ->
  0 <= q -> (0 < q -> canonical q eW /\ eW <= 971) -> F2R q eW = IZR w ->
  (0 <=? p)%float = true -> (p <=? 100)%float = true ->
  exists f,
    Display.int_of_float (p / 100 * W) = Display.Returns f
    /\ 0 <= f <= w
    /\ (((exists s, Prim2SF p = S754_zero s) /\ f = 0)
        \/ exists mp ep mr er m e,
             Prim2SF p = S754_finite false mp ep
             /\ rounds_nearest (F2R (Zpos mp) ep / 100) mr er
             /\ rounds_nearest (F2R mr er * IZR w) m e
             /\ (IZR f <= F2R m e < IZR f + 1)%R).
Proof.
  intros EW Hq Cq Vw H0 H100.
  assert (Hw : 0 <= w).
  { apply le_IZR. rewrite <- Vw. destruct (Z.eq_dec q 0) as [->|];
      [rewrite F2R_0; lra|left; apply F2R_pos; lia]. }
  destruct (percentage_cases p H0 H100) as [[s Ep]|(mp & ep & Ep & Vp)].
  - exists 0. split; [|split; [lia|left; eauto]].
    unfold Display.int_of_float.
    rewrite mul_spec, div_spec, Ep, EW, (proj1 hundred). unfold SF64mul, SF64div.
    cbn [SFdiv]. destruct q as [|pq|pq]; [reflexivity| |lia].
    cbn [pack]. destruct (Cq ltac:(lia)) as [_ H]. apply Z.leb_le in H.
    change (emax - prec) with 971. now rewrite H.
  - destruct (filled_cells p mp ep W q eW w Ep EW Hq Cq Vw)
      as (mr & er & m & e & N1 & N2 & Eg).
    destruct one_canonical as [C1 V1].
    pose proof (F2R_pos (Zpos mp) ep ltac:(lia)) as Pp.
    pose proof (rounds_nearest_nonneg _ _ _ N1) as R0.
    assert (R1 : (F2R mr er <= 1)%R).
    { destruct N1 as [(_ & _ & _ & Hu) _]. rewrite <- V1. apply Hu; [assumption|]. lra. }
    assert (IW : (0 <= IZR w)%R) by (apply IZR_le; lia).
    assert (HG : (F2R m e <= IZR w)%R /\ (0 < m -> e <= 971)).
    { destruct (Z.eq_dec q 0) as [->|Hq0].
      - rewrite F2R_0 in Vw. rewrite <- Vw, Rmult_0_r in N2.
        apply rounds_nearest_of_zero in N2. rewrite N2, <- Vw.
        split; [lra|]. intros Hm. pose proof (F2R_pos m e Hm). lra.
      - destruct (Cq ltac:(lia)) as [CW EWle].
        destruct N2 as [(_ & C & _ & Hu) _].
        assert (Hv : (F2R mr er * IZR w <= F2R q eW)%R) by (rewrite Vw; nra).
        specialize (Hu _ _ CW Hv). rewrite <- Vw. split; [assumption|].
        intros Hm. pose proof (canonical_exponent_le _ _ _ _ (C Hm) CW Hu). lia. }
    destruct HG as [HG He].
    destruct (int_of_pack _ m e Eg) as (f & Ef & Hf & Bf); [apply N2|assumption|].
    exists f. split; [assumption|]. split.
    + split; [assumption|]. apply le_IZR.
      assert (IZR f < IZR (w + 1))%R by (rewrite plus_IZR; lra).
      apply lt_IZR in H. apply IZR_le. lia.
    + right. exists mp, ep, mr, er, m, e. auto.
Qed.

Lemma full_block_len : Display.str_len "█" = 1 /\ Display.str_len "░" = 1.
Proof. split; reflexivity. Qed.

Lemma create_progress_bar_filled py p w W f :
  Display.float_of_int w = Display.Returns W ->
  Display.int_of_float (p / 100 * W) = Display.Returns f ->
  0 <= f <= w -> w < 2 ^ 53 ->
  Display.create_progress_bar py p w
  = Display.Returns (Display.cells "█" f ++ Display.cells "░" (w - f))%string.
Proof.
  intros EW Ef Hf Hw. unfold Display.create_progress_bar. cbv zeta.
  rewrite EW. cbn [Display.and_then]. rewrite Ef. cbn [Display.and_then].
  destruct full_block_len as [L1 L2].
  pose proof (max_str_len_bounds py) as [Hmax _].
  rewrite (str_mul_returns py "█" f L1) by lia. cbn [Display.and_then].
  rewrite (str_mul_returns py "░" (w - f) L2) by lia. cbn [Display.and_then].
  apply str_add_returns.
  rewrite !str_len_cells, L1, L2 by lia. lia.
Qed.



End BarFacts.

(** X14: for a percentage between 0 and 100 and a width below [2^53],
    [create_progress_bar] returns exactly [width] cells: some filled cells
    followed by light ones. The bar is all filled at 100 and all light at
    zero. *)
Theorem progress_bar_has_width :
  forall py percentage width,
    (0 <= width < 2 ^ 53)%Z ->
    (0 <=? percentage)%float = true ->
    (percentage <=? 100)%float = true ->
    exists filled,
      (0 <= filled <= width)%Z
      /\ Display.create_progress_bar py percentage width
         = Display.Returns
             (Display.cells "█" filled ++ Display.cells "░" (width - filled))%string
      /\ (percentage = 100%float -> filled = width)
      /\ ((percentage =? 0)%float = true -> filled = 0%Z).
Proof.
  intros py p w Hw H0 H100.
  destruct (BarFacts.float_of_int_exact w Hw) as (W & q & eW & EW & PW & Hq & Cq & Vw).
  destruct (BarFacts.filled_in_range p W q eW w PW Hq Cq Vw H0 H100)
    as (f & Ef & Hf & Cases).
  exists f. split; [assumption|].
  split; [apply BarFacts.create_progress_bar_filled with W; assumption || lia|].
  destruct Cases as [[[s Ep] ->]|(mp & ep & mr & er & m & e & Ep & N1 & N2 & Bf)].
  - split; [|reflexivity]. intros ->.
    rewrite (proj1 BarFacts.hundred) in Ep. discriminate.
  - split.
    + intros ->. destruct BarFacts.hundred as [E100 V100].
      rewrite E100 in Ep. inversion Ep; subst mp ep. clear Ep.
      rewrite V100 in N1.
      replace (100 / 100)%R with 1%R in N1 by lra.
      destruct BarFacts.one_canonical as [C1 V1]. rewrite <- V1 in N1.
      destruct (ValueFacts.rounds_to_float _ _ _ _ (proj1 N1) C1) as [-> ->].
      rewrite V1, Rmult_1_l in N2.
      destruct (Z.eq_dec q 0) as [->|Hq0].
      * rewrite F2R_0 in Vw. apply eq_IZR in Vw. lia.
      * destruct (Cq ltac:(lia)) as [CW _]. rewrite <- Vw in N2.
        destruct (ValueFacts.rounds_to_float _ _ _ _ (proj1 N2) CW) as [-> ->].
        rewrite Vw in Bf.
        assert (H1 : (IZR w < IZR (f + 1))%R) by (rewrite plus_IZR; lra).
        apply lt_IZR in H1. lia.
    + rewrite eqb_spec, Ep. discriminate.
Qed.

Lemma progress_bar_has_width_witness :
  exists filled,
    (0 <= filled <= 20)%Z
    /\ Display.create_progress_bar CPython_3_12 29 20
       = Display.Returns
           (Display.cells "█" filled ++ Display.cells "░" (20 - filled))%string.
Proof.
  destruct (progress_bar_has_width CPython_3_12 29 20) as (f & Hf & E & _).
  - lia.
  - reflexivity.
  - reflexivity.
  - exists f. auto.
Defined.

(** X15: between 0 and 100 a higher percentage never fills fewer cells of
    the bar that [create_progress_bar] returns. *)
Theorem progress_bar_monotone :
  forall py lower higher width,
    (0 <= width < 2 ^ 53)%Z ->
    (0 <=? lower)%float = true ->
    (lower <=? higher)%float = true ->
    (higher <=? 100)%float = true ->
    exists f1 f2,
      Display.create_progress_bar py lower width
      = Display.Returns
          (Display.cells "█" f1 ++ Display.cells "░" (width - f1))%string
      /\ Display.create_progress_bar py higher width
         = Display.Returns
             (Display.cells "█" f2 ++ Display.cells "░" (width - f2))%string
      /\ (0 <= f1 <= f2)%Z /\ (f2 <= width)%Z.
Proof.
  intros py p1 p2 w Hw H0 H12 H100.
  assert (O1 : ordered p1 = true) by (apply nonneg_ordered; now rewrite <- leb_zero_nonneg).
  assert (H0' : (0 <=? p2)%float = true).
  { apply leb_trans with p1; try assumption; try reflexivity.
    revert H100. rewrite leb_spec. unfold ordered.
    destruct (Prim2SF p2) as [|[]| |[]]; try reflexivity; discriminate. }
  assert (O2 : ordered p2 = true) by (apply nonneg_ordered; now rewrite <- leb_zero_nonneg).
  assert (H100' : (p1 <=? 100)%float = true).
  { apply leb_trans with p2; try assumption; reflexivity. }
  destruct (BarFacts.float_of_int_exact w Hw) as (W & q & eW & EW & PW & Hq & Cq & Vw).
  destruct (BarFacts.filled_in_range p1 W q eW w PW Hq Cq Vw H0 H100')
    as (f1 & Ef1 & Hf1 & Cases1).
  destruct (BarFacts.filled_in_range p2 W q eW w PW Hq Cq Vw H0' H100)
    as (f2 & Ef2 & Hf2 & Cases2).
  exists f1, f2.
  split; [apply BarFacts.create_progress_bar_filled with W; assumption || lia|].
  split; [apply BarFacts.create_progress_bar_filled with W; assumption || lia|].
  split; [|lia]. split; [lia|].
  destruct Cases1 as [[_ ->]|(mp1 & ep1 & mr1 & er1 & m1 & e1 & Ep1 & N1 & M1 & B1)];
    [lia|].
  destruct Cases2 as [[[s Ep2] _]|(mp2 & ep2 & mr2 & er2 & m2 & e2 & Ep2 & N2 & M2 & B2)].
  - rewrite leb_spec, Ep1, Ep2 in H12. discriminate.
  - destruct (Prim2SF_canonical _ _ _ _ Ep1) as [C1 E1].
    destruct (Prim2SF_canonical _ _ _ _ Ep2) as [C2 E2].
    rewrite leb_spec, Ep1, Ep2 in H12.
    destruct (MonotoneFacts.unsigned_leb_value
                (S754_finite false mp1 ep1) (S754_finite false mp2 ep2)) as [_ V];
      try (split; [assumption|unfold emax, prec; lia]); try assumption; try discriminate.
    cbn [value_sf] in V.
    assert (R12 : (F2R mr1 er1 <= F2R mr2 er2)%R).
    { apply (NearestFacts.rounds_nearest_monotone _ _ _ _ _ _ N1 N2). lra. }
    pose proof (BarFacts.rounds_nearest_nonneg _ _ _ N1) as R0.
    assert (IW : (0 <= IZR w)%R) by (apply IZR_le; lia).
    assert (G12 : (F2R m1 e1 <= F2R m2 e2)%R).
    { apply (NearestFacts.rounds_nearest_monotone _ _ _ _ _ _ M1 M2). nra. }
    exact (BarFacts.floor_monotone _ _ _ _ B1 B2 G12).
Qed.

Lemma progress_bar_monotone_witness :
  exists f1 f2,
    Display.create_progress_bar CPython_3_12 28.5 20
    = Display.Returns (Display.cells "█" f1 ++ Display.cells "░" (20 - f1))%string
    /\ Display.create_progress_bar CPython_3_12 29 20
       = Display.Returns (Display.cells "█" f2 ++ Display.cells "░" (20 - f2))%string
    /\ (f1 <= f2)%Z.
Proof.
  destruct (progress_bar_monotone CPython_3_12 28.5 29 20) as (f1 & f2 & E1 & E2 & H & _).
  - lia.
  - reflexivity.
  - reflexivity.
  - reflexivity.
  - exists f1, f2. split; [assumption|]. split; [assumption|lia].
Defined.


